(** * EventMobi Heartbeat: the client-side check-in pipeline

    A shallow embedding of the browser code that turns check-in
    notifications into bubbles, counters and notes:

    - [JsNum]     JavaScript numbers as far as the tune parser needs them
    - [Text]      strings as UTF-16 code units, and the regular expressions
                  of the tune parser written out as matchers
    - [Abc]       [parseAbcSimple] of SymphonyPlayer.js
    - [Symphony]  the [SymphonyPlayer] singleton: [init], [playNextNote],
                  [playTone], and the pop sound of BubbleAnimation.jsx
    - [StatsDisplay] the three cards of StatsDisplay.jsx
    - [Dashboard] the socket handlers of Dashboard.jsx with the counters,
                  the stats snapshot and the timers
    - [Bubbles]   the message queue and the bubble list of
                  BubbleAnimation.jsx
    - [Playback]  how long a sound lasts and when it is scheduled
    - [Envelope]  the stored sound settings and [createPerNoteEnvelope]
    - [Tally]     what a run of socket events adds up to
    - [Connection] the connection handlers of Dashboard.jsx and the
                  banner they show
    - [Lifetimes] the removal timers of the bubbles
    - [Wiring]    the message prop between Dashboard and BubbleAnimation
    - [Onboarding] StartPage.jsx and App.jsx: the API key and the saved
                  setup in web storage
    - [Preferences] SettingsPanel.jsx: saving the settings and reading
                  them back

    The definitions come first, module by module; the facts proved about
    them follow, one section for each component. *)

From Stdlib Require Import ZArith NArith QArith Qminmax String Ascii Lia Lqa.
From Stdlib Require Import Qround DecimalString.
From stdpp Require Import prelude gmap.

Set Default Proof Using "Type".

(* ===================================================================== *)
(** * JavaScript numbers *)
(* ===================================================================== *)

Module JsNum.

(** A JavaScript number is a double.  The tune parser only divides,
    multiplies and clamps non-negative quantities, so rounding never decides
    a comparison against its clamp bounds; what does matter is what IEEE
    arithmetic does at zero denominators.  The model keeps finite values as
    exact rationals and adds the three special values. *)
Inductive number : Type :=
  | Fin (q : Q)
  | PInf
  | NInf
  | NaN.

Definition of_N (n : N) : number := Fin (inject_Z (Z.of_N n)).
Definition of_nat (n : nat) : number := Fin (inject_Z (Z.of_nat n)).

(** [a * b].  Zero times an infinity is NaN.  A product of finite numbers
    is exact: an overflow to [Infinity] or an underflow to zero of the
    double is not followed. *)
Definition mul (a b : number) : number :=
  match a, b with
  | NaN, _ | _, NaN => NaN
  | Fin x, Fin y => Fin (x * y)
  | Fin x, PInf | PInf, Fin x =>
      match (x ?= 0)%Q with Eq => NaN | Gt => PInf | Lt => NInf end
  | Fin x, NInf | NInf, Fin x =>
      match (x ?= 0)%Q with Eq => NaN | Gt => NInf | Lt => PInf end
  | PInf, PInf | NInf, NInf => PInf
  | PInf, NInf | NInf, PInf => NInf
  end.

(** [a / b].  The zeros that occur are all positive zeros (quotients and
    products of non-negative numbers), so [x / 0] has the sign of [x];
    [0 / 0] and [Infinity / Infinity] are NaN.  A quotient of finite numbers
    is exact, as for [mul]. *)
Definition div (a b : number) : number :=
  match a, b with
  | NaN, _ | _, NaN => NaN
  | Fin x, Fin y =>
      match (y ?= 0)%Q with
      | Eq => match (x ?= 0)%Q with Eq => NaN | Gt => PInf | Lt => NInf end
      | _ => Fin (x / y)
      end
  | Fin _, (PInf | NInf) => Fin 0
  | PInf, Fin y => match (y ?= 0)%Q with Lt => NInf | _ => PInf end
  | NInf, Fin y => match (y ?= 0)%Q with Lt => PInf | _ => NInf end
  | (PInf | NInf), (PInf | NInf) => NaN
  end.

(** [Math.min(a, b)] and [Math.max(a, b)]: NaN if either argument is. *)
Definition min (a b : number) : number :=
  match a, b with
  | NaN, _ | _, NaN => NaN
  | NInf, _ | _, NInf => NInf
  | PInf, x | x, PInf => x
  | Fin x, Fin y => if Qle_bool x y then Fin x else Fin y
  end.

Definition max (a b : number) : number :=
  match a, b with
  | NaN, _ | _, NaN => NaN
  | PInf, _ | _, PInf => PInf
  | NInf, x | x, NInf => x
  | Fin x, Fin y => if Qle_bool x y then Fin y else Fin x
  end.

(** Truthiness of a number: [0] and [NaN] are falsy. *)
Definition truthy (a : number) : bool :=
  match a with
  | Fin q => negb (Qeq_bool q 0)
  | PInf | NInf => true
  | NaN => false
  end.

(** [a || d] for numbers. *)
Definition or_else (a d : number) : number := if truthy a then a else d.

(** A duration one can render: finite, strictly positive, at most [hi]. *)
Definition bounded_positive (hi : Q) (a : number) : Prop :=
  match a with
  | Fin q => (0 < q)%Q /\ (q <= hi)%Q
  | _ => False
  end.

End JsNum.

(* ===================================================================== *)
(** * Strings and the matchers behind the parser's regular expressions *)
(* ===================================================================== *)

Module Text.

(** A JavaScript string is a sequence of UTF-16 code units. *)
Definition jsstring : Type := list N.

Definition ch (a : ascii) : N := N_of_ascii a.

Fixpoint of_string (s : string) : jsstring :=
  match s with
  | EmptyString => []
  | String a r => ch a :: of_string r
  end.

Definition in_range (lo hi c : N) : bool := (lo <=? c)%N && (c <=? hi)%N.

(** [\d] *)
Definition is_digit (c : N) : bool := in_range 48 57 c.

(** [\s], which is also what [String.prototype.trim] strips: WhiteSpace and
    LineTerminator code points. *)
Definition is_space (c : N) : bool :=
  in_range 9 13 c || (c =? 32)%N || (c =? 160)%N || (c =? 5760)%N
  || in_range 8192 8202 c || (c =? 8232)%N || (c =? 8233)%N
  || (c =? 8239)%N || (c =? 8287)%N || (c =? 12288)%N || (c =? 65279)%N.

(** [A-Z] *)
Definition is_upper (c : N) : bool := in_range 65 90 c.

Fixpoint drop_while (p : N -> bool) (s : jsstring) : jsstring :=
  match s with
  | [] => []
  | c :: r => if p c then drop_while p r else s
  end.

Fixpoint take_while (p : N -> bool) (s : jsstring) : jsstring :=
  match s with
  | [] => []
  | c :: r => if p c then c :: take_while p r else []
  end.

(** [s.trim()] *)
Definition trim (s : jsstring) : jsstring :=
  rev (drop_while is_space (rev (drop_while is_space s))).

(** [s.startsWith(p)] *)
Fixpoint starts_with (p s : jsstring) : bool :=
  match p, s with
  | [], _ => true
  | _ :: _, [] => false
  | a :: p', b :: s' => (a =? b)%N && starts_with p' s'
  end.

(** [parseInt(ds, 10)] on a run of digits.  The value is kept exact.  That
    is the number JavaScript returns up to 2^53 - 1; beyond it JavaScript
    rounds to a double, and reads a run of more than 308 digits as
    [Infinity], which the model does not follow. *)
Definition parseInt (ds : jsstring) : N :=
  fold_left (fun acc c => (10 * acc + (c - 48))%N) ds 0%N.

(** [text.split(/\r?\n/)]: a line ends at a line feed, and a carriage return
    directly before that line feed belongs to the separator.  The result is
    never empty. *)
Definition cons_first (c : N) (ls : list jsstring) : list jsstring :=
  match ls with
  | [] => [[c]]
  | l :: r => (c :: l) :: r
  end.

Fixpoint split_lines (s : jsstring) : list jsstring :=
  match s with
  | [] => [[]]
  | c :: r =>
      if (c =? 10)%N then [] :: split_lines r
      else if (c =? 13)%N && bool_decide (head r = Some 10%N)
           then split_lines r
           else cons_first c (split_lines r)
  end.

(** [lines.join(' ')] *)
Fixpoint join_space (ls : list jsstring) : jsstring :=
  match ls with
  | [] => []
  | [l] => l
  | l :: r => l ++ 32%N :: join_space r
  end.

(** An unanchored [match]: the matcher is tried at every start position,
    leftmost first. *)
Fixpoint search {A} (m : jsstring -> option A) (s : jsstring) : option A :=
  match m s with
  | Some x => Some x
  | None => match s with
            | [] => None
            | _ :: r => search m r
            end
  end.

(** A maximal run of digits at the head of [s], with what follows it.  Every
    [\d+] of the parser is followed by something that is not a digit (or by
    the end of the expression), so giving back digits never helps a match
    and the greedy run is the only candidate. *)
Definition digits (s : jsstring) : option (jsstring * jsstring) :=
  match take_while is_digit s with
  | [] => None
  | ds => Some (ds, drop_while is_digit s)
  end.

(** [(\d+)\/(\d+)] at the head of [s]: the two integers and the rest. *)
Definition fraction_at (s : jsstring) : option (N * N * jsstring) :=
  match digits s with
  | Some (n, c :: r) =>
      if (c =? ch "/")%N then
        match digits r with
        | Some (d, r') => Some (parseInt n, parseInt d, r')
        | None => None
        end
      else None
  | _ => None
  end.

(** [/(\d+)\/(\d+)/], the pattern of the [L:] header. *)
Definition match_length (s : jsstring) : option (N * N) :=
  search (fun t => match fraction_at t with
                   | Some (n, d, _) => Some (n, d)
                   | None => None
                   end) s.

(** [/(\d+)\/(\d+)\s*=\s*(\d+)/], the first pattern of the [Q:] header. *)
Definition tempo_at (s : jsstring) : option (N * N * N) :=
  match fraction_at s with
  | Some (n, d, r) =>
      match drop_while is_space r with
      | c :: r' =>
          if (c =? ch "=")%N then
            match digits (drop_while is_space r') with
            | Some (b, _) => Some (n, d, parseInt b)
            | None => None
            end
          else None
      | [] => None
      end
  | None => None
  end.

Definition match_tempo (s : jsstring) : option (N * N * N) := search tempo_at s.

(** [/(\d+)/], the second pattern of the [Q:] header. *)
Definition match_number (s : jsstring) : option N :=
  search (fun t => match digits t with
                   | Some (b, _) => Some (parseInt b)
                   | None => None
                   end) s.

(** [/^[A-Z]:/.test(s)] *)
Definition is_field_line (s : jsstring) : bool :=
  match s with
  | a :: b :: _ => is_upper a && (b =? ch ":")%N
  | _ => false
  end.

End Text.

(* ===================================================================== *)
(** * The tune parser: [parseAbcSimple] *)
(* ===================================================================== *)

Module Abc.
Import JsNum Text.

Record fraction : Type := { num : N; den : N }.

(** The three values the header loop maintains. *)
Record headers : Type := {
  defaultLen : fraction;
  qNote : fraction;
  qBpm : N
}.

(** [L:1/8] and [Q:1/4=120], the values the loop starts from. *)
Definition default_headers : headers :=
  {| defaultLen := {| num := 1; den := 8 |};
     qNote := {| num := 1; den := 4 |};
     qBpm := 120 |}.

(** [if (ln.startsWith('L:')) { ... }] *)
Definition read_length (h : headers) (ln : jsstring) : headers :=
  if starts_with (of_string "L:") ln then
    match match_length (trim (drop 2 ln)) with
    | Some (n, d) =>
        {| defaultLen := {| num := n; den := d |};
           qNote := qNote h; qBpm := qBpm h |}
    | None => h
    end
  else h.

(** [if (ln.startsWith('Q:')) { ... }] *)
Definition read_tempo (h : headers) (ln : jsstring) : headers :=
  if starts_with (of_string "Q:") ln then
    let qraw := trim (drop 2 ln) in
    match match_tempo qraw with
    | Some (n, d, b) =>
        {| defaultLen := defaultLen h;
           qNote := {| num := n; den := d |}; qBpm := b |}
    | None =>
        match match_number qraw with
        | Some b =>
            {| defaultLen := defaultLen h;
               qNote := {| num := 1; den := 4 |}; qBpm := b |}
        | None => h
        end
    end
  else h.

Definition read_header (h : headers) (ln : jsstring) : headers :=
  read_tempo (read_length h ln) ln.

(** [for (const ln of lines) { ... }] *)
Definition read_headers (lines : list jsstring) : headers :=
  fold_left read_header lines default_headers.

(** [lines.filter(l => !/^[A-Z]:/.test(l.trim())).join(' ')] *)
Definition content_of (lines : list jsstring) : jsstring :=
  join_space (List.filter (fun l => negb (is_field_line (trim l))) lines).

(** ** Tokens: [tokenRe] *)

(** [[_=^]] *)
Definition is_accidental (c : N) : bool :=
  (c =? ch "_")%N || (c =? ch "=")%N || (c =? ch "^")%N.

(** [[A-Ga-g]] *)
Definition is_pitch (c : N) : bool := in_range 65 71 c || in_range 97 103 c.

(** [[',]] *)
Definition is_octave_mark (c : N) : bool :=
  (c =? ch "'")%N || (c =? ch ",")%N.

Definition is_slash (c : N) : bool := (c =? ch "/")%N.

(** The four groups of one match. *)
Record token : Type := {
  accidental : jsstring;
  letter : N;
  octMods : jsstring;
  durTok : jsstring
}.

Definition token_length (t : token) : nat :=
  length (accidental t) + 1 + length (octMods t) + length (durTok t).

(** [([_=^]{1,2}|=)?([A-Ga-g])] at the head of [s]: two accidentals and a
    pitch letter, else one accidental and a pitch letter, else a pitch
    letter alone.  Gives the accidental, the letter and the rest. *)
Definition pitch_at (s : jsstring) : option (jsstring * N * jsstring) :=
  match s with
  | a :: b :: l :: r =>
      if is_accidental a && is_accidental b && is_pitch l
      then Some ([a; b], l, r)
      else if is_accidental a && is_pitch b then Some ([a], b, l :: r)
      else if is_pitch a then Some ([], a, b :: l :: r)
      else None
  | [a; b] =>
      if is_accidental a && is_pitch b then Some ([a], b, [])
      else if is_pitch a then Some ([], a, [b])
      else None
  | [a] => if is_pitch a then Some ([], a, []) else None
  | [] => None
  end.

(** [(\d+(?:\/\d+)?|\/\d+|\/+)?] at the head of [s]: the text of the group,
    empty when no alternative matches. *)
Definition duration_at (s : jsstring) : jsstring :=
  match digits s with
  | Some (n, r) =>
      match r with
      | c :: r' =>
          if is_slash c then
            match digits r' with
            | Some (d, _) => n ++ c :: d
            | None => n
            end
          else n
      | [] => n
      end
  | None =>
      match s with
      | c :: r' =>
          if is_slash c then
            match digits r' with
            | Some (d, _) => c :: d
            | None => take_while is_slash s
            end
          else []
      | [] => []
      end
  end.

(** One match of [tokenRe] anchored at the head of [s]. *)
Definition token_at (s : jsstring) : option token :=
  match pitch_at s with
  | Some (acc, l, r) =>
      let oct := take_while is_octave_mark r in
      Some {| accidental := acc; letter := l; octMods := oct;
              durTok := duration_at (drop_while is_octave_mark r) |}
  | None => None
  end.

(** ** Notes *)

Record note : Type := { midi : Z; seconds : number }.

(** [baseMidi[letter.toUpperCase()]] *)
Definition to_upper (c : N) : N := if in_range 97 122 c then (c - 32)%N else c.
Definition to_lower (c : N) : N := if in_range 65 90 c then (c + 32)%N else c.

Definition baseMidi (c : N) : option Z :=
  if (c =? ch "C")%N then Some 60%Z
  else if (c =? ch "D")%N then Some 62%Z
  else if (c =? ch "E")%N then Some 64%Z
  else if (c =? ch "F")%N then Some 65%Z
  else if (c =? ch "G")%N then Some 67%Z
  else if (c =? ch "A")%N then Some 69%Z
  else if (c =? ch "B")%N then Some 71%Z
  else None.

(** [/^(\d+)(?:\/(\d+))?$/]: the whole token is an integer, or an integer,
    a slash and an integer. *)
Definition int_or_fraction (tok : jsstring) : option (N * option N) :=
  match digits tok with
  | Some (n, []) => Some (parseInt n, None)
  | Some (n, c :: r) =>
      if is_slash c then
        match digits r with
        | Some (d, []) => Some (parseInt n, Some (parseInt d))
        | _ => None
        end
      else None
  | None => None
  end.

(** [durationFromToken(tok)], closed over the header values. *)
Definition durationFromToken (h : headers) (tok : jsstring) : number :=
  match tok with
  | [] => Fin (3 # 10)
  | _ :: _ =>
      if bool_decide (tok = [ch "/"]) then Fin (15 # 100)
      else if forallb is_slash tok
      then div (Fin (15 # 100)) (of_nat (length tok))
      else
        match int_or_fraction tok with
        | None => Fin (3 # 10)
        | Some (n, d) =>
            let frac := div (of_N n) (from_option of_N (Fin 1) d) in
            let base := div (of_N (num (defaultLen h)))
                            (of_N (den (defaultLen h))) in
            let qFraction := div (of_N (num (qNote h)))
                                 (of_N (den (qNote h))) in
            let secPerQNote :=
              div (Fin 60) (max (Fin 30) (min (Fin 300) (of_N (qBpm h)))) in
            let secPerWhole := mul (div (Fin 1) qFraction) secPerQNote in
            max (Fin (8 # 100))
                (min (Fin (3 # 2)) (mul (mul secPerWhole base) frac))
        end
  end.

(** The body of the [while] loop for one match. *)
Definition note_of_token (h : headers) (t : token) : option note :=
  match baseMidi (to_upper (letter t)) with
  | None => None
  | Some base =>
      let isLower := (letter t =? to_lower (letter t))%N in
      let m0 := (base + (if isLower then 12 else 0))%Z in
      let m1 :=
        fold_left (fun m c => if (c =? ch "'")%N then (m + 12)%Z
                              else if (c =? ch ",")%N then (m - 12)%Z
                              else m) (octMods t) m0 in
      let acc := accidental t in
      let m2 :=
        if bool_decide (acc = of_string "^") then (m1 + 1)%Z
        else if bool_decide (acc = of_string "^^") then (m1 + 2)%Z
        else if bool_decide (acc = of_string "_") then (m1 - 1)%Z
        else if bool_decide (acc = of_string "__") then (m1 - 2)%Z
        else m1 in
      Some {| midi := m2; seconds := durationFromToken h (durTok t) |}
  end.

(** [while ((m = tokenRe.exec(content)) !== null) { ... }].  The expression
    is global, so each search resumes at [lastIndex], the end of the previous
    match; [skip] counts the code units of the current match that are still
    to be passed over. *)
Fixpoint scan (h : headers) (skip : nat) (s : jsstring) : list note :=
  match s with
  | [] => []
  | _ :: r =>
      match skip with
      | S k => scan h k r
      | O =>
          match token_at s with
          | Some t =>
              match note_of_token h t with
              | Some n => n :: scan h (token_length t - 1) r
              | None => scan h (token_length t - 1) r
              end
          | None => scan h 0 r
          end
      end
  end.

Definition parseAbcSimple (abcText : jsstring) : list note :=
  let lines := split_lines abcText in
  scan (read_headers lines) 0 (content_of lines).

(** [parseAbcToNotes]: the simple parser's result, or the empty list. *)
Definition parseAbcToNotes (abcText : jsstring) : list note :=
  match parseAbcSimple abcText with
  | [] => []
  | simple => simple
  end.

(** ** Headers the loop cannot use *)

(** No line that starts with [L:] yields a match of the length pattern: the
    header is absent, or what follows [L:] holds no [digits/digits]. *)
Definition length_unusable (lines : list jsstring) : bool :=
  forallb (fun ln =>
    negb (starts_with (of_string "L:") ln)
    || bool_decide (match_length (trim (drop 2 ln)) = None)) lines.

(** No line that starts with [Q:] yields a match of either tempo pattern. *)
Definition tempo_unusable (lines : list jsstring) : bool :=
  forallb (fun ln =>
    negb (starts_with (of_string "Q:") ln)
    || bool_decide (match_tempo (trim (drop 2 ln)) = None)
       && bool_decide (match_number (trim (drop 2 ln)) = None)) lines.

(** The same, read off the text.  The length pattern finds a match exactly
    when a digit, a slash and a digit stand in a row somewhere; one of the
    two tempo patterns does exactly when there is a digit. *)
Definition fraction_here (s : jsstring) : bool :=
  match s with
  | a :: b :: c :: _ => is_digit a && is_slash b && is_digit c
  | _ => false
  end.

Fixpoint has_fraction (s : jsstring) : bool :=
  match s with
  | [] => false
  | _ :: r => fraction_here s || has_fraction r
  end.

Definition has_digit (s : jsstring) : bool := existsb is_digit s.

(** No line that starts with [L:] goes on with a fraction. *)
Definition no_length_given (lines : list jsstring) : bool :=
  forallb (fun ln =>
    negb (starts_with (of_string "L:") ln)
    || negb (has_fraction (trim (drop 2 ln)))) lines.

(** No line that starts with [Q:] goes on with a digit. *)
Definition no_tempo_given (lines : list jsstring) : bool :=
  forallb (fun ln =>
    negb (starts_with (of_string "Q:") ln)
    || negb (has_digit (trim (drop 2 ln)))) lines.

(** What the clamp of [durationFromToken] lets through: a duration in
    (0, 1.5], or NaN. *)
Definition renderable (a : number) : Prop :=
  a = NaN \/ bounded_positive (3 # 2) a.

(** ** Numbers the model reads as the code does *)

(** [Number.MAX_SAFE_INTEGER], 2^53 - 1.  Up to it the double that
    [parseInt] returns is the integer written, and the few products and
    quotients [durationFromToken] forms of such integers stay inside the
    range of a double, so that the exact arithmetic of the model and the
    doubles of the code agree on what is zero, finite or NaN. *)
Definition MAX_SAFE_INTEGER : N := 9007199254740991.

Definition is_safe (n : N) : bool := (n <=? MAX_SAFE_INTEGER)%N.

(** The numbers of the [L:] and [Q:] headers are safe integers.  The beats
    per minute need no bound: they are clamped to 30..300 before use. *)
Definition safe_headers (h : headers) : bool :=
  is_safe (num (defaultLen h)) && is_safe (den (defaultLen h))
  && is_safe (num (qNote h)) && is_safe (den (qNote h)).

(** The numbers of a duration suffix are safe integers. *)
Definition safe_token (tok : jsstring) : bool :=
  match int_or_fraction tok with
  | Some (n, d) => is_safe n && from_option is_safe true d
  | None => true
  end.

End Abc.

(* ===================================================================== *)
(** * The step player and the sounds: SymphonyPlayer.js, playPopSound *)
(* ===================================================================== *)

Module Symphony.
Import JsNum Text Abc.

(** ** The page: audio contexts, the player singleton, the pop sound refs *)

(** [AudioContext.state] *)
Inductive ctx_state : Type := Running | Suspended | Closed.

#[global] Instance ctx_state_eq_dec : EqDecision ctx_state.
Proof. solve_decision. Defined.

(** Audio contexts are objects shared by reference: the player, the bubble
    component and [window.__heartbeatAudioContext] may all hold the same one.
    A reference is an index into [contexts].  [ctor_queue] lists what the
    next calls of [new Ctx()] will do: [Some s] yields a context in state
    [s], [None] (or an exhausted list) stands for a constructor that is
    missing or throws. *)
Record browser : Type := {
  has_window : bool;
  heartbeatAudioContext : option nat;
  contexts : list ctx_state;
  ctor_queue : list (option ctx_state)
}.

(** The module-level [state] object of SymphonyPlayer.js.  [piano] records
    whether an instrument is loaded; a gain node is represented by its gain
    value and the convolver by its presence. *)
Record state : Type := {
  audioContext : option nat;
  volume : Q;
  notes : list note;
  cursor : nat;
  currentSong : option jsstring;
  piano : bool;
  masterGain : option Q;
  dryGain : option Q;
  wetGain : option Q;
  convolver : bool
}.

Definition initial_state : state :=
  {| audioContext := None; volume := 25 # 100; notes := []; cursor := 0;
     currentSong := None; piano := false;
     masterGain := None; dryGain := None; wetGain := None;
     convolver := false |}.

(** The refs of one BubbleAnimation component. *)
Record pop_refs : Type := {
  audioContextRef : option nat;
  soundRef : bool
}.

(** What reaches the loudspeaker. *)
Inductive sound : Type :=
  | PianoNote (midi : Z) (dur : number)
  | SineTone (midi : Z) (len : number)
  | PopSweep
  | PopFile.

Record world : Type := {
  player : state;
  pop : pop_refs;
  win : browser;
  out : list sound
}.

Definition initial_world (b : browser) : world :=
  {| player := initial_state;
     pop := {| audioContextRef := None; soundRef := false |};
     win := b; out := [] |}.

(** What the surroundings answer during one call. *)
Record env : Type := {
  resume_ok : bool;            (* [ctx.resume()] succeeds *)
  piano_loads : bool;          (* [Soundfont.instrument] resolves *)
  piano_plays : bool;          (* the soundfont path raises nothing *)
  song_text : option jsstring; (* the fetched tune; [None]: request failed *)
  audio_element_ok : bool;     (* [new Audio(...)] and [play()] raise nothing *)
  reverbEnabled : bool;        (* eventmobi_reverb_enabled *)
  reverbWet : Q                (* eventmobi_reverb_wet, clamped to [0,1] *)
}.

(** ** Calls that may raise: a state monad with exceptions *)

(** A raised exception keeps the writes made before it.  An [async]
    function is one call: its body runs in one piece, and a promise it
    rejects is [Throw]. *)
Inductive result (A : Type) : Type :=
  | Ok (a : A)
  | Throw.
Arguments Ok {A} a.
Arguments Throw {A}.

Definition M (A : Type) : Type := world -> result A * world.

#[global] Instance M_ret : MRet M := fun A a w => (Ok a, w).
#[global] Instance M_bind : MBind M := fun A B f m w =>
  match m w with
  | (Ok a, w') => f a w'
  | (Throw, w') => (Throw, w')
  end.

Definition throw {A} : M A := fun w => (Throw, w).

(** [try { m } catch { h }] *)
Definition try_catch {A} (m h : M A) : M A := fun w =>
  match m w with
  | (Ok a, w') => (Ok a, w')
  | (Throw, w') => h w'
  end.

Definition get_player : M state := fun w => (Ok (player w), w).
Definition get_pop : M pop_refs := fun w => (Ok (pop w), w).
Definition get_win : M browser := fun w => (Ok (win w), w).

Definition modify_player (f : state -> state) : M unit := fun w =>
  (Ok (), {| player := f (player w); pop := pop w; win := win w;
             out := out w |}).
Definition modify_pop (f : pop_refs -> pop_refs) : M unit := fun w =>
  (Ok (), {| player := player w; pop := f (pop w); win := win w;
             out := out w |}).
Definition modify_win (f : browser -> browser) : M unit := fun w =>
  (Ok (), {| player := player w; pop := pop w; win := f (win w);
             out := out w |}).
Definition emit (s : sound) : M unit := fun w =>
  (Ok (), {| player := player w; pop := pop w; win := win w;
             out := out w ++ [s] |}).

(** Field writes of [state]. *)
Definition set_audioContext (c : option nat) (s : state) : state :=
  {| audioContext := c; volume := volume s; notes := notes s;
     cursor := cursor s; currentSong := currentSong s; piano := piano s;
     masterGain := masterGain s; dryGain := dryGain s; wetGain := wetGain s;
     convolver := convolver s |}.
Definition set_volume (v : Q) (s : state) : state :=
  {| audioContext := audioContext s; volume := v; notes := notes s;
     cursor := cursor s; currentSong := currentSong s; piano := piano s;
     masterGain := masterGain s; dryGain := dryGain s; wetGain := wetGain s;
     convolver := convolver s |}.
Definition set_notes (ns : list note) (s : state) : state :=
  {| audioContext := audioContext s; volume := volume s; notes := ns;
     cursor := cursor s; currentSong := currentSong s; piano := piano s;
     masterGain := masterGain s; dryGain := dryGain s; wetGain := wetGain s;
     convolver := convolver s |}.
Definition set_cursor (c : nat) (s : state) : state :=
  {| audioContext := audioContext s; volume := volume s; notes := notes s;
     cursor := c; currentSong := currentSong s; piano := piano s;
     masterGain := masterGain s; dryGain := dryGain s; wetGain := wetGain s;
     convolver := convolver s |}.
Definition set_currentSong (f : option jsstring) (s : state) : state :=
  {| audioContext := audioContext s; volume := volume s; notes := notes s;
     cursor := cursor s; currentSong := f; piano := piano s;
     masterGain := masterGain s; dryGain := dryGain s; wetGain := wetGain s;
     convolver := convolver s |}.
Definition set_piano (p : bool) (s : state) : state :=
  {| audioContext := audioContext s; volume := volume s; notes := notes s;
     cursor := cursor s; currentSong := currentSong s; piano := p;
     masterGain := masterGain s; dryGain := dryGain s; wetGain := wetGain s;
     convolver := convolver s |}.
Definition set_masterGain (g : option Q) (s : state) : state :=
  {| audioContext := audioContext s; volume := volume s; notes := notes s;
     cursor := cursor s; currentSong := currentSong s; piano := piano s;
     masterGain := g; dryGain := dryGain s; wetGain := wetGain s;
     convolver := convolver s |}.
Definition set_dryGain (g : option Q) (s : state) : state :=
  {| audioContext := audioContext s; volume := volume s; notes := notes s;
     cursor := cursor s; currentSong := currentSong s; piano := piano s;
     masterGain := masterGain s; dryGain := g; wetGain := wetGain s;
     convolver := convolver s |}.
Definition set_wetGain (g : option Q) (s : state) : state :=
  {| audioContext := audioContext s; volume := volume s; notes := notes s;
     cursor := cursor s; currentSong := currentSong s; piano := piano s;
     masterGain := masterGain s; dryGain := dryGain s; wetGain := g;
     convolver := convolver s |}.
Definition set_convolver (c : bool) (s : state) : state :=
  {| audioContext := audioContext s; volume := volume s; notes := notes s;
     cursor := cursor s; currentSong := currentSong s; piano := piano s;
     masterGain := masterGain s; dryGain := dryGain s; wetGain := wetGain s;
     convolver := c |}.

(** ** Audio contexts *)

(** [ctx.state].  A reference always points at a live object; the default
    only makes the lookup total. *)
Definition state_of (b : browser) (c : nat) : ctx_state :=
  default Closed (contexts b !! c).

(** [new Ctx()] inside its [try]: the new reference, or [None] when the
    constructor raised. *)
Definition construct_context : M (option nat) :=
  b ← get_win;
  match ctor_queue b with
  | Some s :: q =>
      let c := length (contexts b) in
      modify_win (fun _ =>
        {| has_window := has_window b; heartbeatAudioContext := Some c;
           contexts := contexts b ++ [s]; ctor_queue := q |});;
      mret (Some c)
  | None :: q =>
      modify_win (fun _ =>
        {| has_window := has_window b;
           heartbeatAudioContext := heartbeatAudioContext b;
           contexts := contexts b; ctor_queue := q |});;
      mret None
  | [] => mret None
  end.

(** [getOrCreateAudioContext()], the same function in both files. *)
Definition getOrCreateAudioContext : M (option nat) :=
  b ← get_win;
  if negb (has_window b) then mret None
  else
    match heartbeatAudioContext b with
    | Some c =>
        if bool_decide (state_of b c ≠ Closed) then mret (Some c)
        else construct_context
    | None => construct_context
    end.

(** [ctx.resume()] where the caller ignores a failure. *)
Definition resume (e : env) (c : nat) : M unit :=
  if resume_ok e then
    modify_win (fun b =>
      {| has_window := has_window b;
         heartbeatAudioContext := heartbeatAudioContext b;
         contexts := <[c := Running]> (contexts b);
         ctor_queue := ctor_queue b |})
  else mret ().

(** [if (ctx.state === 'suspended') { try { ctx.resume(); } catch {} }] *)
Definition resume_if_suspended (e : env) (c : nat) : M unit :=
  b ← get_win;
  if bool_decide (state_of b c = Suspended) then resume e c else mret ().

(** A method call on [ctx]: a TypeError when [ctx] is [null]. *)
Definition on_ctx (ctx : option nat) (m : M unit) : M unit :=
  match ctx with
  | Some _ => m
  | None => throw
  end.

(** [ensureFxChain(ctx)] *)
Definition ensureFxChain (ctx : option nat) : M unit :=
  s ← get_player;
  (if masterGain s is None
   then on_ctx ctx (modify_player (set_masterGain (Some 1%Q)))
   else mret ());;
  s ← get_player;
  (if dryGain s is None
   then on_ctx ctx (modify_player (set_dryGain (Some 1%Q)))
   else mret ());;
  s ← get_player;
  (if wetGain s is None
   then on_ctx ctx (modify_player (set_wetGain (Some 0%Q)))
   else mret ());;
  s ← get_player;
  if convolver s then mret ()
  else on_ctx ctx (modify_player (set_convolver true)).

(** [applyFxSettingsFromStorage()] *)
Definition applyFxSettingsFromStorage (e : env) : M unit :=
  modify_player (fun s =>
    match wetGain s with
    | Some _ =>
        set_wetGain (Some (if reverbEnabled e then reverbWet e else 0%Q)) s
    | None => s
    end).

(** ** The sounds *)

(** [Math.max(0.1, Math.min(1.0, durationSec || 0.3))] *)
Definition tone_length (durationSec : number) : number :=
  max (Fin (1 # 10)) (min (Fin 1) (or_else durationSec (Fin (3 # 10)))).

(** [Math.max(0.1, seconds || 0.3)] *)
Definition piano_dur (seconds : number) : number :=
  max (Fin (1 # 10)) (or_else seconds (Fin (3 # 10))).

(** [oscillator.frequency.value = midiToFreq(midi)], where [midiToFreq(midi)]
    is [440 * Math.pow(2, (midi - 69) / 12)].  The attribute is a Web IDL
    [float]: the write raises a TypeError when the number rounds to 2^128 as
    a single-precision value, that is from 2^128 - 2^103 on (an overflow of
    [Math.pow] to [Infinity] included).  The power has no rational value, so
    the comparison is made on twelfth powers, where it is exact:
    440 * 2^((midi - 69) / 12) < L  iff  440^12 * 2^(midi - 69) < L^12.
    No integer pitch comes nearer to the limit than two per cent (1499 is
    below it, 1500 above), far more than the rounding of [Math.pow]. *)
Definition FLOAT_LIMIT : Z := 2 ^ 128 - 2 ^ 103.

Definition frequency_fits (midi : Z) : bool :=
  (midi <=? 69)%Z || (440 ^ 12 * 2 ^ (midi - 69) <? FLOAT_LIMIT ^ 12)%Z.

Definition set_frequency (midi : Z) : M unit :=
  if frequency_fits midi then mret () else throw.

(** [playTone(midi, durationSec)].  Nothing in it is inside a [try] but the
    call of [resume]. *)
Definition playTone (e : env) (midi : Z) (durationSec : number) : M unit :=
  s ← get_player;
  ctx ← (match audioContext s with
         | Some c => mret (Some c)
         | None => getOrCreateAudioContext
         end);
  match ctx with
  | None => mret ()
  | Some c =>
      modify_player (set_audioContext (Some c));;
      resume_if_suspended e c;;
      set_frequency midi;;
      emit (SineTone midi (tone_length durationSec))
  end.

(** [SymphonyPlayer.playNextNote()].  Every note of [state.notes] comes from
    the parser, so [typeof midi === 'number'] holds. *)
Definition playNextNote (e : env) : M unit :=
  s ← get_player;
  if bool_decide (length (notes s) = 0) then mret ()
  else
    let idx := cursor s mod length (notes s) in
    match notes s !! idx with
    | None => throw
    | Some n =>
      modify_player (set_cursor ((idx + 1) mod length (notes s)));;
      ctx ← (match audioContext s with
             | Some c => mret (Some c)
             | None => getOrCreateAudioContext
             end);
      modify_player (set_audioContext ctx);;
      (if ctx is Some c then resume_if_suspended e c else mret ());;
      ensureFxChain ctx;;
      applyFxSettingsFromStorage e;;
      s' ← get_player;
      let fallback := playTone e (midi n) (or_else (seconds n) (Fin (3 # 10))) in
      if piano s' && bool_decide (is_Some ctx) then
        try_catch
          (if piano_plays e
           then emit (PianoNote (midi n) (piano_dur (seconds n)))
           else throw)
          fallback
      else fallback
  end.

(** [SymphonyPlayer.init(filename)]: [true] when notes were loaded. *)
Definition init (e : env) (filename : jsstring) : M bool :=
  try_catch
    (ctx ← getOrCreateAudioContext;
     modify_player (set_audioContext ctx);;
     ensureFxChain ctx;;
     applyFxSettingsFromStorage e;;
     s ← get_player;
     (if piano s then mret ()
      else modify_player (set_piano (piano_loads e)));;
     abc ← (match song_text e with
            | Some t => mret t
            | None => throw
            end);
     let ns := parseAbcToNotes abc in
     modify_player (set_notes ns);;
     modify_player (set_cursor 0);;
     modify_player (set_currentSong (Some filename));;
     mret (bool_decide (0 < length ns)))
    (modify_player (set_notes []);;
     modify_player (set_cursor 0);;
     mret false).

(** [SymphonyPlayer.setVolume(v)] *)
Definition setVolume (v : Q) : M unit :=
  modify_player (set_volume (Qmax 0 (Qmin 1 v))).

(** [playPopSound()] of BubbleAnimation.jsx. *)
Definition playPopSound (e : env) (soundEnabled : bool) : M unit :=
  if negb soundEnabled then mret ()
  else
    try_catch
      (r ← get_pop;
       ctx ← (match audioContextRef r with
              | Some c => mret (Some c)
              | None => getOrCreateAudioContext
              end);
       match ctx with
       | None => throw
       | Some c =>
           modify_pop (fun r =>
             {| audioContextRef := Some c; soundRef := soundRef r |});;
           resume_if_suspended e c;;
           emit PopSweep
       end)
      (try_catch
         (if audio_element_ok e then
            modify_pop (fun r =>
              {| audioContextRef := audioContextRef r; soundRef := true |});;
            emit PopFile
          else throw)
         (mret ())).

(** ** Runs of the player *)

Definition set_win (b : browser) (w : world) : world :=
  {| player := player w; pop := pop w; win := b; out := out w |}.
Definition set_player (p : state) (w : world) : world :=
  {| player := p; pop := pop w; win := win w; out := out w |}.

(** The four nodes of the effect chain exist. *)
Definition fx_ready (s : state) : Prop :=
  is_Some (masterGain s) /\ is_Some (dryGain s) /\ is_Some (wetGain s)
  /\ convolver s = true.

(** [p] is [s] up to the effect nodes, none of which went away. *)
Record fx_step (s p : state) : Prop := {
  fx_audioContext : audioContext p = audioContext s;
  fx_notes : notes p = notes s;
  fx_cursor : cursor p = cursor s;
  fx_piano : piano p = piano s;
  fx_mono : fx_ready s -> fx_ready p
}.

(** The pitch a sound was started with. *)
Definition sound_midi (s : sound) : option Z :=
  match s with
  | PianoNote m _ | SineTone m _ => Some m
  | PopSweep | PopFile => None
  end.

(** The sounds one call may add for the note [n]: none, or that one note,
    on the piano or as a tone. *)
Definition sounds_for (n : note) (new : list sound) : Prop :=
  new = []
  \/ new = [PianoNote (midi n) (piano_dur (seconds n))]
  \/ new = [SineTone (midi n)
              (tone_length (or_else (seconds n) (Fin (3 # 10))))].

(** The sounds one pop may add: none, the oscillator sweep, or the file. *)
Definition pop_sounds (new : list sound) : Prop :=
  new = [] \/ new = [PopSweep] \/ new = [PopFile].

(** The page after one call of [playNextNote], and after one call for each
    element of [es]. *)
Definition advance (w : world) (e : env) : world := (playNextNote e w).2.
Definition advance_all (es : list env) (w : world) : world :=
  fold_left advance es w.

(** A loaded song comes with its effect chain. *)
Definition chain_ready (w : world) : Prop :=
  notes (player w) <> [] -> fx_ready (player w).

(** What can happen to the page: the exported calls of the player, the pop
    sound of a bubble, and anything the browser does to its contexts. *)
Inductive page_step : world -> world -> Prop :=
  | do_init e f w : page_step w (init e f w).2
  | do_next e w : page_step w (playNextNote e w).2
  | do_volume v w : page_step w (setVolume v w).2
  | do_pop e on w : page_step w (playPopSound e on w).2
  | do_browser b w : page_step w (set_win b w).

Inductive reachable : world -> Prop :=
  | reachable_start b : reachable (initial_world b)
  | reachable_next w w' : reachable w -> page_step w w' -> reachable w'.

End Symphony.

(* ===================================================================== *)
(** * StatsDisplay.jsx *)
(* ===================================================================== *)

Module StatsDisplay.

(** The body of a stats response.  A field the server left out (or sent as
    [null]) is [None]; a field that is present is an integer count. *)
Record stats : Type := {
  total_attendees : option Z;
  event_checkins : option Z;
  session_checkins : option Z
}.

(** [x || 0] on an optional count. *)
Definition or_zero (x : option Z) : Z :=
  match x with
  | Some z => if (z =? 0)%Z then 0%Z else z
  | None => 0%Z
  end.

(** What the three cards show; a badge is the [+n] span. *)
Record cards : Type := {
  attendees_value : Z;
  event_value : Z;
  event_badge : option Z;
  session_value : Z;
  session_badge : option Z
}.

(** [n > 0 && <span className="increment">+{n}</span>] *)
Definition badge (n : Z) : option Z := if (0 <? n)%Z then Some n else None.

(** [StatsDisplay({ stats, sessionIncrement, eventIncrement })] *)
Definition render (s : stats) (sessionIncrement eventIncrement : Z) : cards :=
  {| attendees_value := or_zero (total_attendees s);
     event_value :=
       (or_zero (event_checkins s) + or_zero (Some eventIncrement))%Z;
     event_badge := badge eventIncrement;
     session_value :=
       (or_zero (session_checkins s) + or_zero (Some sessionIncrement))%Z;
     session_badge := badge sessionIncrement |}.

End StatsDisplay.

(* ===================================================================== *)
(** * Dashboard.jsx: socket handlers, counters and the refresh timer *)
(* ===================================================================== *)

Module Dashboard.
Import Text StatsDisplay.

(** ** Values that arrive over the socket *)

(** An identifier as it comes out of JSON or out of local storage. *)
Inductive jsval : Type :=
  | VUndefined
  | VNull
  | VNum (z : Z)
  | VStr (s : jsstring).

(** [String(v)]; numbers are integer ids, printed in decimal as JavaScript
    prints an integer below 10^21 (from there on it switches to exponent
    form, which the model does not follow). *)
Definition String_ (v : jsval) : jsstring :=
  match v with
  | VUndefined => of_string "undefined"
  | VNull => of_string "null"
  | VNum z => of_string (DecimalString.NilZero.string_of_int (Z.to_int z))
  | VStr s => s
  end.

(** A string field is truthy when it is present and not empty. *)
Definition truthy (s : option jsstring) : bool :=
  match s with
  | Some (_ :: _) => true
  | _ => false
  end.

(** The payload of [checkin_event], and the body of the enrichment lookup.
    The [checkin_event] handler reads [data.message] without a guard, so its
    payload is an object. *)
Record checkin : Type := {
  message : option jsstring;
  event_type : option jsstring;
  checkin_type : option jsstring;
  session_id : option jsstring
}.

(** The payload of [checkin_poke]; [resource_ids] is [None] when the field is
    not an array. *)
Record poke : Type := {
  event_id : jsval;
  resource_ids : option (list jsval)
}.

(** The object handed to [setCurrentBubbleMessage]. *)
Record bubble_message : Type := {
  text : jsstring;
  id : Z;
  timestamp : N;
  bm_event_type : jsstring
}.

(** ** Timers and outbound calls *)

Inductive action : Type :=
  | Refresh       (* fetchStats(); fetchActiveSessions(); ref = null *)
  | ClearRecent   (* setRecentCheckinSessionId(null) *)
  | RetryStats.   (* fetchStats(signal) after a failed fetch *)

#[global] Instance action_eq_dec : EqDecision action.
Proof. solve_decision. Defined.

(** A pending [setTimeout]: its id, the time it is due (ms) and what it
    runs. *)
Record timer : Type := { tid : nat; due : N; act : action }.

Inductive effect : Type :=
  | FetchStats (at_ms : N)
  | FetchActiveSessions (at_ms : N)
  | FetchCheckinMessage (resource : jsval)
  | PlayNextNote.

(** ** The component state *)

(** What the handlers' closure captured when the effect ran. *)
Record config : Type := {
  currentEventId : jsval;
  soundEnabled : bool;
  soundMode : jsstring
}.

(** The [useState] cells the handlers write. *)
Record view : Type := {
  stats_ : stats;
  sessionIncrement : Z;
  eventIncrement : Z;
  currentBubbleMessage : option bubble_message;
  recentCheckinSessionId : option jsstring;
  error : jsstring
}.

(** [messageCounterRef], [pendingStatsRefreshRef], the browser's timer table
    and clock, and the outbound calls made so far.  Timer ids are positive,
    as in a browser, so an id is always truthy. *)
Record dash : Type := {
  cfg : config;
  ui : view;
  messageCounter : Z;
  pendingStatsRefresh : option nat;
  timers : list timer;
  next_timer : nat;
  now : N;
  effects : list effect
}.

Definition initial_view : view :=
  {| stats_ := {| total_attendees := Some 0%Z; event_checkins := Some 0%Z;
                  session_checkins := Some 0%Z |};
     sessionIncrement := 0; eventIncrement := 0;
     currentBubbleMessage := None; recentCheckinSessionId := None;
     error := [] |}.

Definition initial (c : config) (t0 : N) : dash :=
  {| cfg := c; ui := initial_view; messageCounter := 0;
     pendingStatsRefresh := None; timers := []; next_timer := 1; now := t0;
     effects := [] |}.

Definition with_ui (f : view -> view) (d : dash) : dash :=
  {| cfg := cfg d; ui := f (ui d); messageCounter := messageCounter d;
     pendingStatsRefresh := pendingStatsRefresh d; timers := timers d;
     next_timer := next_timer d; now := now d; effects := effects d |}.
Definition with_counter (n : Z) (d : dash) : dash :=
  {| cfg := cfg d; ui := ui d; messageCounter := n;
     pendingStatsRefresh := pendingStatsRefresh d; timers := timers d;
     next_timer := next_timer d; now := now d; effects := effects d |}.
Definition with_pending (p : option nat) (d : dash) : dash :=
  {| cfg := cfg d; ui := ui d; messageCounter := messageCounter d;
     pendingStatsRefresh := p; timers := timers d;
     next_timer := next_timer d; now := now d; effects := effects d |}.
Definition with_timers (ts : list timer) (d : dash) : dash :=
  {| cfg := cfg d; ui := ui d; messageCounter := messageCounter d;
     pendingStatsRefresh := pendingStatsRefresh d; timers := ts;
     next_timer := next_timer d; now := now d; effects := effects d |}.
Definition with_next_timer (n : nat) (d : dash) : dash :=
  {| cfg := cfg d; ui := ui d; messageCounter := messageCounter d;
     pendingStatsRefresh := pendingStatsRefresh d; timers := timers d;
     next_timer := n; now := now d; effects := effects d |}.
Definition with_now (t : N) (d : dash) : dash :=
  {| cfg := cfg d; ui := ui d; messageCounter := messageCounter d;
     pendingStatsRefresh := pendingStatsRefresh d; timers := timers d;
     next_timer := next_timer d; now := t; effects := effects d |}.
Definition perform (e : effect) (d : dash) : dash :=
  {| cfg := cfg d; ui := ui d; messageCounter := messageCounter d;
     pendingStatsRefresh := pendingStatsRefresh d; timers := timers d;
     next_timer := next_timer d; now := now d;
     effects := effects d ++ [e] |}.

(** The [useState] setters. *)
Definition setStats (s : stats) (v : view) : view :=
  {| stats_ := s; sessionIncrement := sessionIncrement v;
     eventIncrement := eventIncrement v;
     currentBubbleMessage := currentBubbleMessage v;
     recentCheckinSessionId := recentCheckinSessionId v; error := error v |}.
Definition setSessionIncrement (f : Z -> Z) (v : view) : view :=
  {| stats_ := stats_ v; sessionIncrement := f (sessionIncrement v);
     eventIncrement := eventIncrement v;
     currentBubbleMessage := currentBubbleMessage v;
     recentCheckinSessionId := recentCheckinSessionId v; error := error v |}.
Definition setEventIncrement (f : Z -> Z) (v : view) : view :=
  {| stats_ := stats_ v; sessionIncrement := sessionIncrement v;
     eventIncrement := f (eventIncrement v);
     currentBubbleMessage := currentBubbleMessage v;
     recentCheckinSessionId := recentCheckinSessionId v; error := error v |}.
Definition setCurrentBubbleMessage (m : option bubble_message) (v : view)
  : view :=
  {| stats_ := stats_ v; sessionIncrement := sessionIncrement v;
     eventIncrement := eventIncrement v; currentBubbleMessage := m;
     recentCheckinSessionId := recentCheckinSessionId v; error := error v |}.
Definition setRecentCheckinSessionId (s : option jsstring) (v : view) : view :=
  {| stats_ := stats_ v; sessionIncrement := sessionIncrement v;
     eventIncrement := eventIncrement v;
     currentBubbleMessage := currentBubbleMessage v;
     recentCheckinSessionId := s; error := error v |}.
Definition setError (e : jsstring) (v : view) : view :=
  {| stats_ := stats_ v; sessionIncrement := sessionIncrement v;
     eventIncrement := eventIncrement v;
     currentBubbleMessage := currentBubbleMessage v;
     recentCheckinSessionId := recentCheckinSessionId v; error := e |}.

(** [setTimeout(act, delay)]: the id of the new timer and the state. *)
Definition setTimeout (a : action) (delay : N) (d : dash) : nat * dash :=
  (next_timer d,
   with_next_timer (S (next_timer d))
     (with_timers
        (timers d ++ [{| tid := next_timer d; due := (now d + delay)%N;
                         act := a |}]) d)).

(** [clearTimeout(id)] *)
Definition clearTimeout (i : nat) (d : dash) : dash :=
  with_timers (List.filter (fun t => negb (tid t =? i)) (timers d)) d.

(** ** The stats fetch *)

Inductive fetch_outcome : Type :=
  | Fetched (data : stats)
  | Failed (msg : jsstring)
  | Aborted.

(** How [fetchStats] ends.  The three writes of the success path are applied
    together. *)
Definition fetchStats_done (r : fetch_outcome) (d : dash) : dash :=
  match r with
  | Fetched data =>
      with_ui (fun v =>
        setError [] (setSessionIncrement (fun _ => 0%Z)
          (setEventIncrement (fun _ => 0%Z) (setStats data v)))) d
  | Failed msg =>
      snd (setTimeout RetryStats 5000
             (with_ui (setError (of_string "Error loading stats: " ++ msg)) d))
  | Aborted => d
  end.

(** What the dashboard passes to [StatsDisplay]. *)
Definition shown (d : dash) : cards :=
  render (stats_ (ui d)) (sessionIncrement (ui d)) (eventIncrement (ui d)).

(** ** The socket handlers *)

(** The shared part of both handlers: count the check-in by its type. *)
Definition count_checkin (c : checkin) (d : dash) : dash :=
  if bool_decide (checkin_type c = Some (of_string "event")) then
    with_ui (setEventIncrement (fun prev => (prev + 1)%Z)) d
  else if bool_decide (checkin_type c = Some (of_string "session")) then
    let d1 := with_ui (setSessionIncrement (fun prev => (prev + 1)%Z)) d in
    if truthy (session_id c) then
      snd (setTimeout ClearRecent 2000
             (with_ui (setRecentCheckinSessionId (session_id c)) d1))
    else d1
  else d.

(** [setCurrentBubbleMessage({ text, id: ++counter, timestamp, event_type })] *)
Definition show_message (c : checkin) (d : dash) : dash :=
  let n := (messageCounter d + 1)%Z in
  with_ui
    (setCurrentBubbleMessage
       (Some {| text := default [] (message c); id := n; timestamp := now d;
                bm_event_type :=
                  if truthy (event_type c) then default [] (event_type c)
                  else of_string "checkin" |}))
    (with_counter n d).

Definition symphony_on (d : dash) : bool :=
  soundEnabled (cfg d) && bool_decide (soundMode (cfg d) = of_string "Symphony").

(** The two debounce windows (ms). *)
Definition CHECKIN_DEBOUNCE : N := 10000.
Definition POKE_DEBOUNCE : N := 3000.

(** The debounce: clear the pending timer, if any, and arm a new one. *)
Definition schedule_refresh (window : N) (d : dash) : dash :=
  let d1 := match pendingStatsRefresh d with
            | Some i => clearTimeout i d
            | None => d
            end in
  let '(i, d2) := setTimeout Refresh window d1 in
  with_pending (Some i) d2.

(** [socket.on('checkin_event', (data) => { ... })] *)
Definition on_checkin_event (data : checkin) (d : dash) : dash :=
  let d1 := if truthy (message data) then show_message data d else d in
  let d2 := if bool_decide (event_type data = Some (of_string "checkin"))
            then count_checkin data d1 else d1 in
  let d3 := if symphony_on d2 then perform PlayNextNote d2 else d2 in
  schedule_refresh CHECKIN_DEBOUNCE d3.

(** [socket.on('checkin_poke', (data) => { ... })] up to the lookup request;
    the reply is handled by [on_checkin_message]. *)
Definition on_checkin_poke (data : option poke) (d : dash) : dash :=
  match data with
  | None => d
  | Some p =>
      if bool_decide (String_ (event_id p) ≠ String_ (currentEventId (cfg d)))
      then d
      else
        let d1 := match default [] (resource_ids p) with
                  | r :: _ => perform (FetchCheckinMessage r) d
                  | [] => d
                  end in
        schedule_refresh POKE_DEBOUNCE d1
  end.

(** The [.then(msg => ...)] of the lookup; [None] is a failed lookup, which
    the [.catch] swallows. *)
Definition on_checkin_message (reply : option checkin) (d : dash) : dash :=
  match reply with
  | Some msg =>
      if truthy (message msg) then
        let d1 := count_checkin msg (show_message msg d) in
        if symphony_on d1 then perform PlayNextNote d1 else d1
      else d
  | None => d
  end.

(** ** Time *)

(** What a timer runs when it fires. *)
Definition run (a : action) (d : dash) : dash :=
  match a with
  | Refresh =>
      with_pending None
        (perform (FetchActiveSessions (now d)) (perform (FetchStats (now d)) d))
  | ClearRecent => with_ui (setRecentCheckinSessionId None) d
  | RetryStats => perform (FetchStats (now d)) d
  end.

(** The timer that fires next: the earliest due, the older one on a tie. *)
Fixpoint earliest (ts : list timer) : option timer :=
  match ts with
  | [] => None
  | t :: r =>
      match earliest r with
      | Some u => if (due u <? due t)%N then Some u else Some t
      | None => Some t
      end
  end.

(** Fire one timer: it leaves the table, the clock stands at its due time. *)
Definition fire (t : timer) (d : dash) : dash :=
  run (act t) (with_now (N.max (now d) (due t)) (clearTimeout (tid t) d)).

(** Fire, in order, the timers that are due by [t].  No timer callback of
    the dashboard sets a timer, so one round per pending timer is enough. *)
Fixpoint fire_due (rounds : nat) (t : N) (d : dash) : dash :=
  match rounds with
  | O => d
  | S k =>
      match earliest (timers d) with
      | Some tm => if (due tm <=? t)%N then fire_due k t (fire tm d) else d
      | None => d
      end
  end.

(** Let the clock run to [t]. *)
Definition advance (t : N) (d : dash) : dash :=
  let d' := fire_due (length (timers d)) t d in
  with_now (N.max (now d') t) d'.

(** A burst of [checkin_event]s, each with its arrival time. *)
Definition receive (d : dash) (ev : N * checkin) : dash :=
  on_checkin_event (snd ev) (advance (fst ev) d).

Definition receive_all (evs : list (N * checkin)) (d : dash) : dash :=
  fold_left receive evs d.

(** The times at which the stats fetch went out. *)
Definition stats_fetches (d : dash) : list N :=
  omap (fun e => match e with FetchStats t => Some t | _ => None end)
       (effects d).

(** ** Bursts *)

Definition is_refresh (t : timer) : bool := bool_decide (act t = Refresh).

(** Timer ids are fresh and distinct, a pending refresh timer is the one
    [pendingStatsRefreshRef] names, and no stats retry is waiting. *)
Definition tidy (d : dash) : Prop :=
  NoDup (map tid (timers d))
  /\ Forall (fun tm =>
       tid tm < next_timer d
       /\ (act tm = ClearRecent
           \/ act tm = Refresh /\ pendingStatsRefresh d = Some (tid tm)))
     (timers d).

(** Exactly one refresh is armed, a full window after [t], and the stats
    fetches so far are [log]. *)
Definition armed (d : dash) (t : N) (log : list N) : Prop :=
  tidy d /\ now d = t /\ stats_fetches d = log
  /\ exists j, pendingStatsRefresh d = Some j
       /\ List.filter is_refresh (timers d)
          = [{| tid := j; due := (t + CHECKIN_DEBOUNCE)%N; act := Refresh |}].

(** Arrival times that follow [t], each less than a window after the one
    before. *)
Fixpoint burst (t : N) (evs : list (N * checkin)) : Prop :=
  match evs with
  | [] => True
  | ev :: r => (t <= fst ev < t + CHECKIN_DEBOUNCE)%N /\ burst (fst ev) r
  end.

(** The last arrival time of a burst that starts at [t]. *)
Definition last_arrival (t : N) (evs : list (N * checkin)) : N :=
  default t (last (map fst evs)).

End Dashboard.

(* ===================================================================== *)
(** * BubbleAnimation.jsx: the message queue and the bubble list *)
(* ===================================================================== *)

Module Bubbles.
Import Text.

Definition MAX_BUBBLES : nat := 12.
Definition BUBBLE_LIFETIME : N := 30000.
(** The two delays of the drain loop (ms). *)
Definition BATCH_DELAY : N := 50.
Definition STAGGER : N := 100.

(** ** The bubble list *)

(** One entry of [bubbles].  [color] indexes the palette, [variantLeft]
    stands for the class ['bubble-left']. *)
Record bubble : Type := {
  id : Q;
  message : jsstring;
  color : nat;
  left : Q;
  eventType : jsstring;
  variantLeft : bool
}.

(** The four values [Math.random()] returns during one [addBubble]. *)
Record draws : Type := {
  r_id : Q;
  r_color : Q;
  r_left : Q;
  r_variant : Q
}.

(** The updater [addBubble] gives to [setBubbles]: append, then keep the
    last [MAX_BUBBLES] ([newBubbles.slice(-MAX_BUBBLES)]). *)
Definition add_updater (b : bubble) (prev : list bubble) : list bubble :=
  let newBubbles := prev ++ [b] in
  if bool_decide (MAX_BUBBLES < length newBubbles)
  then drop (length newBubbles - MAX_BUBBLES) newBubbles
  else newBubbles.

(** The updater of the lifetime timer: [prev.filter((b) => b.id !== id)]. *)
Definition expire_updater (i : Q) (prev : list bubble) : list bubble :=
  List.filter (fun b => negb (Qeq_bool (id b) i)) prev.

(** A run of the two updaters in the order React applies them. *)
Inductive bubble_op : Type :=
  | Add (b : bubble)
  | Expire (i : Q).

Definition apply_op (l : list bubble) (o : bubble_op) : list bubble :=
  match o with
  | Add b => add_updater b l
  | Expire i => expire_updater i l
  end.

Definition apply_ops (ops : list bubble_op) (l : list bubble) : list bubble :=
  fold_left apply_op ops l.

(** ** The message queue *)

(** The [message] prop: [null], a string, or an object whose fields may be
    missing. *)
Inductive message_prop : Type :=
  | MsgNull
  | MsgString (s : jsstring)
  | MsgObject (m_text : option jsstring) (m_id : option Z)
              (m_timestamp : option N) (m_event_type : option jsstring).

(** One entry of [messageQueueRef.current]. *)
Record queued : Type := {
  q_message : jsstring;
  q_id : Q;
  q_timestamp : N;
  q_eventType : jsstring
}.

Inductive action : Type :=
  | ProcessQueue          (* processMessageQueue, 50 ms after a message *)
  | ProcessNext           (* processNext, 100 ms after a bubble *)
  | Lifetime (i : Q).     (* remove bubble [i], 30 s after it was added *)

#[global] Instance action_eq_dec : EqDecision action.
Proof. unfold EqDecision, Decision. decide equality.
  destruct i as [a b], i0 as [c d].
  destruct (decide (a = c)), (decide (b = d)); subst; auto;
    right; congruence.
Defined.

(** The component: its state, its refs, its pending timers (due time and
    callback; the ids are never kept) and the clock.  The last three fields
    are history: the messages pushed onto the queue, the [addBubble] calls
    with their time, and the ids passed to [onBubbleComplete]. *)
Record comp : Type := {
  bubbles : list bubble;
  messageQueue : list queued;
  processing : bool;
  timers : list (N * action);
  now : N;
  accepted : list jsstring;
  presented : list (N * jsstring);
  completed : list Q
}.

Definition initial (t0 : N) : comp :=
  {| bubbles := []; messageQueue := []; processing := false; timers := [];
     now := t0; accepted := []; presented := []; completed := [] |}.

Definition with_bubbles (f : list bubble -> list bubble) (c : comp) : comp :=
  {| bubbles := f (bubbles c); messageQueue := messageQueue c;
     processing := processing c; timers := timers c; now := now c;
     accepted := accepted c; presented := presented c;
     completed := completed c |}.
Definition with_queue (q : list queued) (c : comp) : comp :=
  {| bubbles := bubbles c; messageQueue := q;
     processing := processing c; timers := timers c; now := now c;
     accepted := accepted c; presented := presented c;
     completed := completed c |}.
Definition with_processing (p : bool) (c : comp) : comp :=
  {| bubbles := bubbles c; messageQueue := messageQueue c;
     processing := p; timers := timers c; now := now c;
     accepted := accepted c; presented := presented c;
     completed := completed c |}.
Definition with_timers (ts : list (N * action)) (c : comp) : comp :=
  {| bubbles := bubbles c; messageQueue := messageQueue c;
     processing := processing c; timers := ts; now := now c;
     accepted := accepted c; presented := presented c;
     completed := completed c |}.
Definition with_now (t : N) (c : comp) : comp :=
  {| bubbles := bubbles c; messageQueue := messageQueue c;
     processing := processing c; timers := timers c; now := t;
     accepted := accepted c; presented := presented c;
     completed := completed c |}.
Definition log_accepted (m : jsstring) (c : comp) : comp :=
  {| bubbles := bubbles c; messageQueue := messageQueue c;
     processing := processing c; timers := timers c; now := now c;
     accepted := accepted c ++ [m]; presented := presented c;
     completed := completed c |}.
Definition log_presented (m : jsstring) (c : comp) : comp :=
  {| bubbles := bubbles c; messageQueue := messageQueue c;
     processing := processing c; timers := timers c; now := now c;
     accepted := accepted c; presented := presented c ++ [(now c, m)];
     completed := completed c |}.
Definition log_completed (i : Q) (c : comp) : comp :=
  {| bubbles := bubbles c; messageQueue := messageQueue c;
     processing := processing c; timers := timers c; now := now c;
     accepted := accepted c; presented := presented c;
     completed := completed c ++ [i] |}.

(** [setTimeout(a, delay)] *)
Definition setTimeout (a : action) (delay : N) (c : comp) : comp :=
  with_timers (timers c ++ [((now c + delay)%N, a)]) c.

(** [Date.now() + Math.random()] *)
Definition fresh_id (c : comp) (r : Q) : Q :=
  (inject_Z (Z.of_N (now c)) + r)%Q.

(** [addBubble(msg, eventType)].  The pop sound it starts is
    [Symphony.playPopSound]; it touches none of this state. *)
Definition addBubble (msg eventType : jsstring) (r : draws) (c : comp)
  : comp :=
  let i := fresh_id c (r_id r) in
  let b := {| id := i; message := msg;
              color := Z.to_nat (Qfloor (r_color r * 10));
              left := (r_left r * 80 + 10)%Q;
              eventType := eventType;
              variantLeft := negb (Qle_bool (1 # 2) (r_variant r)) |} in
  setTimeout (Lifetime i) BUBBLE_LIFETIME
    (log_presented msg (with_bubbles (add_updater b) c)).

(** [processNext] *)
Definition processNext (r : draws) (c : comp) : comp :=
  match messageQueue c with
  | msgData :: rest =>
      setTimeout ProcessNext STAGGER
        (addBubble (q_message msgData) (q_eventType msgData) r
           (with_queue rest c))
  | [] => with_processing false c
  end.

(** [processMessageQueue] *)
Definition processMessageQueue (r : draws) (c : comp) : comp :=
  if processing c then c
  else
    match messageQueue c with
    | [] => c
    | _ :: _ => processNext r (with_processing true c)
    end.

Definition nonempty (s : option jsstring) : option jsstring :=
  match s with
  | Some (_ :: _) => s
  | _ => None
  end.

(** The effect on [message]: queue the text and arm [processMessageQueue]. *)
Definition on_message (m : message_prop) (r : Q) (c : comp) : comp :=
  let messageText :=
    match m with
    | MsgNull => None
    | MsgString s => nonempty (Some s)
    | MsgObject t _ _ _ => nonempty t
    end in
  match messageText with
  | None => c
  | Some txt =>
      let entry :=
        match m with
        | MsgObject _ i t e =>
            {| q_message := txt;
               q_id := match i with
                       | Some z => if (z =? 0)%Z then fresh_id c r
                                   else inject_Z z
                       | None => fresh_id c r
                       end;
               q_timestamp := match t with
                              | Some n => if (n =? 0)%N then now c else n
                              | None => now c
                              end;
               q_eventType := default (of_string "checkin") (nonempty e) |}
        | _ =>
            {| q_message := txt; q_id := fresh_id c r; q_timestamp := now c;
               q_eventType := of_string "checkin" |}
        end in
      setTimeout ProcessQueue BATCH_DELAY
        (log_accepted txt (with_queue (messageQueue c ++ [entry]) c))
  end.

(** The lifetime callback. *)
Definition expire (i : Q) (c : comp) : comp :=
  log_completed i (with_bubbles (expire_updater i) c).

(** What a timer runs. *)
Definition run (a : action) (r : draws) (c : comp) : comp :=
  match a with
  | ProcessQueue => processMessageQueue r c
  | ProcessNext => processNext r c
  | Lifetime i => expire i c
  end.

(** ** Scheduling *)

(** One turn of the event loop.  A timer fires once, at its due time or
    later; timers that are due may fire in any order. *)
Inductive step : comp -> comp -> Prop :=
  | step_message m r c :
      step c (on_message m r c)
  | step_wait t c :
      (now c <= t)%N ->
      step c (with_now t c)
  | step_fire before t a after r c :
      timers c = before ++ (t, a) :: after ->
      (t <= now c)%N ->
      step c (run a r (with_timers (before ++ after) c)).

Inductive reachable : comp -> Prop :=
  | reachable_initial t0 : reachable (initial t0)
  | reachable_step c c' : reachable c -> step c c' -> reachable c'.

(** No drain timer is pending. *)
Definition is_drain (ta : N * action) : bool :=
  match snd ta with
  | ProcessQueue | ProcessNext => true
  | Lifetime _ => false
  end.

Definition quiescent (c : comp) : Prop :=
  List.filter is_drain (timers c) = [].

(** A turn of the drain loop alone: the clock moves on, or one of the two
    drain timers fires.  No message arrives and no bubble's lifetime ends. *)
Inductive drain_step : comp -> comp -> Prop :=
  | drain_wait t c :
      (now c <= t)%N ->
      drain_step c (with_now t c)
  | drain_fire before t a after r c :
      timers c = before ++ (t, a) :: after ->
      (t <= now c)%N ->
      is_drain (t, a) = true ->
      drain_step c (run a r (with_timers (before ++ after) c)).

(** [l.slice(-n)]: the last [n] elements of [l], all of [l] when it is
    shorter. *)
Definition newest {A} (n : nat) (l : list A) : list A :=
  drop (length l - n) l.

(** From [c] to [c'] the first [k] queued messages left the queue and their
    bubbles were put on the screen, in the order of the queue. *)
Definition shows (c c' : comp) (k : nat) : Prop :=
  messageQueue c' = drop k (messageQueue c)
  /\ map message (bubbles c')
     = newest MAX_BUBBLES
         (map message (bubbles c) ++ map q_message (take k (messageQueue c))).

(** A punctual scheduler, for running examples: the earliest timer fires at
    its due time. *)
Fixpoint earliest (ts : list (N * action)) : option (nat * (N * action)) :=
  match ts with
  | [] => None
  | t :: r =>
      match earliest r with
      | Some (k, u) => if (fst u <? fst t)%N then Some (S k, u) else Some (0, t)
      | None => Some (0, t)
      end
  end.

Fixpoint run_until (rounds : nat) (t : N) (rs : nat -> draws) (c : comp)
  : comp :=
  match rounds with
  | O => c
  | S k =>
      match earliest (timers c) with
      | Some (i, (due, a)) =>
          if (due <=? t)%N then
            run_until k t rs
              (run a (rs k)
                 (with_timers (delete i (timers c))
                    (with_now (N.max (now c) due) c)))
          else with_now (N.max (now c) t) c
      | None => with_now (N.max (now c) t) c
      end
  end.

(** ** What holds between two turns *)

Definition is_next (ta : N * action) : bool :=
  match snd ta with
  | ProcessNext => true
  | _ => false
  end.

(** Successive times are at least one stagger apart. *)
Fixpoint spaced (l : list N) : Prop :=
  match l with
  | t1 :: ((t2 :: _) as r) => (t1 + STAGGER <= t2)%N /\ spaced r
  | _ => True
  end.

Record inv (c : comp) : Prop := {
  inv_fifo :
    map snd (presented c) ++ map q_message (messageQueue c) = accepted c;
  inv_next :
    length (List.filter is_next (timers c)) = if processing c then 1 else 0;
  inv_wake :
    messageQueue c <> [] ->
    processing c = true \/ exists t, (t, ProcessQueue) ∈ timers c;
  inv_spaced : spaced (map fst (presented c));
  inv_last : forall t,
    last (map fst (presented c)) = Some t ->
    if processing c
    then forall t', (t', ProcessNext) ∈ timers c -> (t + STAGGER <= t')%N
    else (t + STAGGER <= now c)%N;
  inv_cap : length (bubbles c) <= MAX_BUBBLES
}.

(** Work left: two for each queued message, one for each drain timer. *)
Definition backlog (c : comp) : nat :=
  2 * length (messageQueue c) + length (List.filter is_drain (timers c)).

Definition no_draws : draws :=
  {| r_id := 0; r_color := 0; r_left := 0; r_variant := 0 |}.

End Bubbles.

(* ===================================================================== *)
(** * Sample inputs *)
(* ===================================================================== *)

Module Samples.
Import JsNum Text Abc.

(** A tune whose [L:] and [Q:] lines hold no number at all. *)
Definition untitled_tune : jsstring :=
  of_string "X:1
L:eighth
Q:allegro
K:C
CDE".

(** A tempo line that gives the note but no beats per minute, and one
    note of two units. *)
Definition bare_tempo : jsstring :=
  of_string "Q:1/4
C2".

(** Four notes, no header. *)
Definition four_notes : jsstring := of_string "CDEF".

(** One note, the c above middle C raised by 120 octave marks. *)
Definition high_note : jsstring := ch "c" :: repeat (ch "'") 120.

(** A file with a key line and nothing to play. *)
Definition no_notes : jsstring := of_string "K:C".

(** A browser that hands out one running context. *)
Definition one_context : Symphony.browser :=
  {| Symphony.has_window := true; Symphony.heartbeatAudioContext := None;
     Symphony.contexts := []; Symphony.ctor_queue := [Some Symphony.Running] |}.

(** A browser whose one context starts suspended, as before a click. *)
Definition one_suspended : Symphony.browser :=
  {| Symphony.has_window := true; Symphony.heartbeatAudioContext := None;
     Symphony.contexts := [];
     Symphony.ctor_queue := [Some Symphony.Suspended] |}.

(** A browser in which audio is blocked: every constructor call throws. *)
Definition no_audio : Symphony.browser :=
  {| Symphony.has_window := true; Symphony.heartbeatAudioContext := None;
     Symphony.contexts := []; Symphony.ctor_queue := [] |}.

(** Surroundings in which [t] is the fetched tune, the soundfont fails to
    load and everything else works. *)
Definition serving (t : jsstring) : Symphony.env :=
  {| Symphony.resume_ok := true; Symphony.piano_loads := false;
     Symphony.piano_plays := true; Symphony.song_text := Some t;
     Symphony.audio_element_ok := true; Symphony.reverbEnabled := false;
     Symphony.reverbWet := 15 # 100 |}.

(** The page after [init] has loaded the four notes. *)
Definition four_loaded : Symphony.world :=
  (Symphony.init (serving four_notes) (of_string "four.abc")
     (Symphony.initial_world one_context)).2.

(** A dashboard subscribed to event 42, in Symphony mode. *)
Definition evt42 : Dashboard.config :=
  {| Dashboard.currentEventId := Dashboard.VStr (of_string "42");
     Dashboard.soundEnabled := true;
     Dashboard.soundMode := of_string "Symphony" |}.

(** A session check-in as the server pushes it. *)
Definition session_checkin : Dashboard.checkin :=
  {| Dashboard.message := Some (of_string "Ada joined Keynote");
     Dashboard.event_type := Some (of_string "checkin");
     Dashboard.checkin_type := Some (of_string "session");
     Dashboard.session_id := Some (of_string "s1") |}.

(** The bubble component 50 ms after one message, when its
    [processMessageQueue] timer has just fired. *)
Definition one_message_in : Bubbles.comp :=
  Bubbles.on_message (Bubbles.MsgString (of_string "Ada checked in")) 0
    (Bubbles.initial 0).

(** The component after two messages in a row, before any timer fired. *)
Definition two_messages_in : Bubbles.comp :=
  Bubbles.on_message (Bubbles.MsgString (of_string "Bo checked in")) 0
    one_message_in.

Definition one_bubble_up : Bubbles.comp :=
  Bubbles.run Bubbles.ProcessQueue Bubbles.no_draws
    (Bubbles.with_timers ([] ++ []) (Bubbles.with_now 50 one_message_in)).

End Samples.

(* ===================================================================== *)
(** * What the player's sounds and contexts are checked against *)
(* ===================================================================== *)

Module Playback.
Import JsNum Text Abc Symphony.

(** The length a sound was started with; a pop has its fixed 0.1 s sweep or
    the length of the audio file. *)
Definition sound_duration (s : sound) : option number :=
  match s with
  | PianoNote _ d | SineTone _ d => Some d
  | PopSweep | PopFile => None
  end.

(** A finite length between [lo] and [hi] seconds. *)
Definition between (lo hi : Q) (a : number) : Prop :=
  match a with
  | Fin q => (lo <= q)%Q /\ (q <= hi)%Q
  | _ => False
  end.

(** A note or a tone that lasts between 0.1 s and 1.5 s; a pop has no
    length of its own to check. *)
Definition well_timed (s : sound) : Prop :=
  match sound_duration s with
  | Some d => between (1 # 10) (3 # 2) d
  | None => True
  end.

(** The notes of the loaded song have durations the parser can produce,
    and every sound started so far is well timed. *)
Definition timed (w : world) : Prop :=
  Forall (fun n => renderable (seconds n)) (notes (player w))
  /\ Forall well_timed (out w).

(** [window.__heartbeatAudioContext] is the context [c], and it is open. *)
Definition shared_open (c : nat) (w : world) : Prop :=
  has_window (win w) = true
  /\ heartbeatAudioContext (win w) = Some c
  /\ state_of (win w) c <> Closed.

End Playback.

(* ===================================================================== *)
(** * SymphonyPlayer.js: the stored settings and the note envelope *)
(* ===================================================================== *)

Module Envelope.
Import JsNum Text.

(** ** Settings kept in local storage *)

(** [getSettingBool(key, fallback)] on what [localStorage.getItem(key)]
    returned: [None] stands for [null]. *)
Definition getSettingBool (stored : option jsstring) (fallback : bool) : bool :=
  match stored with
  | None => fallback
  | Some v => bool_decide (v = of_string "true")
  end.

(** [getSettingNumber(key, fallback, min, max)].  [parseFloat] is the
    browser's; nothing is assumed about it. *)
Definition getSettingNumber (parseFloat : jsstring -> number)
    (stored : option jsstring) (fallback lo hi : number) : number :=
  match stored with
  | None => fallback
  | Some v =>
      match parseFloat v with
      | NaN => fallback
      | n => max lo (min hi n)
      end
  end.

(** ** More arithmetic on JavaScript numbers *)

(** [a + b] and [a - b]; opposite infinities cancel to NaN. *)
Definition add (a b : number) : number :=
  match a, b with
  | NaN, _ | _, NaN => NaN
  | Fin x, Fin y => Fin (x + y)
  | PInf, NInf | NInf, PInf => NaN
  | PInf, _ | _, PInf => PInf
  | NInf, _ | _, NInf => NInf
  end.

Definition sub (a b : number) : number :=
  match a, b with
  | NaN, _ | _, NaN => NaN
  | Fin x, Fin y => Fin (x - y)
  | PInf, PInf | NInf, NInf => NaN
  | PInf, _ | _, NInf => PInf
  | NInf, _ | _, PInf => NInf
  end.

(** [a > 0] *)
Definition is_positive (a : number) : bool :=
  match a with
  | Fin x => negb (Qle_bool x 0)
  | PInf => true
  | NInf | NaN => false
  end.

(** ** The envelope of one piano note *)

(** The calls made on [gain.gain], in program order. *)
Inductive automation : Type :=
  | SetValueAtTime (value time : number)
  | ExponentialRampToValueAtTime (value time : number).

Definition value_of (a : automation) : number :=
  match a with
  | SetValueAtTime v _ | ExponentialRampToValueAtTime v _ => v
  end.

Definition time_of (a : automation) : number :=
  match a with
  | SetValueAtTime _ t | ExponentialRampToValueAtTime _ t => t
  end.

(** [createPerNoteEnvelope(ctx, baseNode, durationSec)]: what it schedules
    on the new gain node.  [stored] is the value of
    [eventmobi_envelope_enabled], [volume] is [state.volume] and
    [currentTime] is [ctx.currentTime]. *)
Definition createPerNoteEnvelope (stored : option jsstring) (volume : Q)
    (currentTime : Q) (durationSec : number) : list automation :=
  let envelopeEnabled := getSettingBool stored true in
  let now := Fin currentTime in
  let attack := if envelopeEnabled then Fin (1 # 100) else Fin 0 in
  let release :=
    if envelopeEnabled
    then min (Fin (4 # 10)) (max (Fin (8 # 100)) (mul durationSec (Fin (6 # 10))))
    else Fin 0 in
  let peak := max (Fin (1 # 1000)) (Fin volume) in
  let attack_calls :=
    if is_positive attack
    then [SetValueAtTime (Fin (1 # 10000)) now;
          ExponentialRampToValueAtTime peak (add now attack)]
    else [SetValueAtTime peak now] in
  let endTime := add now (max (Fin (5 # 100)) durationSec) in
  let release_calls :=
    if is_positive release
    then [SetValueAtTime peak (sub endTime release);
          ExponentialRampToValueAtTime (Fin (1 # 10000)) endTime]
    else [] in
  attack_calls ++ release_calls.

(** Finite times that never go back, none before [from]. *)
Fixpoint ascending (from : Q) (ts : list number) : Prop :=
  match ts with
  | [] => True
  | Fin t :: r => (from <= t)%Q /\ ascending t r
  | _ => False
  end.

End Envelope.

(* ===================================================================== *)
(** * Dashboard.jsx: what a run of events adds up to *)
(* ===================================================================== *)

Module Tally.
Import Text StatsDisplay Dashboard.

(** A [checkin_event] payload the handler counts under [kind]: its
    [event_type] is ['checkin'] and its [checkin_type] is [kind]. *)
Definition counts_as (kind : string) (c : checkin) : bool :=
  bool_decide (event_type c = Some (of_string "checkin"))
  && bool_decide (checkin_type c = Some (of_string kind)).

Definition is_note (e : effect) : bool :=
  match e with
  | PlayNextNote => true
  | _ => false
  end.

(** How often the dashboard has called [SymphonyPlayer.playNextNote]. *)
Definition notes_requested (d : dash) : nat :=
  length (List.filter is_note (effects d)).

(** The [soundEnabled] prop the dashboard hands to [BubbleAnimation]:
    [soundEnabled && soundMode !== 'Symphony']. *)
Definition popEnabled (c : config) : bool :=
  soundEnabled c && negb (bool_decide (soundMode c = of_string "Symphony")).

(** What timers leave alone: the configuration, the counters, the bubble
    message and the calls to the player. *)
Record untouched (d d' : dash) : Prop := {
  same_cfg : cfg d' = cfg d;
  same_events : eventIncrement (ui d') = eventIncrement (ui d);
  same_sessions : sessionIncrement (ui d') = sessionIncrement (ui d);
  same_counter : messageCounter d' = messageCounter d;
  same_message : currentBubbleMessage (ui d') = currentBubbleMessage (ui d);
  same_notes : notes_requested d' = notes_requested d
}.

End Tally.

(* ===================================================================== *)
(** * Dashboard.jsx: the connection handlers *)
(* ===================================================================== *)

Module Connection.
Import Text.

(** What the two timers of the connection handlers run. *)
Inductive action : Type :=
  | ShowReconnecting   (* setError('Reconnecting...') *)
  | ConnectAgain.      (* if (socket && !socket.connected) socket.connect() *)

#[global] Instance action_eq_dec : EqDecision action.
Proof. solve_decision. Defined.

Record timer : Type := { tid : nat; due : N; act : action }.

(** Calls made on the socket. *)
Inductive outbound : Type :=
  | Subscribe (event_id api_key : jsstring)
  | Connect.

(** The part of the dashboard the connection handlers read and write:
    [connected] and [error] are state cells, [consecutiveFailures] and
    [reconnectTimeout] are refs, [socket_connected] is the socket's own
    [connected] flag, which no handler writes.  [currentEventId] and [currentApiKey] are what the
    effect closed over; it returns before creating the socket when either
    is empty. *)
Record conn : Type := {
  currentEventId : jsstring;
  currentApiKey : jsstring;
  connected : bool;
  error : jsstring;
  consecutiveFailures : nat;
  reconnectTimeout : option nat;
  socket_connected : bool;
  timers : list timer;
  next_timer : nat;
  now : N;
  sent : list outbound
}.

Definition initial (event_id api_key : jsstring) (t0 : N) : conn :=
  {| currentEventId := event_id; currentApiKey := api_key;
     connected := false; error := []; consecutiveFailures := 0;
     reconnectTimeout := None; socket_connected := false; timers := [];
     next_timer := 1; now := t0; sent := [] |}.

Definition setConnected (b : bool) (c : conn) : conn :=
  {| currentEventId := currentEventId c; currentApiKey := currentApiKey c;
     connected := b; error := error c;
     consecutiveFailures := consecutiveFailures c;
     reconnectTimeout := reconnectTimeout c;
     socket_connected := socket_connected c; timers := timers c;
     next_timer := next_timer c; now := now c; sent := sent c |}.
Definition setError (e : jsstring) (c : conn) : conn :=
  {| currentEventId := currentEventId c; currentApiKey := currentApiKey c;
     connected := connected c; error := e;
     consecutiveFailures := consecutiveFailures c;
     reconnectTimeout := reconnectTimeout c;
     socket_connected := socket_connected c; timers := timers c;
     next_timer := next_timer c; now := now c; sent := sent c |}.
Definition with_failures (n : nat) (c : conn) : conn :=
  {| currentEventId := currentEventId c; currentApiKey := currentApiKey c;
     connected := connected c; error := error c;
     consecutiveFailures := n;
     reconnectTimeout := reconnectTimeout c;
     socket_connected := socket_connected c; timers := timers c;
     next_timer := next_timer c; now := now c; sent := sent c |}.
Definition with_reconnectTimeout (r : option nat) (c : conn) : conn :=
  {| currentEventId := currentEventId c; currentApiKey := currentApiKey c;
     connected := connected c; error := error c;
     consecutiveFailures := consecutiveFailures c;
     reconnectTimeout := r;
     socket_connected := socket_connected c; timers := timers c;
     next_timer := next_timer c; now := now c; sent := sent c |}.
Definition with_socket (b : bool) (c : conn) : conn :=
  {| currentEventId := currentEventId c; currentApiKey := currentApiKey c;
     connected := connected c; error := error c;
     consecutiveFailures := consecutiveFailures c;
     reconnectTimeout := reconnectTimeout c;
     socket_connected := b; timers := timers c;
     next_timer := next_timer c; now := now c; sent := sent c |}.
Definition with_timers (ts : list timer) (c : conn) : conn :=
  {| currentEventId := currentEventId c; currentApiKey := currentApiKey c;
     connected := connected c; error := error c;
     consecutiveFailures := consecutiveFailures c;
     reconnectTimeout := reconnectTimeout c;
     socket_connected := socket_connected c; timers := ts;
     next_timer := next_timer c; now := now c; sent := sent c |}.
Definition with_now (t : N) (c : conn) : conn :=
  {| currentEventId := currentEventId c; currentApiKey := currentApiKey c;
     connected := connected c; error := error c;
     consecutiveFailures := consecutiveFailures c;
     reconnectTimeout := reconnectTimeout c;
     socket_connected := socket_connected c; timers := timers c;
     next_timer := next_timer c; now := t; sent := sent c |}.
Definition send (o : outbound) (c : conn) : conn :=
  {| currentEventId := currentEventId c; currentApiKey := currentApiKey c;
     connected := connected c; error := error c;
     consecutiveFailures := consecutiveFailures c;
     reconnectTimeout := reconnectTimeout c;
     socket_connected := socket_connected c; timers := timers c;
     next_timer := next_timer c; now := now c; sent := sent c ++ [o] |}.

(** [setTimeout(a, delay)]: the new id and the state. *)
Definition setTimeout (a : action) (delay : N) (c : conn) : nat * conn :=
  (next_timer c,
   {| currentEventId := currentEventId c; currentApiKey := currentApiKey c;
      connected := connected c; error := error c;
      consecutiveFailures := consecutiveFailures c;
      reconnectTimeout := reconnectTimeout c;
      socket_connected := socket_connected c;
      timers := timers c ++ [{| tid := next_timer c; due := (now c + delay)%N;
                                act := a |}];
      next_timer := S (next_timer c); now := now c; sent := sent c |}).

Definition clearTimeout (i : nat) (c : conn) : conn :=
  with_timers (List.filter (fun t => negb (tid t =? i)) (timers c)) c.

(** The four messages of the handlers. *)
Definition LOST : jsstring := of_string "Connection lost. Reconnecting...".
Definition ISSUES : jsstring :=
  of_string "Connection issues. Will keep trying to reconnect...".
Definition RECONNECTING : jsstring := of_string "Reconnecting...".
Definition REFRESH : jsstring :=
  of_string "Connection lost. Please refresh the page.".

Definition subscribe (c : conn) : conn :=
  send (Subscribe (currentEventId c) (currentApiKey c)) c.

(** [socket.on('connect', ...)] *)
Definition on_connect (c : conn) : conn :=
  subscribe (setError [] (setConnected true c)).

(** [socket.on('disconnect', (reason) => ...)] *)
Definition on_disconnect (reason : jsstring) (c : conn) : conn :=
  let c1 := setConnected false c in
  let proceed (c2 : conn) : conn :=
    let c3 := match reconnectTimeout c2 with
              | Some i => clearTimeout i c2
              | None => c2
              end in
    if bool_decide (3 < consecutiveFailures c3) then setError LOST c3 else c3 in
  if bool_decide (reason = of_string "io server disconnect")
  then proceed (snd (setTimeout ConnectAgain 1000 c1))
  else if bool_decide (reason = of_string "io client disconnect")
  then c1
  else proceed c1.

(** [socket.on('connect_error', ...)] *)
Definition on_connect_error (c : conn) : conn :=
  let c1 := with_failures (S (consecutiveFailures c)) c in
  if bool_decide (5 < consecutiveFailures c1) then setError ISSUES c1 else c1.

(** [socket.on('reconnect', ...)] *)
Definition on_reconnect (c : conn) : conn :=
  let c1 := setConnected true (setError [] (with_failures 0 c)) in
  let c2 := match reconnectTimeout c1 with
            | Some i => with_reconnectTimeout None (clearTimeout i c1)
            | None => c1
            end in
  match currentEventId c2, currentApiKey c2 with
  | _ :: _, _ :: _ => subscribe c2
  | _, _ => c2
  end.

(** [socket.on('reconnect_attempt', (attemptNumber) => ...)] *)
Definition on_reconnect_attempt (attemptNumber : nat) (c : conn) : conn :=
  if bool_decide (5 < attemptNumber) && bool_decide (reconnectTimeout c = None)
  then let '(i, c1) := setTimeout ShowReconnecting 2000 c in
       with_reconnectTimeout (Some i) c1
  else c.

(** [socket.on('reconnect_failed', ...)] *)
Definition on_reconnect_failed (c : conn) : conn :=
  setError REFRESH (with_failures 0 c).

(** [socket.on('reconnect_error', ...)] *)
Definition on_reconnect_error (c : conn) : conn :=
  with_failures (S (consecutiveFailures c)) c.

(** What a timer runs. *)
Definition run (a : action) (c : conn) : conn :=
  match a with
  | ShowReconnecting => setError RECONNECTING c
  | ConnectAgain => if socket_connected c then c else send Connect c
  end.

(** One turn of the event loop: a socket event, the socket changing its own
    [connected] flag, the clock, or a timer that is due. *)
Inductive step : conn -> conn -> Prop :=
  | step_connect c : step c (on_connect c)
  | step_disconnect reason c : step c (on_disconnect reason c)
  | step_connect_error c : step c (on_connect_error c)
  | step_reconnect c : step c (on_reconnect c)
  | step_reconnect_attempt n c : step c (on_reconnect_attempt n c)
  | step_reconnect_failed c : step c (on_reconnect_failed c)
  | step_reconnect_error c : step c (on_reconnect_error c)
  | step_socket b c : step c (with_socket b c)
  | step_wait t c : (now c <= t)%N -> step c (with_now t c)
  | step_fire before tm after c :
      timers c = before ++ tm :: after ->
      (due tm <= now c)%N ->
      step c (run (act tm) (with_timers (before ++ after) c)).

Inductive reachable : conn -> Prop :=
  | reachable_initial e k t0 : reachable (initial e k t0)
  | reachable_step c c' : reachable c -> step c c' -> reachable c'.

Definition is_banner (t : timer) : bool := bool_decide (act t = ShowReconnecting).

(** What holds between two turns: a still-trying banner is backed by
    failures on record, timer ids are fresh and distinct, and a pending
    banner timer is the one [reconnectTimeoutRef] names. *)
Record inv (c : conn) : Prop := {
  inv_lost : error c = LOST -> 3 < consecutiveFailures c;
  inv_issues : error c = ISSUES -> 5 < consecutiveFailures c;
  inv_ids : NoDup (map tid (timers c));
  inv_fresh : Forall (fun t => tid t < next_timer c) (timers c);
  inv_banner :
    Forall (fun t => act t = ShowReconnecting -> reconnectTimeout c = Some (tid t))
           (timers c)
}.

End Connection.

(* ===================================================================== *)
(** * BubbleAnimation.jsx: the lifetime timers *)
(* ===================================================================== *)

Module Lifetimes.
Import Text Bubbles.

Definition is_lifetime (ta : N * action) : bool :=
  match snd ta with
  | Lifetime _ => true
  | ProcessQueue | ProcessNext => false
  end.

(** Every bubble on screen has its removal pending, due within one
    lifetime from now, and every [addBubble] so far is matched by a pending
    removal or by a completed one. *)
Record accounted (c : comp) : Prop := {
  acc_timer : forall b, b ∈ bubbles c ->
    exists t, (t, Lifetime (id b)) ∈ timers c /\ (t <= now c + BUBBLE_LIFETIME)%N;
  acc_count :
    length (completed c) + length (List.filter is_lifetime (timers c))
    = length (presented c)
}.

End Lifetimes.

(* ===================================================================== *)
(** * Dashboard.jsx: the props of the bubble component *)
(* ===================================================================== *)

Module Wiring.
Import Text.

(** [<BubbleAnimation message={currentBubbleMessage} ... />]: the state cell
    of the dashboard as the [message] prop of the bubble component. *)
Definition message_prop_of (m : option Dashboard.bubble_message)
  : Bubbles.message_prop :=
  match m with
  | None => Bubbles.MsgNull
  | Some m =>
      Bubbles.MsgObject (Some (Dashboard.text m)) (Some (Dashboard.id m))
        (Some (Dashboard.timestamp m)) (Some (Dashboard.bm_event_type m))
  end.

(** [handleBubbleComplete] *)
Definition handleBubbleComplete (d : Dashboard.dash) : Dashboard.dash :=
  Dashboard.with_ui (Dashboard.setCurrentBubbleMessage None) d.

(** The effect of the bubble component on [message], as it runs after a
    render of the dashboard in state [d].  An effect runs once for a render,
    on the prop of that render, however many state updates went before
    it. *)
Definition render_effect (d : Dashboard.dash) (r : Q) (c : Bubbles.comp)
  : Bubbles.comp :=
  Bubbles.on_message
    (message_prop_of (Dashboard.currentBubbleMessage (Dashboard.ui d))) r c.

(** The payload of the event carries a message. *)
Definition has_message (ev : N * Dashboard.checkin) : bool :=
  Dashboard.truthy (Dashboard.message ev.2).

End Wiring.

(* ===================================================================== *)
(** * StartPage.jsx and App.jsx: the key, the storage and the screens *)
(* ===================================================================== *)

Module Onboarding.
Import Text.

(** ** Web Storage *)

(** One storage area.  [blocked]: reaching the area raises (storage is
    disabled for the page); [full]: [setItem] raises. *)
Record area : Type := {
  items : gmap jsstring jsstring;
  blocked : bool;
  full : bool
}.

Record storage : Type := {
  localStorage : area;
  sessionStorage : area
}.

Definition with_items (f : gmap jsstring jsstring -> gmap jsstring jsstring)
    (a : area) : area :=
  {| items := f (items a); blocked := blocked a; full := full a |}.

(** The keys the app uses. *)
Definition KEY : jsstring := of_string "eventHeartbeat:key".
Definition API_KEY : jsstring := of_string "eventmobi_api_key".
Definition EVENT_ID : jsstring := of_string "eventmobi_event_id".
Definition EVENT_NAME : jsstring := of_string "eventmobi_event_name".
Definition WEBHOOK_URL : jsstring := of_string "eventmobi_webhook_base_url".

(** Truthiness of a string that may be [null] or [undefined]. *)
Definition truthy (s : option jsstring) : bool :=
  match s with
  | Some (_ :: _) => true
  | _ => false
  end.

(** [a || b] where [b] is a string. *)
Definition or_else (a : option jsstring) (b : jsstring) : jsstring :=
  match a with
  | Some (c :: s) => c :: s
  | _ => b
  end.

(** ** StartPage.jsx and the [onContinue] of App.jsx *)

(** The storage block both run:
    [try { storage.setItem(KEY, k); try { other.removeItem(KEY) } catch {} }
     catch {}].
    Both areas are reached before the write, so a blocked area on either
    side, or a full selected area, leaves everything as it was. *)
Definition store_key (k : jsstring) (remember : bool) (st : storage) : storage :=
  let selected := if remember then localStorage st else sessionStorage st in
  let other := if remember then sessionStorage st else localStorage st in
  if blocked selected || blocked other || full selected then st
  else if remember
  then {| localStorage := with_items (insert KEY k) (localStorage st);
          sessionStorage := with_items (delete KEY) (sessionStorage st) |}
  else {| localStorage := with_items (delete KEY) (localStorage st);
          sessionStorage := with_items (insert KEY k) (sessionStorage st) |}.

Definition ENTER_KEY : jsstring :=
  of_string "Please enter an API key to continue.".

(** What one submit of the start page does: the error it shows, the
    storage it leaves, and the argument of [onContinue] when it calls it. *)
Record submitted : Type := {
  shown_error : jsstring;
  stored : storage;
  continued : option (jsstring * bool)
}.

(** [handleSubmit] of StartPage.jsx with the form's [apiKey] and
    [remember]. *)
Definition handleSubmit (apiKey : jsstring) (remember : bool) (st : storage)
  : submitted :=
  match trim apiKey with
  | [] => {| shown_error := ENTER_KEY; stored := st; continued := None |}
  | trimmed =>
      {| shown_error := []; stored := store_key trimmed remember st;
         continued := Some (trimmed, remember) |}
  end.

(** ** App.jsx *)

Record app : Type := {
  isSetup : bool;
  apiKey : jsstring;
  eventId : jsstring;
  eventName : option jsstring;
  webhookBaseUrl : jsstring;
  webhookWarning : jsstring;
  startAtEventSelection : bool
}.

Definition initial_app : app :=
  {| isSetup := false; apiKey := []; eventId := []; eventName := Some [];
     webhookBaseUrl := []; webhookWarning := [];
     startAtEventSelection := false |}.

(** The [onContinue] handed to [StartPage]. *)
Definition onContinue (k : jsstring) (remember : bool) (a : app) (st : storage)
  : app * storage :=
  ({| isSetup := isSetup a; apiKey := apiKey a; eventId := eventId a;
      eventName := eventName a; webhookBaseUrl := webhookBaseUrl a;
      webhookWarning := webhookWarning a; startAtEventSelection := true |},
   store_key k remember st).

(** What [App] renders. *)
Inductive screen : Type :=
  | ShowDashboard
  | ShowSetup (initialApiKey : jsstring)
  | ShowStartPage.

(** The body of [App]'s [return]; [None] when one of the two unguarded
    [getItem] calls raises. *)
Definition render (a : app) (st : storage) : option screen :=
  if isSetup a then Some ShowDashboard
  else if blocked (sessionStorage st) || blocked (localStorage st) then None
  else
    let storedEphemeral := items (sessionStorage st) !! KEY in
    let storedPersistent := items (localStorage st) !! KEY in
    if startAtEventSelection a || truthy storedEphemeral
       || truthy storedPersistent
    then Some (ShowSetup (or_else storedPersistent (or_else storedEphemeral [])))
    else Some ShowStartPage.

(** The key [Setup] validates when it opens on step 2:
    [(initialApiKey || '').trim() || localStorage.getItem(KEY)
     || sessionStorage.getItem(KEY) || ''], for areas that can be read.
    An empty result means no request is made. *)
Definition setup_key (initialApiKey : jsstring) (st : storage) : jsstring :=
  match trim initialApiKey with
  | c :: s => c :: s
  | [] => or_else (items (localStorage st) !! KEY)
            (or_else (items (sessionStorage st) !! KEY) [])
  end.

(** The argument of [handleSetupComplete]. *)
Record setup_data : Type := {
  d_apiKey : jsstring;
  d_eventId : jsstring;
  d_eventName : option jsstring;
  d_webhookBaseUrl : jsstring;
  d_webhookWarning : jsstring
}.

(** [handleSetupComplete(data)].  The state setters come first; the first
    [localStorage.setItem] raises when the area is blocked or full, and then
    nothing is written. *)
Definition handleSetupComplete (data : setup_data) (a : app) (st : storage)
  : app * storage :=
  ({| isSetup := true; apiKey := d_apiKey data; eventId := d_eventId data;
      eventName := d_eventName data;
      webhookBaseUrl := d_webhookBaseUrl data;
      webhookWarning := d_webhookWarning data;
      startAtEventSelection := startAtEventSelection a |},
   if blocked (localStorage st) || full (localStorage st) then st
   else
     {| localStorage :=
          with_items (fun m =>
            let m3 := <[EVENT_NAME := or_else (d_eventName data) []]>
                        (<[EVENT_ID := d_eventId data]>
                           (<[API_KEY := d_apiKey data]> m)) in
            match d_webhookBaseUrl data with
            | [] => m3
            | url => <[WEBHOOK_URL := url]> m3
            end) (localStorage st);
        sessionStorage := sessionStorage st |}).

(** The effect [App] runs once on mount; [None] when [localStorage] cannot
    be read. *)
Definition mount (a : app) (st : storage) : option app :=
  if blocked (localStorage st) then None
  else
    let get k := items (localStorage st) !! k in
    if truthy (get API_KEY) && truthy (get EVENT_ID)
    then Some {| isSetup := true; apiKey := or_else (get API_KEY) [];
                 eventId := or_else (get EVENT_ID) [];
                 eventName := Some (or_else (get EVENT_NAME) []);
                 webhookBaseUrl := or_else (get WEBHOOK_URL) [];
                 webhookWarning := webhookWarning a;
                 startAtEventSelection := startAtEventSelection a |}
    else Some a.

(** [handleReset()].  The four unguarded [removeItem] calls raise at once
    when [localStorage] is blocked; the two guarded ones follow only when
    they did not. *)
Definition handleReset (a : app) (st : storage) : app * storage :=
  let cleared (start : bool) : app :=
    {| isSetup := false; apiKey := []; eventId := []; eventName := Some [];
       webhookBaseUrl := []; webhookWarning := webhookWarning a;
       startAtEventSelection := start |} in
  if blocked (localStorage st) then (cleared (startAtEventSelection a), st)
  else
    (cleared false,
     {| localStorage :=
          with_items (fun m =>
            delete KEY (delete WEBHOOK_URL (delete EVENT_NAME
              (delete EVENT_ID (delete API_KEY m))))) (localStorage st);
        sessionStorage :=
          if blocked (sessionStorage st) then sessionStorage st
          else with_items (delete KEY) (sessionStorage st) |}).

(** Both areas can be read and written. *)
Definition working (st : storage) : Prop :=
  blocked (localStorage st) = false /\ full (localStorage st) = false
  /\ blocked (sessionStorage st) = false /\ full (sessionStorage st) = false.

End Onboarding.

(* ===================================================================== *)
(** * SettingsPanel.jsx and Dashboard.jsx: the saved preferences *)
(* ===================================================================== *)

Module Preferences.
Import Text Onboarding.

Definition SOUND_ENABLED : jsstring := of_string "eventmobi_sound_enabled".
Definition SOUND_MODE : jsstring := of_string "eventmobi_sound_mode".
Definition SYMPHONY_SONG : jsstring := of_string "eventmobi_symphony_song".
Definition BUBBLES_ENABLED : jsstring := of_string "eventmobi_bubbles_enabled".
Definition STATS_ENABLED : jsstring := of_string "eventmobi_stats_enabled".
Definition SESSION_COUNTS_ENABLED : jsstring :=
  of_string "eventmobi_session_counts_enabled".
Definition COLORS : jsstring := of_string "eventmobi_colors".

Definition HEARTBEAT : jsstring := of_string "Heartbeat".

(** [b.toString()] *)
Definition toString (b : bool) : jsstring :=
  of_string (if b then "true" else "false").

(** [a || b] on two strings. *)
Definition or_str (a b : jsstring) : jsstring :=
  match a with
  | [] => b
  | _ :: _ => a
  end.

(** ** The dashboard's preference cells *)

Record prefs : Type := {
  soundEnabled : bool;
  soundMode : jsstring;
  symphonySong : jsstring;
  bubblesEnabled : bool;
  statsEnabled : bool;
  sessionCountsEnabled : bool
}.

(** [saved !== null ? saved === 'true' : true] *)
Definition read_flag (saved : option jsstring) : bool :=
  match saved with
  | Some v => bool_decide (v = of_string "true")
  | None => true
  end.

(** The [useState] initialisers of Dashboard.jsx, on the items of
    [localStorage]. *)
Definition load (m : gmap jsstring jsstring) : prefs :=
  {| soundEnabled := read_flag (m !! SOUND_ENABLED);
     soundMode := or_else (m !! SOUND_MODE) HEARTBEAT;
     symphonySong := or_else (m !! SYMPHONY_SONG) [];
     bubblesEnabled := read_flag (m !! BUBBLES_ENABLED);
     statsEnabled := read_flag (m !! STATS_ENABLED);
     sessionCountsEnabled := read_flag (m !! SESSION_COUNTS_ENABLED) |}.

(** ** SettingsPanel.jsx: [handleSave] *)

(** The panel's state when Save is pressed.  [f_eventName] is the value of
    the local [eventName]: the name found for the selected event, else
    [currentEventName]; [f_colors] is [JSON.stringify(colors)]. *)
Record form : Type := {
  f_apiKey : jsstring;
  f_selectedEventId : jsstring;
  f_eventName : option jsstring;
  f_webhookBaseUrl : jsstring;
  f_soundEnabled : bool;
  f_soundMode : jsstring;
  f_selectedSong : jsstring;
  f_bubblesEnabled : bool;
  f_statsEnabled : bool;
  f_sessionCountsEnabled : bool;
  f_colors : jsstring
}.

(** The argument of [onSettingsUpdate], without the colors object. *)
Record settings : Type := {
  s_apiKey : jsstring;
  s_eventId : jsstring;
  s_eventName : jsstring;
  s_webhookBaseUrl : jsstring;
  s_soundEnabled : bool;
  s_soundMode : jsstring;
  s_symphonySong : jsstring;
  s_bubblesEnabled : bool;
  s_statsEnabled : bool;
  s_sessionCountsEnabled : bool
}.

Inductive outcome : Type :=
  | Rejected   (* 'API key and event are required' *)
  | Raised     (* the [catch]: a storage call raised *)
  | Saved.

Record save_result : Type := {
  result : outcome;
  storage_after : storage;
  update : option settings
}.

(** The writes of [handleSave], in program order. *)
Definition save_items (f : form) (m : gmap jsstring jsstring)
  : gmap jsstring jsstring :=
  let m1 := <[COLORS := f_colors f]> m in
  let m2 := <[EVENT_NAME := or_else (f_eventName f) []]>
              (<[EVENT_ID := f_selectedEventId f]>
                 (<[API_KEY := f_apiKey f]> m1)) in
  let m3 := match f_webhookBaseUrl f with
            | [] => m2
            | url => <[WEBHOOK_URL := url]> m2
            end in
  let m4 := <[SOUND_MODE := f_soundMode f]>
              (<[SESSION_COUNTS_ENABLED := toString (f_sessionCountsEnabled f)]>
                 (<[STATS_ENABLED := toString (f_statsEnabled f)]>
                    (<[BUBBLES_ENABLED := toString (f_bubblesEnabled f)]>
                       (<[SOUND_ENABLED := toString (f_soundEnabled f)]> m3)))) in
  match f_selectedSong f with
  | [] => m4
  | song => <[SYMPHONY_SONG := song]> m4
  end.

(** [handleSave] up to the call of [onSettingsUpdate]; what follows it
    (the success note, the webhook request, closing the panel) writes
    nothing to storage. *)
Definition handleSave (f : form) (currentEventName : jsstring) (st : storage)
  : save_result :=
  match f_apiKey f, f_selectedEventId f with
  | _ :: _, _ :: _ =>
      if blocked (localStorage st) || full (localStorage st)
      then {| result := Raised; storage_after := st; update := None |}
      else
        {| result := Saved;
           storage_after :=
             {| localStorage := with_items (save_items f) (localStorage st);
                sessionStorage := sessionStorage st |};
           update :=
             Some {| s_apiKey := f_apiKey f;
                     s_eventId := f_selectedEventId f;
                     s_eventName := or_else (f_eventName f) currentEventName;
                     s_webhookBaseUrl := f_webhookBaseUrl f;
                     s_soundEnabled := f_soundEnabled f;
                     s_soundMode := f_soundMode f;
                     s_symphonySong := f_selectedSong f;
                     s_bubblesEnabled := f_bubblesEnabled f;
                     s_statsEnabled := f_statsEnabled f;
                     s_sessionCountsEnabled := f_sessionCountsEnabled f |} |}
  | _, _ => {| result := Rejected; storage_after := st; update := None |}
  end.

(** ** Dashboard.jsx: [handleSettingsUpdate] *)

(** The preference cells after [handleSettingsUpdate(settings)];
    [x !== false] is [x] for a boolean. *)
Definition handleSettingsUpdate (s : settings) : prefs :=
  {| soundEnabled := s_soundEnabled s;
     soundMode := or_str (s_soundMode s) HEARTBEAT;
     symphonySong := or_str (s_symphonySong s) [];
     bubblesEnabled := s_bubblesEnabled s;
     statsEnabled := s_statsEnabled s;
     sessionCountsEnabled := s_sessionCountsEnabled s |}.

(** ** The two sound toggles of the panel *)

(** [defaultChecked] of the envelope checkbox:
    [localStorage.getItem('eventmobi_envelope_enabled') !== 'false']. *)
Definition envelope_checked (stored : option jsstring) : bool :=
  negb (bool_decide (stored = Some (of_string "false"))).

(** [defaultChecked] of the reverb checkbox:
    [localStorage.getItem('eventmobi_reverb_enabled') === 'true']. *)
Definition reverb_checked (stored : option jsstring) : bool :=
  bool_decide (stored = Some (of_string "true")).

End Preferences.

(* ===================================================================== *)
(** * Facts about lists used below *)
(* ===================================================================== *)

Section ListFacts.
Context {A : Type}.

Lemma elem_of_filter_bool (f : A -> bool) (l : list A) (x : A) :
  x ∈ List.filter f l <-> x ∈ l /\ f x = true.
Proof. rewrite !list_elem_of_In. apply filter_In. Qed.

Lemma filter_Forall (P : A -> Prop) (f : A -> bool) (l : list A) :
  Forall P l -> Forall P (List.filter f l).
Proof.
  induction 1 as [|x l Hx Hl IH]; [done|]. cbn. destruct (f x); auto.
Qed.

Lemma filter_length_lt (f : A -> bool) (l : list A) (x : A) :
  x ∈ l -> f x = false -> length (List.filter f l) < length l.
Proof.
  induction l as [|y l IH]; [by intros ?%elem_of_nil|].
  intros [->|Hin]%elem_of_cons Hf; cbn.
  - rewrite Hf. pose proof (filter_length_le f l). lia.
  - specialize (IH Hin Hf). destruct (f y); cbn; lia.
Qed.

Lemma filter_without (f : A -> bool) (before after : list A) (x : A) :
  length (List.filter f (before ++ x :: after))
  = length (List.filter f (before ++ after)) + (if f x then 1 else 0).
Proof.
  rewrite !List.filter_app, !length_app. cbn. destruct (f x); cbn; lia.
Qed.

Lemma elem_of_without (before after : list A) (x y : A) :
  y ∈ before ++ after -> y ∈ before ++ x :: after.
Proof. rewrite !elem_of_app, elem_of_cons. tauto. Qed.

Lemma elem_of_with (before after : list A) (x y : A) :
  y ∈ before ++ x :: after -> y <> x -> y ∈ before ++ after.
Proof. rewrite !elem_of_app, elem_of_cons. intros [?|[?|?]] ?; tauto. Qed.

End ListFacts.

(* ===================================================================== *)
(** * The tune parser *)
(* ===================================================================== *)

Section ParserFacts.
Import JsNum Text Abc Samples.

(** ** Headers *)

Lemma read_tempo_defaultLen h ln :
  defaultLen (read_tempo h ln) = defaultLen h.
Proof.
  unfold read_tempo. destruct (starts_with _ ln); [|done].
  destruct (match_tempo _) as [[[n d] b]|]; [done|].
  by destruct (match_number _).
Qed.

Lemma read_length_tempo h ln :
  qNote (read_length h ln) = qNote h /\ qBpm (read_length h ln) = qBpm h.
Proof.
  unfold read_length. destruct (starts_with _ ln); [|done].
  by destruct (match_length _) as [[n d]|].
Qed.

Lemma read_headers_length lines : forall h,
  length_unusable lines = true ->
  defaultLen (fold_left read_header lines h) = defaultLen h.
Proof.
  induction lines as [|ln lines IH]; intros h H; [done|].
  cbn [length_unusable forallb] in H. apply andb_prop in H as [Hln H].
  cbn [fold_left].
  rewrite IH by done. unfold read_header. rewrite read_tempo_defaultLen.
  unfold read_length. destruct (starts_with _ ln); [|done].
  cbn [negb orb] in Hln. apply bool_decide_eq_true_1 in Hln. by rewrite Hln.
Qed.

Lemma read_headers_tempo lines : forall h,
  tempo_unusable lines = true ->
  qNote (fold_left read_header lines h) = qNote h
  /\ qBpm (fold_left read_header lines h) = qBpm h.
Proof.
  induction lines as [|ln lines IH]; intros h H; [done|].
  cbn [tempo_unusable forallb] in H. apply andb_prop in H as [Hln H].
  cbn [fold_left].
  destruct (IH (read_header h ln) H) as [-> ->].
  unfold read_header, read_tempo. destruct (starts_with _ ln).
  - cbn [negb orb] in Hln. apply andb_prop in Hln as [H1 H2].
    apply bool_decide_eq_true_1 in H1, H2. rewrite H1, H2.
    apply read_length_tempo.
  - apply read_length_tempo.
Qed.

(** ** What the header patterns match *)

Lemma digits_cons a s :
  digits (a :: s) =
  if is_digit a then Some (a :: take_while is_digit s, drop_while is_digit s)
  else None.
Proof. unfold digits. cbn. by destruct (is_digit a). Qed.

Lemma digits_head s ds r : digits s = Some (ds, r) -> exists a s', s = a :: s' /\ is_digit a = true.
Proof.
  destruct s as [|a s]; [done|]. rewrite digits_cons.
  destruct (is_digit a) eqn:E; [|done]. eauto.
Qed.

Lemma slash_not_digit c : is_slash c = true -> is_digit c = false.
Proof.
  unfold is_slash, is_digit, in_range, ch. intros H%N.eqb_eq. subst. reflexivity.
Qed.

(** A match of the fraction pattern at the head needs a digit, a slash and a
    digit in a row somewhere in the text. *)
Lemma fraction_at_has s : is_Some (fraction_at s) -> has_fraction s = true.
Proof.
  induction s as [|a s IH]; [by intros [? ?]|]. unfold fraction_at.
  rewrite digits_cons. destruct (is_digit a) eqn:Ea; [|by intros [? ?]].
  destruct s as [|b s]; [by intros [? ?]|]. cbn [take_while drop_while].
  destruct (is_digit b) eqn:Eb.
  - cbn [has_fraction]. intros H. rewrite orb_true_iff. right. apply IH.
    unfold fraction_at. rewrite digits_cons, Eb.
    destruct (drop_while is_digit s) as [|c r]; [by destruct H|].
    destruct (c =? ch "/")%N; [|by destruct H].
    by destruct (digits r) as [[d r']|]; [|by destruct H].
  - change (b =? ch "/")%N with (is_slash b).
    destruct (is_slash b) eqn:Es; [|by intros [? ?]].
    destruct (digits s) as [[d r']|] eqn:Ed; [|by intros [? ?]]. intros _.
    destruct (digits_head _ _ _ Ed) as (c & s' & -> & Ec).
    cbn. by rewrite Ea, Es, Ec.
Qed.

Lemma fraction_here_at s :
  fraction_here s = true -> is_Some (fraction_at s).
Proof.
  destruct s as [|a [|b [|c s]]]; try done. cbn [fraction_here].
  rewrite !andb_true_iff. intros [[Ha Hb] Hc].
  unfold fraction_at. rewrite digits_cons, Ha. cbn [take_while drop_while].
  rewrite (slash_not_digit b Hb). change (b =? ch "/")%N with (is_slash b).
  rewrite Hb, digits_cons, Hc. done.
Qed.

Lemma match_length_has s :
  is_Some (match_length s) <-> has_fraction s = true.
Proof.
  unfold match_length. induction s as [|a s IH].
  { cbn. split; [by intros [? ?]|done]. }
  cbn [search has_fraction]. rewrite orb_true_iff.
  destruct (fraction_at (a :: s)) as [[[n d] r]|] eqn:E.
  - split; [|done]. intros _.
    assert (Hs : is_Some (fraction_at (a :: s))) by (by rewrite E).
    apply fraction_at_has in Hs. cbn [has_fraction] in Hs.
    by apply orb_true_iff in Hs.
  - rewrite IH. split; [by right|]. intros [H|H]; [|done].
    apply fraction_here_at in H. rewrite E in H. by destruct H.
Qed.

Lemma match_length_none s :
  has_fraction s = false -> match_length s = None.
Proof.
  intros H. destruct (match_length s) eqn:E; [|done].
  assert (Hs : is_Some (match_length s)) by (by rewrite E).
  apply match_length_has in Hs. congruence.
Qed.

Lemma match_number_has s :
  is_Some (match_number s) <-> has_digit s = true.
Proof.
  unfold match_number, has_digit. induction s as [|a s IH].
  { cbn. split; [by intros [? ?]|done]. }
  cbn [search existsb]. rewrite digits_cons, orb_true_iff.
  destruct (is_digit a); [by split; eauto|].
  rewrite IH. split; [by right|]. by intros [?|?].
Qed.

Lemma match_tempo_has s :
  is_Some (match_tempo s) -> has_digit s = true.
Proof.
  unfold match_tempo, has_digit. induction s as [|a s IH].
  { cbn. by intros [? ?]. }
  cbn [search existsb]. rewrite orb_true_iff.
  destruct (tempo_at (a :: s)) as [x|] eqn:E.
  - intros _. left. unfold tempo_at, fraction_at in E.
    rewrite digits_cons in E. by destruct (is_digit a).
  - intros H. right. by apply IH.
Qed.

Lemma no_length_unusable lines :
  no_length_given lines = true -> length_unusable lines = true.
Proof.
  unfold no_length_given, length_unusable. rewrite !forallb_forall.
  intros H ln Hln. specialize (H ln Hln).
  apply orb_true_iff in H as [H|H]; apply orb_true_iff; [by left|right].
  apply bool_decide_eq_true_2, match_length_none. by apply negb_true_iff.
Qed.

Lemma no_tempo_unusable lines :
  no_tempo_given lines = true -> tempo_unusable lines = true.
Proof.
  unfold no_tempo_given, tempo_unusable. rewrite !forallb_forall.
  intros H ln Hln. specialize (H ln Hln).
  apply orb_true_iff in H as [H|H]; apply orb_true_iff; [by left|right].
  apply negb_true_iff in H. apply andb_true_iff. split; apply bool_decide_eq_true_2.
  - destruct (match_tempo _) eqn:E; [|done].
    assert (Hs : is_Some (match_tempo (trim (drop 2 ln)))) by (by rewrite E).
    apply match_tempo_has in Hs. congruence.
  - destruct (match_number _) eqn:E; [|done].
    assert (Hs : is_Some (match_number (trim (drop 2 ln)))) by (by rewrite E).
    apply match_number_has in Hs. congruence.
Qed.

(** The last [L:] line that holds a fraction decides the default length. *)
Lemma last_length_is_used before ln after :
  starts_with (of_string "L:") ln = true ->
  has_fraction (trim (drop 2 ln)) = true ->
  no_length_given after = true ->
  exists n d,
    match_length (trim (drop 2 ln)) = Some (n, d)
    /\ defaultLen (read_headers (before ++ ln :: after))
       = {| num := n; den := d |}.
Proof.
  intros Hl Hf Ha. apply match_length_has in Hf as [[n d] Hm].
  exists n, d. split; [done|].
  unfold read_headers. rewrite fold_left_app. cbn [fold_left].
  rewrite read_headers_length by (by apply no_length_unusable).
  unfold read_header. rewrite read_tempo_defaultLen.
  unfold read_length. by rewrite Hl, Hm.
Qed.

(** The last [Q:] line that holds a digit decides the tempo: through the
    first pattern when it matches, else through the second with the note
    1/4. *)
Lemma last_tempo_is_used before ln after :
  starts_with (of_string "Q:") ln = true ->
  has_digit (trim (drop 2 ln)) = true ->
  no_tempo_given after = true ->
  let h := read_headers (before ++ ln :: after) in
  match match_tempo (trim (drop 2 ln)) with
  | Some (n, d, b) => qNote h = {| num := n; den := d |} /\ qBpm h = b
  | None =>
      qNote h = {| num := 1; den := 4 |}
      /\ match_number (trim (drop 2 ln)) = Some (qBpm h)
  end.
Proof.
  intros Hq Hd Ha h. subst h. unfold read_headers.
  rewrite fold_left_app. cbn [fold_left].
  destruct (read_headers_tempo after
              (read_header (fold_left read_header before default_headers) ln))
    as [-> ->]; [by apply no_tempo_unusable|].
  unfold read_header, read_tempo. rewrite Hq. cbv zeta.
  destruct (match_tempo _) as [[[n d] b]|]; [done|].
  apply match_number_has in Hd as [b Hb]. by rewrite Hb.
Qed.

(** C7.  The parser is a total function of the text: no header makes it
    fail.  When no [L:] line goes on with a digit, a slash and a digit, the
    default note length stays 1/8; when no [Q:] line goes on with a digit,
    the tempo stays 1/4 = 120; with both, the notes are those the default
    headers give.  A header line in which the pattern does find a match is
    used with the numbers matched, whatever else the line holds: the last
    [L:] line with a fraction gives the default length, the last [Q:] line
    with a digit gives the tempo, through the pattern note/note=bpm when
    that matches and else as beats per minute of the note 1/4. *)
Theorem headers_without_numbers_fall_back (abcText : jsstring) :
  let lines := split_lines abcText in
  let h := read_headers lines in
  (no_length_given lines = true -> defaultLen h = {| num := 1; den := 8 |})
  /\ (no_tempo_given lines = true ->
        qNote h = {| num := 1; den := 4 |} /\ qBpm h = 120%N)
  /\ (no_length_given lines = true -> no_tempo_given lines = true ->
        parseAbcSimple abcText = scan default_headers 0 (content_of lines))
  /\ (forall before ln after,
        lines = before ++ ln :: after ->
        starts_with (of_string "L:") ln = true ->
        has_fraction (trim (drop 2 ln)) = true ->
        no_length_given after = true ->
        exists n d,
          match_length (trim (drop 2 ln)) = Some (n, d)
          /\ defaultLen h = {| num := n; den := d |})
  /\ (forall before ln after,
        lines = before ++ ln :: after ->
        starts_with (of_string "Q:") ln = true ->
        has_digit (trim (drop 2 ln)) = true ->
        no_tempo_given after = true ->
        match match_tempo (trim (drop 2 ln)) with
        | Some (n, d, b) => qNote h = {| num := n; den := d |} /\ qBpm h = b
        | None =>
            qNote h = {| num := 1; den := 4 |}
            /\ match_number (trim (drop 2 ln)) = Some (qBpm h)
        end).
Proof.
  intros lines h. split_and!.
  - intros H. apply (read_headers_length lines default_headers).
    by apply no_length_unusable.
  - intros H. apply (read_headers_tempo lines default_headers).
    by apply no_tempo_unusable.
  - intros HL%no_length_unusable HQ%no_tempo_unusable.
    unfold parseAbcSimple. fold lines. f_equal.
    pose proof (read_headers_length lines default_headers HL) as H1.
    destruct (read_headers_tempo lines default_headers HQ) as [H2 H3].
    unfold read_headers. destruct (fold_left _ _ _). cbn in *. by subst.
  - intros before ln after E. subst h. rewrite E. apply last_length_is_used.
  - intros before ln after E. subst h. rewrite E. apply last_tempo_is_used.
Qed.

Lemma headers_without_numbers_witness :
  parseAbcSimple untitled_tune
  = scan default_headers 0 (content_of (split_lines untitled_tune))
  /\ map midi (parseAbcSimple untitled_tune) = [60; 62; 64]%Z
  /\ qBpm (read_headers (split_lines bare_tempo)) = 1%N.
Proof.
  split_and!.
  - apply (headers_without_numbers_fall_back untitled_tune); reflexivity.
  - reflexivity.
  - destruct (headers_without_numbers_fall_back bare_tempo)
      as (_ & _ & _ & _ & H).
    specialize (H [] (of_string "Q:1/4") [of_string "C2"]
                  eq_refl eq_refl eq_refl eq_refl).
    change (match_tempo (trim (drop 2 (of_string "Q:1/4")))) with
      (@None (N * N * N)) in H.
    change (match_number (trim (drop 2 (of_string "Q:1/4")))) with
      (Some 1%N) in H.
    destruct H as [_ H]. symmetry. exact (inj Some _ _ H).
Defined.

(** The tempo line [Q:1/4] names the note and leaves out the beats per
    minute.  It is not replaced by the default 1/4 = 120: the second tempo
    pattern reads its first number as 1 beat per minute, and the note of
    two units lasts 1.5 s where the default tempo gives 0.5 s. *)
Lemma bare_tempo_is_read_as_one_bpm :
  read_headers (split_lines bare_tempo)
  = {| defaultLen := {| num := 1; den := 8 |};
       qNote := {| num := 1; den := 4 |}; qBpm := 1 |}
  /\ qBpm (read_headers (split_lines bare_tempo)) <> qBpm default_headers
  /\ map seconds (parseAbcSimple bare_tempo) = [Fin (3 # 2)]
  /\ (exists q, map seconds (scan default_headers 0
                               (content_of (split_lines bare_tempo)))
                = [Fin q] /\ (q == 1 # 2)%Q)
  /\ parseAbcSimple bare_tempo
     <> scan default_headers 0 (content_of (split_lines bare_tempo)).
Proof.
  split_and!; [reflexivity|by vm_compute|reflexivity| |by vm_compute].
  eexists. split; [vm_compute; reflexivity|reflexivity].
Qed.

(** A header that does match is used, whatever it says. *)
Example matched_header_is_used :
  read_headers (split_lines (of_string "L:1/0
Q:1/4"))
  = {| defaultLen := {| num := 1; den := 0 |};
       qNote := {| num := 1; den := 4 |}; qBpm := 1 |}.
Proof. reflexivity. Qed.

(** ** Durations *)

(** C9.  The duration suffix [0/0] makes [durationFromToken] divide zero by
    zero: the note's duration is NaN, which the clamp passes through, so it
    is not a positive duration of at most 1.5 s. *)
Theorem zero_over_zero_is_not_a_number :
  parseAbcSimple (of_string "C0/0") = [{| midi := 60; seconds := NaN |}]
  /\ ~ Forall (fun n => bounded_positive (3 # 2) (seconds n))
              (parseAbcSimple (of_string "C0/0")).
Proof.
  assert (E : parseAbcSimple (of_string "C0/0")
              = [{| midi := 60; seconds := NaN |}]) by reflexivity.
  split; [exact E|]. rewrite E. intros H.
  apply Forall_cons in H as [H _]. exact H.
Qed.

(** The same through a header: a zero default length and a zero multiplier. *)
Example zero_length_header_is_not_a_number :
  map seconds (parseAbcSimple (of_string "L:1/0
C0 D")) = [NaN; Fin (3 # 10)].
Proof. reflexivity. Qed.

Lemma clamp_renderable x :
  renderable (max (Fin (8 # 100)) (min (Fin (3 # 2)) x)).
Proof.
  destruct x as [q| | |]; cbn.
  - destruct (Qle_bool (3 # 2) q) eqn:E1; cbn.
    + right. cbn. split; reflexivity || (by intros ?).
    + destruct (Qle_bool (8 # 100) q) eqn:E2; right; cbn.
      * apply Qle_bool_iff in E2. split.
        -- eapply Qlt_le_trans; [|exact E2]. reflexivity.
        -- destruct (Qlt_le_dec q (3#2)) as [H|H]; [by apply Qlt_le_weak|].
           apply Qle_bool_iff in H. congruence.
      * split; [reflexivity|by intros ?].
  - right. cbn. split; [reflexivity|by intros ?].
  - right. cbn. split; [reflexivity|by intros ?].
  - by left.
Qed.

Lemma durationFromToken_renderable h tok :
  renderable (durationFromToken h tok).
Proof.
  unfold durationFromToken. destruct tok as [|c tok].
  { right. cbn. split; [reflexivity|by intros ?]. }
  case_bool_decide.
  { right. cbn. split; [reflexivity|by intros ?]. }
  destruct (forallb is_slash (c :: tok)).
  - right. unfold div, of_nat. cbn [length].
    set (n := Z.of_nat (S (length tok))).
    assert (Hn : (1 <= n)%Z) by lia.
    assert (Hq : (0 < inject_Z n)%Q).
    { change 0%Q with (inject_Z 0). rewrite <- Zlt_Qlt. lia. }
    destruct (inject_Z n ?= 0)%Q eqn:E.
    + apply Qeq_alt in E. rewrite E in Hq. by apply Qlt_irrefl in Hq.
    + apply Qlt_alt in E. exfalso. eapply Qlt_irrefl, Qlt_trans; eauto.
    + cbn. split.
      * apply Qlt_shift_div_l; [done|]. reflexivity.
      * apply Qle_shift_div_r; [done|].
        apply Qle_trans with (3 # 2); [by intros ?|].
        rewrite <- (Qmult_1_r (3 # 2)) at 1.
        apply Qmult_le_l; [reflexivity|].
        change 1%Q with (inject_Z 1). rewrite <- Zle_Qle. done.
  - destruct (int_or_fraction _) as [[n d]|].
    + apply clamp_renderable.
    + right. cbn. split; [reflexivity|by intros ?].
Qed.

Lemma scan_renderable h s : forall skip,
  Forall (fun n => renderable (seconds n)) (scan h skip s).
Proof.
  induction s as [|c s IH]; intros skip; cbn; [constructor|].
  destruct skip; [|apply IH].
  destruct (token_at (c :: s)) as [t|]; [|apply IH].
  unfold note_of_token. destruct (baseMidi _); [|apply IH].
  constructor; [apply durationFromToken_renderable|apply IH].
Qed.

(** Apart from NaN every duration the parser produces is positive and at
    most 1.5 s. *)
Lemma parse_durations_renderable abcText :
  Forall (fun n => renderable (seconds n)) (parseAbcSimple abcText).
Proof. apply scan_renderable. Qed.

(** What playback makes of a duration: at least 0.1 s on the piano path, and
    NaN or zero replaced by 0.3 s. *)
Example playback_masks_NaN :
  or_else NaN (Fin (3 # 10)) = Fin (3 # 10).
Proof. reflexivity. Qed.

End ParserFacts.

(* ===================================================================== *)
(** * The step player *)
(* ===================================================================== *)

Ltac fx_cases :=
  intros;
  repeat match goal with
         | H : _ \/ _ |- _ => destruct H
         | H : _ /\ _ |- _ => destruct H
         | H : is_Some None |- _ => by destruct H
         | H : false = true |- _ => discriminate H
         end;
  repeat split; eauto.

Section PlayerFacts.
Import JsNum Text Abc Symphony Samples.

(** ** How each piece of a call runs *)

Lemma fx_step_refl s : fx_step s s.
Proof. by split. Qed.

Lemma fx_step_trans s p q : fx_step s p -> fx_step p q -> fx_step s q.
Proof.
  intros [] []; split; try congruence. auto.
Qed.

Lemma bind_run {A B} (m : M A) (k : A -> M B) w a w1 :
  m w = (Ok a, w1) -> (m ≫= k) w = k a w1.
Proof. intros E. unfold mbind, M_bind. by rewrite E. Qed.

Lemma bind_throw {A B} (m : M A) (k : A -> M B) w w1 :
  m w = (Throw, w1) -> (m ≫= k) w = (Throw, w1).
Proof. intros E. unfold mbind, M_bind. by rewrite E. Qed.

Lemma construct_run w :
  exists c b, construct_context w = (Ok c, set_win b w).
Proof.
  unfold construct_context, mbind, M_bind, get_win, modify_win, mret, M_ret.
  destruct (ctor_queue (win w)) as [|[s|] q] eqn:E.
  - exists None, (win w). by destruct w.
  - eexists _, _. reflexivity.
  - eexists _, _. reflexivity.
Qed.

Lemma getOrCreate_run w :
  exists c b, getOrCreateAudioContext w = (Ok c, set_win b w).
Proof.
  unfold getOrCreateAudioContext, mbind, M_bind, get_win, mret, M_ret.
  assert (Hid : exists c b, (Ok (A:=option nat) None, w) = (Ok c, set_win b w)).
  { exists None, (win w). by destruct w. }
  destruct (has_window (win w)); cbn; [|done].
  destruct (heartbeatAudioContext (win w)) as [c|]; [|apply construct_run].
  case_bool_decide; [|apply construct_run].
  exists (Some c), (win w). by destruct w.
Qed.

Lemma acquire_run (o : option nat) w :
  exists c b,
    (match o with Some c => mret (Some c) | None => getOrCreateAudioContext end) w
    = (Ok c, set_win b w) /\ (is_Some o -> c = o).
Proof.
  destruct o as [c|].
  - exists (Some c), (win w). split; [by destruct w|done].
  - destruct (getOrCreate_run w) as (c & b & E). exists c, b. split; [done|].
    by intros [? ?].
Qed.

Lemma resume_run e c w :
  exists b, resume_if_suspended e c w = (Ok (), set_win b w).
Proof.
  unfold resume_if_suspended, resume, mbind, M_bind, get_win, modify_win,
    mret, M_ret.
  case_bool_decide; [destruct (resume_ok e)|].
  - eexists. reflexivity.
  - exists (win w); by destruct w.
  - exists (win w); by destruct w.
Qed.

Lemma ensureFx_run ctx w :
  exists r p, ensureFxChain ctx w = (r, set_player p w)
    /\ fx_step (player w) p
    /\ (is_Some ctx \/ fx_ready (player w) -> r = Ok ())
    /\ (r = Ok () -> fx_ready p).
Proof.
  unfold ensureFxChain, fx_ready, on_ctx, mbind, M_bind, get_player,
    modify_player, throw, mret, M_ret, set_player.
  destruct w as [s po b o]. cbn.
  destruct s as [ac v ns cu so pi mg dg wg cv].
  destruct ctx as [c|], mg as [?|], dg as [?|], wg as [?|], cv; cbn;
    eexists _, _; (split; [reflexivity|]); (split; [split; cbn; try done|]);
    cbn; (split; [fx_cases|try done; fx_cases]).
Qed.

Lemma applyFx_run e w :
  exists p, applyFxSettingsFromStorage e w = (Ok (), set_player p w)
    /\ fx_step (player w) p.
Proof.
  unfold applyFxSettingsFromStorage, modify_player. eexists. split; [done|].
  destruct (wetGain (player w)) eqn:E; [|apply fx_step_refl].
  split; try done. unfold fx_ready. cbn. rewrite E. intros (?&?&?&?); eauto.
Qed.

(** The frequency of a pitch fits an [AudioParam] up to MIDI 1499. *)
Lemma frequency_fits_spec (m : Z) : frequency_fits m = true <-> (m < 1500)%Z.
Proof.
  unfold frequency_fits. rewrite orb_true_iff, Z.leb_le, Z.ltb_lt.
  assert (H440 : (0 < 440 ^ 12)%Z) by (vm_compute; reflexivity).
  split.
  - intros [H|H]; [lia|].
    destruct (Z_lt_le_dec m 1500) as [|Hm]; [done|exfalso].
    assert (H1 : (2 ^ 1431 <= 2 ^ (m - 69))%Z) by (apply Z.pow_le_mono_r; lia).
    assert (H2 : (FLOAT_LIMIT ^ 12 <= 440 ^ 12 * 2 ^ 1431)%Z)
      by (vm_compute; discriminate).
    nia.
  - intros Hm. destruct (Z_le_gt_dec m 69) as [|H69]; [by left|right].
    assert (H1 : (2 ^ (m - 69) <= 2 ^ 1430)%Z) by (apply Z.pow_le_mono_r; lia).
    assert (H2 : (440 ^ 12 * 2 ^ 1430 < FLOAT_LIMIT ^ 12)%Z)
      by (vm_compute; reflexivity).
    nia.
Qed.

(** One call of [playTone]: it leaves the song alone and adds at most the
    one tone; it raises only at the frequency write, before any sound. *)
Lemma playTone_run e m d w :
  exists r p b new,
    playTone e m d w =
      (r, {| player := p; pop := pop w; win := b; out := out w ++ new |})
    /\ notes p = notes (player w) /\ cursor p = cursor (player w)
    /\ (fx_ready (player w) -> fx_ready p)
    /\ (is_Some (audioContext (player w)) -> is_Some (audioContext p))
    /\ (new = [] \/ new = [SineTone m (tone_length d)])
    /\ (is_Some (audioContext (player w)) -> r = Ok () -> new <> [])
    /\ (frequency_fits m = true -> r = Ok ())
    /\ (r = Throw -> frequency_fits m = false /\ new = [])
    /\ (is_Some (audioContext (player w)) -> frequency_fits m = false ->
        r = Throw).
Proof.
  unfold playTone. rewrite (bind_run _ _ w (player w) w) by done.
  destruct (acquire_run (audioContext (player w)) w) as (c & b & E & Hc).
  rewrite (bind_run _ _ _ _ _ E). destruct c as [c|].
  - destruct (resume_run e c (set_win b (set_player (set_audioContext (Some c) (player w)) w)))
      as (b' & E').
    unfold set_win, set_player in E'. cbn in E'.
    destruct (frequency_fits m) eqn:Ef.
    + eexists (Ok ()), _, b', [_]. split.
      * unfold mbind, M_bind, modify_player, set_frequency; cbn.
        rewrite E', Ef. reflexivity.
      * cbn. split_and!; eauto; done.
    + eexists Throw, _, b', []. split.
      * unfold mbind, M_bind, modify_player, set_frequency; cbn.
        rewrite E', Ef. cbn. by rewrite app_nil_r.
      * cbn. split_and!; eauto; done.
  - exists (Ok ()), (player w), b, []. rewrite app_nil_r.
    assert (Hno : ~ is_Some (audioContext (player w))).
    { intros H. specialize (Hc H). rewrite <- Hc in H. by destruct H. }
    split_and!; auto; done.
Qed.

(** ** One call of [playNextNote] *)

Lemma resume_opt_run e (ctx : option nat) w :
  exists b,
    (if ctx is Some c then resume_if_suspended e c else mret ()) w
    = (Ok (), set_win b w).
Proof.
  destruct ctx as [c|]; [apply resume_run|].
  exists (win w). by destruct w.
Qed.

(** One call on a song that has a note [n] under the cursor: the cursor moves
    on by one, the song stays, at most the note [n] sounds, and the call
    returns whenever the effect chain or a context is there and the pitch
    of [n] fits the oscillator. *)
Lemma playNextNote_run e w n :
  let s := player w in
  let idx := cursor s mod length (notes s) in
  notes s !! idx = Some n ->
  exists r w' new,
    playNextNote e w = (r, w')
    /\ notes (player w') = notes s
    /\ cursor (player w') = (idx + 1) mod length (notes s)
    /\ pop w' = pop w
    /\ out w' = out w ++ new
    /\ sounds_for n new
    /\ (fx_ready s -> fx_ready (player w'))
    /\ (is_Some (audioContext s) -> is_Some (audioContext (player w')))
    /\ (fx_ready s \/ is_Some (audioContext s) ->
        frequency_fits (midi n) = true -> r = Ok ())
    /\ (is_Some (audioContext s) -> r = Ok () -> new <> [])
    /\ (r = Throw -> new = []).
Proof.
  intros s idx Hn. unfold playNextNote.
  rewrite (bind_run _ _ w (player w) w) by done. fold s.
  assert (Hlen : length (notes s) <> 0).
  { intros Hz. apply lookup_lt_Some in Hn. lia. }
  rewrite bool_decide_eq_false_2 by done. fold idx. rewrite Hn.
  set (w1 := set_player (set_cursor ((idx + 1) mod length (notes s)) s) w).
  rewrite (bind_run _ _ w () w1) by done.
  destruct (acquire_run (audioContext s) w1) as (ctx & b & E & Hctx).
  rewrite (bind_run _ _ _ _ _ E).
  set (w2 := set_player (set_audioContext ctx (player (set_win b w1))) (set_win b w1)).
  rewrite (bind_run _ _ _ () w2) by done.
  destruct (resume_opt_run e ctx w2) as (b' & E2). rewrite (bind_run _ _ _ _ _ E2).
  destruct (ensureFx_run ctx (set_win b' w2)) as (r & p & E3 & Hp & Hr & _).
  assert (Hs : is_Some (audioContext s) -> is_Some ctx).
  { intros H. by rewrite (Hctx H). }
  destruct r as [[]|].
  2:{ rewrite (bind_throw _ _ _ _ E3).
      eexists _, _, []. split; [reflexivity|]. rewrite app_nil_r.
      destruct Hp. cbn in *.
      split_and!; try done; try congruence.
      - by left.
      - intros H. rewrite fx_audioContext0. auto.
      - intros [H|H] _; apply Hr; [by right|left; auto]. }
  rewrite (bind_run _ _ _ _ _ E3).
  destruct (applyFx_run e (set_player p (set_win b' w2))) as (p' & E4 & Hp').
  rewrite (bind_run _ _ _ _ _ E4).
  set (w5 := set_player p' _).
  rewrite (bind_run _ _ w5 (player w5) w5) by done.
  destruct (fx_step_trans _ _ _ Hp Hp') as [Ha Hb Hc Hd He]. cbn in Ha, Hb, Hc, Hd, He.
  assert (Hfallback : exists r w' new,
    playTone e (midi n) (or_else (seconds n) (Fin (3 # 10))) w5 = (r, w')
    /\ notes (player w') = notes s
    /\ cursor (player w') = (idx + 1) mod length (notes s)
    /\ pop w' = pop w
    /\ out w' = out w ++ new
    /\ sounds_for n new
    /\ (fx_ready s -> fx_ready (player w'))
    /\ (is_Some (audioContext s) -> is_Some (audioContext (player w')))
    /\ (fx_ready s \/ is_Some (audioContext s) ->
        frequency_fits (midi n) = true -> r = Ok ())
    /\ (is_Some (audioContext s) -> r = Ok () -> new <> [])
    /\ (r = Throw -> new = [])).
  { destruct (playTone_run e (midi n) (or_else (seconds n) (Fin (3 # 10))) w5)
      as (r5 & q & b5 & new & E5 & Hq1 & Hq2 & Hq3 & Hq4 & Hq5 & Hq6 & Hq7 & Hq8 & _).
    cbn in Hq1, Hq2, Hq3, Hq4, Hq6.
    eexists _, _, new. split; [exact E5|]. cbn.
    split_and!; try done; try congruence.
    - destruct Hq5 as [->| ->]; [by left|by right; right].
    - auto.
    - intros H. apply Hq4. rewrite Ha. auto.
    - intros H. apply Hq6. rewrite Ha. auto.
    - intros H. by apply Hq8. }
  destruct (piano (player w5) && bool_decide (is_Some ctx)); [|exact Hfallback].
  unfold try_catch. destruct (piano_plays e); [|exact Hfallback].
  eexists _, _, [_]. split; [reflexivity|]. cbn.
  split_and!; try done; try congruence.
  - by right; left.
  - intros H. rewrite Ha. auto.
Qed.

(** ** Calls in a row *)

Lemma advance_all_spec es : forall w,
  notes (player w) <> [] ->
  cursor (player w) < length (notes (player w)) ->
  let w' := advance_all es w in
  notes (player w') = notes (player w)
  /\ cursor (player w') = (cursor (player w) + length es) mod length (notes (player w))
  /\ (is_Some (audioContext (player w)) -> is_Some (audioContext (player w'))).
Proof.
  induction es as [|e es IH]; intros w Hne Hlt w'.
  - subst w'. cbn. rewrite Nat.add_0_r, Nat.mod_small by done. auto.
  - assert (Hlen : length (notes (player w)) <> 0) by (by destruct (notes (player w))).
    destruct (lookup_lt_is_Some_2 (notes (player w))
                (cursor (player w) mod length (notes (player w)))) as [n Hn].
    { by apply Nat.mod_upper_bound. }
    destruct (playNextNote_run e w n Hn)
      as (r & w1 & new & E & Hnotes & Hcur & _ & _ & _ & _ & Hctx & _).
    assert (Hw' : w' = advance_all es w1).
    { subst w'. cbn. unfold advance at 2. by rewrite E. }
    rewrite Hw'. cbn [length].
    destruct (IH w1) as (H1 & H2 & H3).
    + by rewrite Hnotes.
    + rewrite Hnotes, Hcur. by apply Nat.mod_upper_bound.
    + rewrite H1, H2, Hnotes, Hcur. split_and!; auto.
      rewrite (Nat.mod_small (cursor (player w))) by done.
      rewrite Nat.Div0.add_mod_idemp_l. f_equal. lia.
Qed.

(** C1.  From a loaded song with at least one note and the cursor at 0:
    after [k] calls of [playNextNote] the cursor is [k mod len] and the note
    list is unchanged; the next call, number [k + 1], works on note
    [k mod len], that is note [((k + 1) - 1) mod len]: the only sound it
    can start is that note, with its pitch and its duration, on the piano or
    as a tone, and it does start it whenever the player holds an audio
    context and the call returns normally. *)
Theorem next_note_cycles_through_song (w : world) (es : list env) (e : env) :
  notes (player w) <> [] ->
  cursor (player w) = 0 ->
  let ns := notes (player w) in
  let k := length es in
  let wk := advance_all es w in
  notes (player wk) = ns
  /\ cursor (player wk) = k mod length ns
  /\ exists n new,
       ns !! (k mod length ns) = Some n
       /\ out (advance wk e) = out wk ++ new
       /\ sounds_for n new
       /\ (is_Some (audioContext (player w)) ->
           (playNextNote e wk).1 = Ok () -> new <> []).
Proof.
  intros Hne Hc ns k wk.
  assert (Hlen : 0 < length ns).
  { subst ns. destruct (notes (player w)); [done|cbn; lia]. }
  destruct (advance_all_spec es w Hne) as (H1 & H2 & H3).
  { rewrite Hc. exact Hlen. }
  fold wk in H1, H2, H3. rewrite Hc in H2. cbn in H2. fold ns k in H1, H2.
  split_and!; [done..|].
  destruct (lookup_lt_is_Some_2 ns (k mod length ns)) as [n Hn].
  { apply Nat.mod_upper_bound. lia. }
  assert (Hn' : notes (player wk) !! (cursor (player wk) mod length (notes (player wk))) = Some n).
  { rewrite H1, H2, Nat.Div0.mod_mod. exact Hn. }
  destruct (playNextNote_run e wk n Hn')
    as (r & w1 & new & E & _ & _ & _ & Hout & Hs & _ & _ & _ & Hnew & _).
  exists n, new. unfold advance. rewrite E. cbn. split_and!; auto.
Qed.

(** Five calls on the four-note song: the cursor is back at 1, and the
    sixth call starts note 1 again. *)
Lemma next_note_witness :
  let e := serving four_notes in
  let w5 := advance_all [e; e; e; e; e] four_loaded in
  cursor (player w5) = 1
  /\ exists n new,
       notes (player four_loaded) !! 1 = Some n
       /\ out (advance w5 e) = out w5 ++ new
       /\ sounds_for n new.
Proof.
  intros e w5.
  destruct (next_note_cycles_through_song four_loaded [e; e; e; e; e] e)
    as (_ & Hc & n & new & Hn & Hout & Hs & _).
  - vm_compute. discriminate.
  - reflexivity.
  - split; [exact Hc|]. exists n, new. auto.
Defined.

(** The scenario of the four-note song: five calls start the notes at
    indices 0, 1, 2, 3 and 0. *)
Example five_calls_on_four_notes :
  let e := serving four_notes in
  map midi (notes (player four_loaded)) = [60; 62; 64; 65]%Z
  /\ map sound_midi (out (advance_all [e; e; e; e; e] four_loaded))
     = [Some 60; Some 62; Some 64; Some 65; Some 60]%Z.
Proof. split; reflexivity. Qed.

(** ** Loading a song *)

Lemma parseAbcToNotes_simple t : parseAbcToNotes t = parseAbcSimple t.
Proof. unfold parseAbcToNotes. by destruct (parseAbcSimple t). Qed.

(** Without a context [ensureFxChain] raises unless the chain is complete. *)
Lemma ensureFx_without_context w :
  ~ fx_ready (player w) -> (ensureFxChain None w).1 = Throw.
Proof.
  unfold ensureFxChain, fx_ready, on_ctx, mbind, M_bind, get_player,
    modify_player, throw, mret, M_ret.
  destruct w as [s po b o]. cbn.
  destruct s as [ac v ns cu so pi mg dg wg cv].
  destruct mg as [?|], dg as [?|], wg as [?|], cv; cbn; try done.
  intros H. destruct H. split_and!; eauto.
Qed.

Lemma init_run e f w :
  exists r w',
    init e f w = (Ok r, w')
    /\ cursor (player w') = 0
    /\ pop w' = pop w
    /\ out w' = out w
    /\ (notes (player w') <> [] -> fx_ready (player w'))
    /\ (notes (player w') = [] /\ r = false
        \/ exists t, song_text e = Some t
             /\ notes (player w') = parseAbcSimple t
             /\ r = bool_decide (0 < length (parseAbcSimple t)))
    /\ (fx_ready (player w) -> forall t, song_text e = Some t ->
          notes (player w') = parseAbcSimple t)
    /\ (forall c t, (getOrCreateAudioContext w).1 = Ok (Some c) ->
          song_text e = Some t -> notes (player w') = parseAbcSimple t)
    /\ ((getOrCreateAudioContext w).1 = Ok None -> ~ fx_ready (player w) ->
          notes (player w') = []).
Proof.
  unfold init, try_catch.
  match goal with |- context [(?m ≫= ?k) w] => set (body := m ≫= k) end.
  destruct (getOrCreate_run w) as (ctx & b & E1). rewrite E1. cbn [fst].
  set (w1 := set_player (set_audioContext ctx (player (set_win b w))) (set_win b w)).
  destruct (ensureFx_run ctx w1) as (r & p & E3 & Hp & Hr & Hok).
  destruct r as [[]|].
  2:{ assert (Hb : body w = (Throw, set_player p w1)).
      { subst body. rewrite (bind_run _ _ _ _ _ E1).
        rewrite (bind_run _ _ _ () w1) by done.
        by rewrite (bind_throw _ _ _ _ E3). }
      rewrite Hb. eexists _, _. split; [reflexivity|]. cbn.
      split_and!; try done.
      - by left.
      - intros H. destruct Hp. cbn in *. by specialize (Hr (or_intror H)).
      - intros c t [= ->]. by specialize (Hr (or_introl (mk_is_Some _ _ eq_refl))). }
  assert (Hnone : ctx = None -> ~ fx_ready (player w) -> False).
  { intros -> Hfx. pose proof (ensureFx_without_context w1 Hfx) as E.
    by rewrite E3 in E. }
  destruct (applyFx_run e (set_player p w1)) as (p' & E4 & Hp').
  destruct (fx_step_trans _ _ _ Hp Hp') as [Ha Hb Hc Hd He].
  cbn in Ha, Hb, Hc, Hd, He.
  assert (Hfx : fx_ready p').
  { destruct Hp' as [_ _ _ _ H]. apply H. cbn. by apply Hok. }
  set (w3 := set_player p' (set_player p w1)) in E4.
  set (w4 := if piano p' then w3 else set_player (set_piano (piano_loads e) p') w3).
  assert (E5 : (if piano (player w3) then mret ()
                else modify_player (set_piano (piano_loads e))) w3 = (Ok (), w4)).
  { subst w4. cbn. by destruct (piano p'). }
  assert (H4 : fx_ready (player w4) /\ pop w4 = pop w /\ out w4 = out w).
  { subst w4. by destruct (piano p'). }
  destruct H4 as (H4a & H4b & H4c).
  destruct (song_text e) as [t|] eqn:Et.
  - assert (Hb' : exists w', body w = (Ok (bool_decide (0 < length (parseAbcToNotes t))), w')
        /\ notes (player w') = parseAbcToNotes t /\ cursor (player w') = 0
        /\ fx_ready (player w') /\ pop w' = pop w /\ out w' = out w).
    { eexists. split.
      - subst body. rewrite (bind_run _ _ _ _ _ E1).
        rewrite (bind_run _ _ _ () w1) by done.
        rewrite (bind_run _ _ _ _ _ E3), (bind_run _ _ _ _ _ E4).
        rewrite (bind_run _ _ w3 (player w3) w3) by done.
        rewrite (bind_run _ _ _ _ _ E5).
        rewrite ?Et. reflexivity.
      - cbn. split_and!; try done. }
    destruct Hb' as (w' & -> & Hn & Hcu & Hf & Hpo & Hou).
    rewrite parseAbcToNotes_simple in *.
    eexists _, _. split; [reflexivity|]. split_and!; try done.
    + right. eauto.
    + intros _ t' [= <-]. done.
    + intros c t' _ [= <-]. done.
    + intros [= ->] Hno. by destruct Hnone.
  - assert (Hb' : body w = (Throw, w4)).
    { subst body. rewrite (bind_run _ _ _ _ _ E1).
      rewrite (bind_run _ _ _ () w1) by done.
      rewrite (bind_run _ _ _ _ _ E3), (bind_run _ _ _ _ _ E4).
      rewrite (bind_run _ _ w3 (player w3) w3) by done.
      rewrite (bind_run _ _ _ _ _ E5).
      rewrite ?Et. reflexivity. }
    rewrite Hb'. eexists _, _. split; [reflexivity|]. cbn.
    split_and!; try done. by left.
Qed.

(** ** Silence and safety *)

Lemma playNextNote_silent e w :
  notes (player w) = [] -> playNextNote e w = (Ok (), w).
Proof.
  intros H. unfold playNextNote.
  rewrite (bind_run _ _ w (player w) w) by done.
  by rewrite H.
Qed.

Lemma advance_all_silent es w :
  notes (player w) = [] -> advance_all es w = w.
Proof.
  intros H. induction es as [|e es IH]; [done|].
  cbn. unfold advance at 2. by rewrite playNextNote_silent.
Qed.

Lemma playPopSound_run e on w :
  exists w' new,
    playPopSound e on w = (Ok (), w') /\ player w' = player w
    /\ out w' = out w ++ new /\ pop_sounds new.
Proof.
  unfold playPopSound, pop_sounds. destruct on; cbn [negb].
  2:{ exists w, []. rewrite app_nil_r. auto. }
  unfold try_catch at 1.
  rewrite (bind_run _ _ w (pop w) w) by done.
  destruct (acquire_run (audioContextRef (pop w)) w) as (ctx & b & E & _).
  rewrite (bind_run _ _ _ _ _ E). destruct ctx as [c|].
  - set (w1 := {| player := player w;
                  pop := {| audioContextRef := Some c; soundRef := soundRef (pop w) |};
                  win := b; out := out w |}).
    rewrite (bind_run _ _ _ () w1) by done.
    destruct (resume_run e c w1) as (b' & E').
    rewrite (bind_run _ _ _ _ _ E'). cbn. eexists _, [_].
    split_and!; [reflexivity|done|done|by right; left].
  - unfold throw, try_catch. destruct (audio_element_ok e); cbn.
    + eexists _, [_]. split_and!; [reflexivity|done|done|by right; right].
    + eexists _, []. rewrite app_nil_r.
      split_and!; [reflexivity|done|done|by left].
Qed.

(** Whatever the page does, a loaded song comes with its effect chain:
    [init] stores notes only after [ensureFxChain] returned. *)
Lemma page_step_chain_ready w w' :
  page_step w w' -> chain_ready w -> chain_ready w'.
Proof.
  unfold chain_ready. destruct 1 as [e f w|e w|v w|e on w|b w]; intros Hw.
  - destruct (init_run e f w) as (r & w1 & E & _ & _ & _ & H & _).
    by rewrite E.
  - destruct (notes (player w)) as [|n0 ns] eqn:En.
    { by rewrite playNextNote_silent. }
    destruct (lookup_lt_is_Some_2 (notes (player w))
                (cursor (player w) mod length (notes (player w)))) as [n Hn].
    { apply Nat.mod_upper_bound. by rewrite En. }
    destruct (playNextNote_run e w n Hn)
      as (r & w1 & new & E & Hnotes & _ & _ & _ & _ & Hfx & _).
    rewrite E. cbn. intros _. apply Hfx, Hw. by rewrite ?En.
  - exact Hw.
  - destruct (playPopSound_run e on w) as (w1 & new & E & Hp & _).
    rewrite E. cbn. by rewrite Hp.
  - exact Hw.
Qed.

Lemma reachable_chain_ready w : reachable w -> chain_ready w.
Proof.
  induction 1 as [b|w w' _ IH Hstep]; [by intros []|].
  by eapply page_step_chain_ready.
Qed.

(** In every state the page can reach, whatever the browser answers (a
    suspended context, a constructor that throws, a [resume] that fails, a
    soundfont or an audio element that raises): [playPopSound] returns
    normally; [playTone] does when the frequency of its pitch fits the
    oscillator, and [playNextNote] when that of every note of the song does;
    and what each adds to the sound output is nothing or its one sound. *)
Lemma audio_calls_return_within_float_range (w : world) :
  reachable w ->
  forall e : env,
    (Forall (fun n => frequency_fits (midi n) = true) (notes (player w)) ->
       (playNextNote e w).1 = Ok ())
    /\ (forall m d,
          (frequency_fits m = true -> (playTone e m d w).1 = Ok ())
          /\ exists new, out (playTone e m d w).2 = out w ++ new
               /\ (new = [] \/ new = [SineTone m (tone_length d)]))
    /\ (forall on,
          (playPopSound e on w).1 = Ok ()
          /\ exists new, out (playPopSound e on w).2 = out w ++ new
               /\ pop_sounds new).
Proof.
  intros Hw e. split_and!.
  - intros Hfit. destruct (notes (player w)) as [|n0 ns] eqn:En.
    { by rewrite playNextNote_silent. }
    destruct (lookup_lt_is_Some_2 (notes (player w))
                (cursor (player w) mod length (notes (player w)))) as [n Hn].
    { apply Nat.mod_upper_bound. by rewrite En. }
    destruct (playNextNote_run e w n Hn)
      as (r & w1 & new & E & _ & _ & _ & _ & _ & _ & _ & Hr & _).
    rewrite E. cbn. apply Hr.
    + left. apply (reachable_chain_ready w Hw). by rewrite ?En.
    + rewrite <- En in Hfit. rewrite Forall_lookup in Hfit. by apply (Hfit _ _ Hn).
  - intros m d.
    destruct (playTone_run e m d w)
      as (r & p & b & new & E & _ & _ & _ & _ & Hnew & _ & Hr & _).
    rewrite E. split; [done|]. by exists new.
  - intros on. destruct (playPopSound_run e on w) as (w1 & new & E & _ & Ho & Hn).
    rewrite E. split; [done|]. by exists new.
Qed.

(** With audio blocked altogether, on the page after a load attempt. *)
Example blocked_audio_is_silent :
  let w := (init (serving four_notes) (of_string "four.abc")
              (initial_world no_audio)).2 in
  (playNextNote (serving four_notes) w).1 = Ok ()
  /\ (playTone (serving four_notes) 60 (Fin (3 # 10)) w).1 = Ok ()
  /\ (playPopSound (serving four_notes) true w).1 = Ok ()
  /\ out (playNextNote (serving four_notes) w).2 = [].
Proof. vm_compute. by split_and!. Qed.

(** C8.  A note with 120 octave marks has MIDI pitch 1512 and a frequency
    of about 6.9e38 Hz, beyond what the oscillator's frequency can hold.
    After [init] has loaded it, in a browser whose context starts
    suspended, [playNextNote] resumes the context and then raises at the
    fallback tone, whether no piano is loaded or the piano raised first;
    [playTone] raises as well.  No sound is started. *)
Theorem out_of_range_pitch_raises :
  let e := serving high_note in
  let w := (init e (of_string "high.abc") (initial_world one_suspended)).2 in
  let piano_raises :=
    {| resume_ok := true; piano_loads := true; piano_plays := false;
       song_text := Some high_note; audio_element_ok := true;
       reverbEnabled := false; reverbWet := 15 # 100 |} in
  let w' := (init piano_raises (of_string "high.abc")
               (initial_world one_suspended)).2 in
  reachable w
  /\ map midi (notes (player w)) = [1512%Z]
  /\ (playNextNote e w).1 = Throw
  /\ out (playNextNote e w).2 = []
  /\ state_of (win (playNextNote e w).2) 0 = Running
  /\ (playTone e 1512 (Fin (3 # 10)) w).1 = Throw
  /\ piano (player w') = true
  /\ (playNextNote piano_raises w').1 = Throw.
Proof.
  intros e w piano_raises w'. split.
  - apply (reachable_next (initial_world one_suspended));
      [apply reachable_start|apply do_init].
  - vm_compute. by split_and!.
Qed.

(** The fallbacks.  Without a context the pop goes to the audio file, and
    to silence when that fails too; a soundfont that raises hands the note
    to the sine tone. *)
Example pop_falls_back_to_file :
  playPopSound (serving four_notes) true (initial_world no_audio)
  = (Ok (), {| player := initial_state;
               pop := {| audioContextRef := None; soundRef := true |};
               win := no_audio; out := [PopFile] |}).
Proof. reflexivity. Qed.

Example pop_falls_back_to_silence :
  let e := {| resume_ok := false; piano_loads := false; piano_plays := false;
              song_text := None; audio_element_ok := false;
              reverbEnabled := false; reverbWet := 0 |} in
  playPopSound e true (initial_world no_audio)
  = (Ok (), initial_world no_audio).
Proof. reflexivity. Qed.

Example raising_piano_falls_back_to_tone :
  let load := {| resume_ok := true; piano_loads := true; piano_plays := true;
                 song_text := Some four_notes; audio_element_ok := true;
                 reverbEnabled := true; reverbWet := 15 # 100 |} in
  let play := {| resume_ok := true; piano_loads := true; piano_plays := false;
                 song_text := None; audio_element_ok := true;
                 reverbEnabled := true; reverbWet := 15 # 100 |} in
  let w := (init load (of_string "four.abc") (initial_world one_context)).2 in
  piano (player w) = true
  /\ (playNextNote play w).1 = Ok ()
  /\ map sound_midi (out (playNextNote play w).2) = [Some 60%Z]
  /\ out (playNextNote load w).2
     = [PianoNote 60 (piano_dur (Fin (3 # 10)))].
Proof. vm_compute. by split_and!. Qed.

(** Outside the reachable states the effect chain can be missing under a
    loaded song, and then a call without a context does raise. *)
Example unreachable_state_raises :
  let w := set_player (set_notes (parseAbcSimple four_notes) initial_state)
             (initial_world no_audio) in
  (playNextNote (serving four_notes) w).1 = Throw.
Proof. reflexivity. Qed.

(** C2.  [init] leaves the cursor at 0 and replaces the note list,
    whatever the list and the cursor were before: when the text is fetched,
    and a context can be had or the effect chain exists already, the new
    list is the parse of the fetched text; when the fetch fails, or there is
    neither a context nor the chain, the new list is empty.  A text without
    notes leaves it empty too.  With an empty list every later call of
    [playNextNote], after any number of earlier ones, returns normally and
    changes nothing: no sound, same cursor. *)
Theorem init_resets_cursor_and_replaces_notes (e : env) (f : jsstring) (w : world) :
  let w' := (init e f w).2 in
  cursor (player w') = 0
  /\ (forall t, song_text e = Some t ->
        (exists c, (getOrCreateAudioContext w).1 = Ok (Some c))
        \/ fx_ready (player w) ->
        notes (player w') = parseAbcSimple t)
  /\ ((getOrCreateAudioContext w).1 = Ok None -> ~ fx_ready (player w) ->
        notes (player w') = [])
  /\ (notes (player w') = []
      \/ exists t, song_text e = Some t /\ notes (player w') = parseAbcSimple t)
  /\ (song_text e = None -> notes (player w') = [])
  /\ (forall t, song_text e = Some t -> parseAbcSimple t = [] ->
        notes (player w') = [])
  /\ (notes (player w') = [] ->
        forall (es : list env) (e' : env),
          playNextNote e' (advance_all es w') = (Ok (), w')).
Proof.
  intros w'. subst w'.
  destruct (init_run e f w)
    as (r & w1 & E & Hc & _ & _ & _ & Hn & Hfx & Hctx & Hnone).
  rewrite E. cbn. split_and!.
  - done.
  - intros t Ht [[c Hc']|H]; [by apply (Hctx c)|by apply Hfx].
  - done.
  - destruct Hn as [[? _]|(t & ? & ? & _)]; eauto.
  - intros He. destruct Hn as [[? _]|(t & ? & _)]; [done|congruence].
  - intros t Ht Hp. destruct Hn as [[? _]|(t' & ? & ? & _)]; [done|congruence].
  - intros He es e'. rewrite advance_all_silent by done.
    by apply playNextNote_silent.
Qed.

(** Loading the four notes over the three of another tune, two calls into
    it; then loading a file without notes over the four. *)
Lemma init_witness :
  let e := serving untitled_tune in
  let w := advance_all [e; e]
             (init e (of_string "untitled.abc") (initial_world one_context)).2 in
  let w4 := (init (serving four_notes) (of_string "four.abc") w).2 in
  let w0 := (init (serving no_notes) (of_string "empty.abc") w4).2 in
  (length (notes (player w)) = 3 /\ cursor (player w) = 2)
  /\ (map midi (notes (player w4)) = [60; 62; 64; 65]%Z
      /\ cursor (player w4) = 0)
  /\ (notes (player w0) = [] /\ cursor (player w0) = 0
      /\ playNextNote (serving no_notes)
           (advance_all [serving no_notes; serving no_notes] w0)
         = (Ok (), w0)).
Proof.
  intros e w w4 w0. split; [by vm_compute|]. split.
  - destruct (init_resets_cursor_and_replaces_notes
                (serving four_notes) (of_string "four.abc") w)
      as (Hc & Hload & _).
    split; [|exact Hc]. subst w4. rewrite (Hload four_notes); [reflexivity..|].
    left. exists 0. reflexivity.
  - destruct (init_resets_cursor_and_replaces_notes
                (serving no_notes) (of_string "empty.abc") w4)
      as (Hc & _ & _ & _ & _ & Hempty & Hs).
    assert (Hn : notes (player w0) = []) by (by apply (Hempty no_notes)).
    split_and!; [exact Hn|exact Hc|by apply Hs].
Defined.

End PlayerFacts.

(* ===================================================================== *)
(** * The dashboard: counters, pokes and the refresh timer *)
(* ===================================================================== *)

Section DashboardFacts.
Import Text StatsDisplay Dashboard Samples.

(** ** Counters *)

(** C3.  Applying a fresh stats snapshot stores it and sets both increment
    counters to zero, whatever they were; and in every state the count on
    each card is the snapshot's value for it (zero when the field is
    missing) plus the increment, so right after a snapshot the cards show
    the snapshot's own values. *)
Theorem fresh_snapshot_zeroes_increments (data : stats) (d : dash) :
  let d' := fetchStats_done (Fetched data) d in
  stats_ (ui d') = data
  /\ eventIncrement (ui d') = 0%Z
  /\ sessionIncrement (ui d') = 0%Z
  /\ event_value (shown d') = or_zero (event_checkins data)
  /\ session_value (shown d') = or_zero (session_checkins data)
  /\ event_value (shown d)
     = (or_zero (event_checkins (stats_ (ui d))) + eventIncrement (ui d))%Z
  /\ session_value (shown d)
     = (or_zero (session_checkins (stats_ (ui d))) + sessionIncrement (ui d))%Z
  /\ forall v : Z, or_zero (Some v) = v.
Proof.
  assert (Hz : forall v : Z, or_zero (Some v) = v).
  { intros v. unfold or_zero. destruct (Z.eqb_spec v 0); congruence. }
  cbn -[or_zero]. rewrite !Hz. split_and!; try done; lia.
Qed.


(** Three session check-ins, then a snapshot: the counter reaches 3 and
    falls back to 0, with the snapshot's count as the new baseline. *)
Example three_checkins_then_snapshot :
  let d := receive_all [(0%N, session_checkin); (80%N, session_checkin);
                        (160%N, session_checkin)] (initial evt42 0) in
  let snapshot := {| total_attendees := Some 250%Z;
                     event_checkins := Some 120%Z;
                     session_checkins := Some 43%Z |} in
  sessionIncrement (ui d) = 3%Z
  /\ session_value (shown d) = 3%Z
  /\ session_badge (shown d) = Some 3%Z
  /\ sessionIncrement (ui (fetchStats_done (Fetched snapshot) d)) = 0%Z
  /\ session_value (shown (fetchStats_done (Fetched snapshot) d)) = 43%Z.
Proof. vm_compute. by split_and!. Qed.

(** ** Pokes *)

(** C10.  A poke whose payload is null, or whose [event_id] reads as a
    different string than the subscribed event id, leaves the whole
    component state as it was: message, counter, increments, timers, the
    pending refresh and the list of outbound calls. *)
Theorem foreign_poke_changes_nothing (data : option poke) (d : dash) :
  data = None
  \/ (exists p, data = Some p
        /\ String_ (event_id p) <> String_ (currentEventId (cfg d))) ->
  on_checkin_poke data d = d.
Proof.
  intros [->|(p & -> & Hp)]; [done|].
  unfold on_checkin_poke. by rewrite bool_decide_eq_true_2.
Qed.


Lemma foreign_poke_witness :
  on_checkin_poke
    (Some {| event_id := VNum 7; resource_ids := Some [VNum 1001] |})
    (initial evt42 0)
  = initial evt42 0.
Proof.
  apply foreign_poke_changes_nothing. right. eexists. split; [reflexivity|].
  vm_compute. discriminate.
Defined.

(** A poke for the subscribed event, with the id sent as a number, does
    fetch the message and arm the refresh. *)
Example matching_poke_acts :
  let d := on_checkin_poke
             (Some {| event_id := VNum 42; resource_ids := Some [VNum 1001] |})
             (initial evt42 0) in
  effects d = [FetchCheckinMessage (VNum 1001)]
  /\ timers d = [{| tid := 1; due := 3000; act := Refresh |}]
  /\ pendingStatsRefresh d = Some 1.
Proof. vm_compute. by split_and!. Qed.

(** ** Timers *)

Lemma earliest_is_Some ts : ts <> [] -> is_Some (earliest ts).
Proof. destruct ts; [done|]. cbn. intros _. by repeat case_match. Qed.

Lemma earliest_spec ts tm :
  earliest ts = Some tm ->
  tm ∈ ts /\ forall u, u ∈ ts -> (due tm <= due u)%N.
Proof.
  revert tm. induction ts as [|t r IH]; intros tm; [done|]. cbn.
  destruct (earliest r) as [u|] eqn:E.
  - destruct (IH u eq_refl) as [Hin Hmin].
    destruct (N.ltb_spec (due u) (due t)); intros [= <-].
    + split; [by right|]. intros v [->|Hv]%elem_of_cons; [lia|auto].
    + split; [by left|]. intros v [->|Hv]%elem_of_cons; [lia|].
      specialize (Hmin v Hv). lia.
  - intros [= <-]. destruct r as [|t' r].
    + split; [by left|]. by intros v ->%list_elem_of_singleton.
    + destruct (earliest_is_Some (t' :: r)) as [? ?]; congruence.
Qed.

Lemma filter_tid_NoDup f (ts : list timer) :
  NoDup (map tid ts) -> NoDup (map tid (List.filter f ts)).
Proof.
  induction ts as [|t r IH]; [done|]. cbn. intros [Hn Hr]%NoDup_cons.
  destruct (f t); [|auto]. cbn. apply NoDup_cons. split; [|auto].
  rewrite list_elem_of_fmap in *. intros (u & Hu & Hin). apply Hn.
  exists u. split; [done|]. apply list_elem_of_In in Hin.
  apply filter_In in Hin as [Hin _]. by apply list_elem_of_In.
Qed.

Lemma same_tid_same_timer (ts : list timer) tm u :
  NoDup (map tid ts) -> tm ∈ ts -> u ∈ ts -> tid u = tid tm -> u = tm.
Proof.
  induction ts as [|t r IH]; [by intros _ ?%elem_of_nil|].
  cbn. intros [Hn Hr]%NoDup_cons [->|H1]%elem_of_cons [->|H2]%elem_of_cons E;
    auto.
  - exfalso. apply Hn. rewrite <- E. by apply list_elem_of_fmap_2.
  - exfalso. apply Hn. rewrite E. by apply list_elem_of_fmap_2.
Qed.

Lemma filter_filter_refresh g (ts : list timer) :
  (forall u, u ∈ ts -> g u = false -> is_refresh u = false) ->
  List.filter is_refresh (List.filter g ts) = List.filter is_refresh ts.
Proof.
  induction ts as [|t r IH]; [done|]. intros H. cbn.
  assert (Hr : forall u, u ∈ r -> g u = false -> is_refresh u = false).
  { intros u Hu. apply H. by right. }
  destruct (g t) eqn:E; cbn; rewrite (IH Hr); [done|].
  by rewrite (H t (list_elem_of_here _ _) E).
Qed.

(** ** One timer fires *)

Lemma fire_clear tm d :
  tidy d -> tm ∈ timers d -> act tm = ClearRecent ->
  let d' := fire tm d in
  tidy d'
  /\ stats_fetches d' = stats_fetches d
  /\ pendingStatsRefresh d' = pendingStatsRefresh d
  /\ next_timer d' = next_timer d
  /\ now d' = N.max (now d) (due tm)
  /\ timers d' = List.filter (fun t => negb (tid t =? tid tm)) (timers d)
  /\ List.filter is_refresh (timers d') = List.filter is_refresh (timers d).
Proof.
  intros [Hnd Hall] Hin Hact. unfold fire. rewrite Hact. cbn.
  split_and!; try done.
  - split; cbn; [by apply filter_tid_NoDup|by apply filter_Forall].
  - apply filter_filter_refresh. intros u Hu Hg.
    apply negb_false_iff, Nat.eqb_eq in Hg.
    rewrite (same_tid_same_timer _ tm u Hnd Hin Hu Hg).
    unfold is_refresh. apply bool_decide_eq_false_2. by rewrite Hact.
Qed.

(** ** The clock runs while no refresh is due *)

Lemma fire_due_quiet k T : forall d,
  tidy d ->
  (forall tm, tm ∈ timers d -> act tm = Refresh -> (T < due tm)%N) ->
  let d' := fire_due k T d in
  tidy d'
  /\ stats_fetches d' = stats_fetches d
  /\ pendingStatsRefresh d' = pendingStatsRefresh d
  /\ next_timer d' = next_timer d
  /\ List.filter is_refresh (timers d') = List.filter is_refresh (timers d)
  /\ ((now d <= T)%N -> (now d' <= T)%N).
Proof.
  induction k as [|k IH]; intros d Hd Hlate; cbn; [done|].
  destruct (earliest (timers d)) as [tm|] eqn:E; [|done].
  destruct (N.leb_spec (due tm) T) as [Hdue|]; [|done].
  destruct (earliest_spec _ _ E) as [Hin _].
  assert (Hact : act tm = ClearRecent).
  { destruct Hd as [_ Hall]. rewrite Forall_forall in Hall.
    destruct (Hall tm Hin) as [_ [?|[Hr _]]]; [done|].
    specialize (Hlate tm Hin Hr). lia. }
  destruct (fire_clear tm d Hd Hin Hact) as (H1 & H2 & H3 & H4 & H5 & H6 & H7).
  destruct (IH (fire tm d) H1) as (I1 & I2 & I3 & I4 & I5 & I6).
  { intros u Hu. rewrite H6 in Hu. apply elem_of_filter_bool in Hu as [Hu _].
    by apply Hlate. }
  split_and!; try congruence. intros Hnow. apply I6. lia.
Qed.

Lemma advance_quiet T d :
  tidy d ->
  (forall tm, tm ∈ timers d -> act tm = Refresh -> (T < due tm)%N) ->
  (now d <= T)%N ->
  let d' := advance T d in
  tidy d'
  /\ stats_fetches d' = stats_fetches d
  /\ pendingStatsRefresh d' = pendingStatsRefresh d
  /\ List.filter is_refresh (timers d') = List.filter is_refresh (timers d)
  /\ now d' = T.
Proof.
  intros Hd Hlate Hnow.
  destruct (fire_due_quiet (length (timers d)) T d Hd Hlate)
    as (H1 & H2 & H3 & H4 & H5 & H6).
  unfold advance. cbn. split_and!; try done. specialize (H6 Hnow). lia.
Qed.


(** ** The handler arms the refresh *)

Lemma count_checkin_tidy c d :
  tidy d ->
  tidy (count_checkin c d)
  /\ now (count_checkin c d) = now d
  /\ stats_fetches (count_checkin c d) = stats_fetches d.
Proof.
  intros Hd. unfold count_checkin.
  case_bool_decide; [by split_and!|].
  case_bool_decide; [|by split_and!].
  destruct (truthy (session_id c)); [|by split_and!].
  cbn. split_and!; try done.
  destruct Hd as [Hnd Hall]. split; cbn.
  - rewrite map_app. cbn. apply NoDup_app. split_and!; [done| |apply NoDup_singleton].
    intros i Hi Hj%list_elem_of_singleton.
    apply list_elem_of_fmap in Hi as (tm & Htm & Hin).
    rewrite Forall_forall in Hall. destruct (Hall tm Hin). lia.
  - apply Forall_app. split.
    + eapply Forall_impl; [exact Hall|]. cbn. intros tm [? ?]. split; [lia|done].
    + constructor; [|done]. cbn. split; [lia|by left].
Qed.

Lemma schedule_refresh_arms d :
  tidy d ->
  armed (schedule_refresh CHECKIN_DEBOUNCE d) (now d) (stats_fetches d).
Proof.
  intros [Hnd Hall].
  set (d1 := match pendingStatsRefresh d with
             | Some i => clearTimeout i d
             | None => d
             end).
  assert (H1 : NoDup (map tid (timers d1))
               /\ Forall (fun tm => tid tm < next_timer d /\ act tm = ClearRecent)
                         (timers d1)
               /\ next_timer d1 = next_timer d /\ now d1 = now d
               /\ stats_fetches d1 = stats_fetches d).
  { subst d1. destruct (pendingStatsRefresh d) as [i|] eqn:Ep; cbn.
    - split_and!; try done; [by apply filter_tid_NoDup|].
      rewrite Forall_forall in *. intros tm [Hin Hne]%elem_of_filter_bool.
      destruct (Hall tm Hin) as [? [?|[_ [= ->]]]]; [done|].
      by rewrite Nat.eqb_refl in Hne.
    - split_and!; try done. eapply Forall_impl; [exact Hall|].
      cbn. by intros tm [? [?|[_ ?]]]. }
  destruct H1 as (Hnd1 & Hall1 & Hnx & Hnow & Hlog).
  unfold schedule_refresh. fold d1. cbn. unfold armed, tidy. cbn.
  rewrite Hnx, Hnow. split_and!; try done.
  - rewrite map_app. cbn. apply NoDup_app. split_and!; [done| |apply NoDup_singleton].
    intros i Hi Hj%list_elem_of_singleton.
    apply list_elem_of_fmap in Hi as (tm & Htm & Hin).
    rewrite Forall_forall in Hall1. destruct (Hall1 tm Hin). lia.
  - apply Forall_app. split.
    + eapply Forall_impl; [exact Hall1|]. cbn. intros tm [? ?]. split; [lia|by left].
    + constructor; [|done]. cbn. split; [lia|by right].
  - eexists. split; [done|]. rewrite List.filter_app. cbn.
    replace (List.filter is_refresh (timers d1)) with (@nil timer); [done|].
    symmetry. clear -Hall1. induction Hall1 as [|tm r [_ Ha] _ IH]; [done|].
    cbn. unfold is_refresh at 1. rewrite Ha. by cbn.
Qed.

Lemma on_checkin_event_arms data d :
  tidy d ->
  armed (on_checkin_event data d) (now d) (stats_fetches d).
Proof.
  intros Hd. unfold on_checkin_event.
  set (d1 := if truthy (message data) then show_message data d else d).
  assert (H1 : tidy d1 /\ now d1 = now d /\ stats_fetches d1 = stats_fetches d).
  { subst d1. by destruct (truthy (message data)). }
  destruct H1 as (T1 & N1 & L1).
  set (d2 := if bool_decide _ then count_checkin data d1 else d1).
  assert (H2 : tidy d2 /\ now d2 = now d /\ stats_fetches d2 = stats_fetches d).
  { subst d2. case_bool_decide; [|done].
    destruct (count_checkin_tidy data d1 T1) as (? & ? & ?).
    split_and!; congruence. }
  destruct H2 as (T2 & N2 & L2).
  set (d3 := if symphony_on d2 then perform PlayNextNote d2 else d2).
  assert (H3 : tidy d3 /\ now d3 = now d /\ stats_fetches d3 = stats_fetches d).
  { subst d3. destruct (symphony_on d2); [|done]. split_and!; try done.
    unfold stats_fetches in *. cbn. rewrite omap_app. cbn.
    by rewrite app_nil_r. }
  destruct H3 as (T3 & N3 & L3).
  rewrite <- N3, <- L3. by apply schedule_refresh_arms.
Qed.


(** ** The refresh fires *)

Lemma refresh_is_the_one (ts : list timer) r u :
  List.filter is_refresh ts = [r] -> u ∈ ts -> act u = Refresh -> u = r.
Proof.
  intros Hf Hu Ha.
  assert (H : u ∈ List.filter is_refresh ts).
  { apply elem_of_filter_bool. split; [done|]. by apply bool_decide_eq_true_2. }
  rewrite Hf in H. by apply list_elem_of_singleton in H.
Qed.

Lemma fire_due_fetches T r log k : forall d,
  tidy d ->
  List.filter is_refresh (timers d) = [r] ->
  (now d <= due r)%N -> (due r <= T)%N ->
  stats_fetches d = log ->
  length (timers d) <= k ->
  stats_fetches (fire_due k T d) = log ++ [due r].
Proof.
  induction k as [|k IH]; intros d Hd Hr Hnow HT Hlog Hk.
  { assert (Hin : r ∈ List.filter is_refresh (timers d)) by (rewrite Hr; by left).
    apply elem_of_filter_bool in Hin as [Hin _].
    destruct (timers d); [by apply elem_of_nil in Hin|cbn in Hk; lia]. }
  assert (Hin : r ∈ timers d /\ act r = Refresh).
  { assert (H : r ∈ List.filter is_refresh (timers d)) by (rewrite Hr; by left).
    apply elem_of_filter_bool in H as [? H]. split; [done|].
    by apply bool_decide_eq_true_1 in H. }
  destruct Hin as [Hin Har].
  destruct (earliest_is_Some (timers d)) as [tm E].
  { intros Hnil. rewrite Hnil in Hin. by apply elem_of_nil in Hin. }
  destruct (earliest_spec _ _ E) as [Htm Hmin].
  pose proof (Hmin r Hin) as Hle.
  cbn. rewrite E. destruct (N.leb_spec (due tm) T) as [_|]; [|lia].
  pose proof Hd as [Hnd Hall]. rewrite Forall_forall in Hall.
  destruct (Hall tm Htm) as [_ [Hact|[Hact _]]].
  - (* an animation timer goes first *)
    destruct (fire_clear tm d Hd Htm Hact) as (H1 & H2 & H3 & H4 & H5 & H6 & H7).
    apply IH; try done; try congruence.
    + lia.
    + rewrite H6.
      assert (length (List.filter (fun t => negb (tid t =? tid tm)) (timers d))
              < length (timers d)); [|lia].
      apply (filter_length_lt _ _ tm Htm). by rewrite Nat.eqb_refl.
  - (* the refresh itself *)
    assert (tm = r) as -> by (by eapply refresh_is_the_one).
    set (d' := fire r d).
    assert (Hlog' : stats_fetches d' = log ++ [due r]).
    { subst d'. unfold fire. rewrite Har. unfold stats_fetches in *. cbn.
      rewrite !omap_app, Hlog. cbn. rewrite app_nil_r.
      do 3 f_equal. lia. }
    assert (Hcalm : tidy d' /\ forall u, u ∈ timers d' -> act u = ClearRecent).
    { assert (Hc : forall u, u ∈ timers d' -> act u = ClearRecent).
      { subst d'. unfold fire. rewrite Har. cbn.
        intros u [Hu Hne]%elem_of_filter_bool.
        destruct (Hall u Hu) as [_ [?|[Hu' _]]]; [done|].
        rewrite (refresh_is_the_one _ _ _ Hr Hu Hu') in Hne.
        by rewrite Nat.eqb_refl in Hne. }
      split; [|done]. split.
      - subst d'. unfold fire. rewrite Har. cbn. by apply filter_tid_NoDup.
      - apply Forall_forall. intros u Hu. split; [|left; by apply Hc].
        subst d'. unfold fire in *. rewrite Har in *. cbn in *.
        apply elem_of_filter_bool in Hu as [Hu _]. by destruct (Hall u Hu). }
    destruct Hcalm as [Hd' Hc].
    destruct (fire_due_quiet k T d' Hd') as (_ & H2 & _).
    { intros u Hu Hact'. rewrite (Hc u Hu) in Hact'. done. }
    by rewrite H2.
Qed.

(** ** A burst *)

Lemma last_arrival_cons t ev evs :
  last_arrival t (ev :: evs) = last_arrival (fst ev) evs.
Proof.
  unfold last_arrival. cbn [map]. destruct (map fst evs) as [|n l]; [done|].
  change (last (fst ev :: n :: l)) with (last (n :: l)).
  destruct (last (n :: l)) eqn:El; [done|]. by apply last_None in El.
Qed.

Lemma armed_refresh_late d t log T :
  armed d t log -> (T < t + CHECKIN_DEBOUNCE)%N ->
  forall tm, tm ∈ timers d -> act tm = Refresh -> (T < due tm)%N.
Proof.
  intros (_ & _ & _ & j & _ & Hf) HT tm Htm Hact.
  by rewrite (refresh_is_the_one _ _ _ Hf Htm Hact).
Qed.

Lemma receive_keeps_armed ev d t log :
  armed d t log -> (t <= fst ev < t + CHECKIN_DEBOUNCE)%N ->
  armed (receive d ev) (fst ev) log.
Proof.
  intros Ha [Hle Hlt]. pose proof Ha as (Hd & Hnow & Hlog & _).
  destruct (advance_quiet (fst ev) d Hd (armed_refresh_late _ _ _ _ Ha Hlt))
    as (H1 & H2 & H3 & H4 & H5); [lia|].
  unfold receive. rewrite <- H5 at 2. rewrite <- Hlog, <- H2.
  by apply on_checkin_event_arms.
Qed.

Lemma burst_keeps_armed evs : forall d t log,
  armed d t log -> burst t evs ->
  armed (receive_all evs d) (last_arrival t evs) log.
Proof.
  induction evs as [|ev evs IH]; intros d t log Ha Hb; [done|].
  destruct Hb as [Hev Hb]. rewrite last_arrival_cons. cbn.
  apply IH; [|done]. by apply (receive_keeps_armed ev d t).
Qed.

(** C5.  Start in a tidy state in which a refresh, if one is scheduled, is
    not yet due when the first [checkin_event] arrives, and let events
    arrive, each less than a debounce window after the one before.  Every
    event cancels the refresh that is pending and arms a new one: after the
    burst exactly one refresh timer is pending, the one
    [pendingStatsRefreshRef] names, due a full window after the last event;
    no stats fetch went out during the burst; none goes out before that
    time; and once that time is reached exactly one has gone out, at that
    time. *)
Theorem burst_yields_one_refresh (d0 : dash) (ev : N * checkin)
    (evs : list (N * checkin)) :
  tidy d0 ->
  (forall tm, tm ∈ timers d0 -> act tm = Refresh -> (fst ev < due tm)%N) ->
  (now d0 <= fst ev)%N ->
  burst (fst ev) evs ->
  let d := receive_all (ev :: evs) d0 in
  let t := last_arrival (fst ev) evs in
  (exists j, pendingStatsRefresh d = Some j
     /\ List.filter is_refresh (timers d)
        = [{| tid := j; due := (t + CHECKIN_DEBOUNCE)%N; act := Refresh |}])
  /\ stats_fetches d = stats_fetches d0
  /\ (forall T, (t <= T < t + CHECKIN_DEBOUNCE)%N ->
        stats_fetches (advance T d) = stats_fetches d0)
  /\ (forall T, (t + CHECKIN_DEBOUNCE <= T)%N ->
        stats_fetches (advance T d) = stats_fetches d0 ++ [(t + CHECKIN_DEBOUNCE)%N]).
Proof.
  intros Hd Hlate Hnow Hburst d t.
  assert (Ha : armed d t (stats_fetches d0)).
  { subst d t.
    change (receive_all (ev :: evs) d0) with (receive_all evs (receive d0 ev)).
    apply burst_keeps_armed; [|done].
    destruct (advance_quiet (fst ev) d0 Hd Hlate Hnow)
      as (H1 & H2 & H3 & H4 & H5).
    unfold receive. rewrite <- H5 at 2. rewrite <- H2.
    by apply on_checkin_event_arms. }
  clearbody d t. clear Hd. pose proof Ha as (Hd & Hn & Hlog & j & Hp & Hf).
  split_and!; [by exists j|done| |].
  - intros T [HT1 HT2].
    destruct (advance_quiet T d Hd (armed_refresh_late _ _ _ _ Ha HT2))
      as (_ & H2 & _); [lia|]. by rewrite H2.
  - intros T HT.
    change (stats_fetches (advance T d))
      with (stats_fetches (fire_due (length (timers d)) T d)).
    rewrite (fire_due_fetches T _ (stats_fetches d0) _ d Hd Hf);
      cbn; try done; lia.
Qed.

(** A poke at 0 ms schedules a refresh for 3 s; events at 1 s and 6 s cancel
    it and re-arm: one fetch, 10 s after the second event, and none at 3 s. *)
Lemma burst_witness :
  let d0 := on_checkin_poke
              (Some {| event_id := VNum 42; resource_ids := None |})
              (initial evt42 0) in
  let d := receive_all [(1000%N, session_checkin); (6000%N, session_checkin)]
             d0 in
  timers d0 = [{| tid := 1; due := 3000; act := Refresh |}]
  /\ stats_fetches (advance 15999 d) = []
  /\ stats_fetches (advance 20000 d) = [16000%N].
Proof.
  intros d0 d.
  destruct (burst_yields_one_refresh d0 (1000%N, session_checkin)
              [(6000%N, session_checkin)]) as (_ & _ & H1 & H2).
  - split; [apply NoDup_singleton|].
    constructor; [|constructor]. split; [vm_compute; lia|by right].
  - intros tm Htm%list_elem_of_singleton _. subst tm. by vm_compute.
  - by vm_compute.
  - vm_compute. by split_and!.
  - split_and!.
    + reflexivity.
    + apply (H1 15999%N). vm_compute. by split.
    + apply (H2 20000%N). by vm_compute.
Defined.

(** Every event re-arms: after each event of a burst the one pending
    refresh is due a window after that event. *)
Example each_event_rearms :
  let d1 := receive (initial evt42 0) (0%N, session_checkin) in
  let d2 := receive d1 (5000%N, session_checkin) in
  List.filter is_refresh (timers d1)
  = [{| tid := 2; due := 10000; act := Refresh |}]
  /\ List.filter is_refresh (timers d2)
     = [{| tid := 4; due := 15000; act := Refresh |}].
Proof. vm_compute. by split. Qed.

End DashboardFacts.

(* ===================================================================== *)
(** * The bubbles: the cap and the drain loop *)
(* ===================================================================== *)

Section BubbleFacts.
Import Text Bubbles Samples.

(** ** The cap *)

Lemma add_updater_cases b l :
  length l <= MAX_BUBBLES ->
  add_updater b l
  = if decide (length l = MAX_BUBBLES) then drop 1 l ++ [b] else l ++ [b].
Proof.
  intros Hl. unfold add_updater. rewrite length_app. cbn [length].
  case_bool_decide as H; case_decide as H'; try lia; [|done].
  replace (length l + 1 - MAX_BUBBLES) with 1 by lia.
  rewrite drop_app_le; [done|]. rewrite H'. unfold MAX_BUBBLES. lia.
Qed.

Lemma add_updater_length b l :
  length l <= MAX_BUBBLES -> length (add_updater b l) <= MAX_BUBBLES.
Proof.
  intros Hl. rewrite add_updater_cases by done. case_decide as H.
  - rewrite length_app, length_drop. unfold MAX_BUBBLES in *. cbn. lia.
  - rewrite length_app. unfold MAX_BUBBLES in *. cbn. lia.
Qed.

Lemma expire_updater_length i l :
  length (expire_updater i l) <= length l.
Proof. apply filter_length_le. Qed.

Lemma apply_ops_length ops : forall l,
  length l <= MAX_BUBBLES -> length (apply_ops ops l) <= MAX_BUBBLES.
Proof.
  induction ops as [|o ops IH]; intros l Hl; [done|]. cbn. apply IH.
  destruct o as [b|i]; cbn.
  - by apply add_updater_length.
  - pose proof (expire_updater_length i l). lia.
Qed.

(** C4.  After any run of the two updaters from the empty list at most
    [MAX_BUBBLES] = 12 bubbles are in the list; adding one more keeps it so,
    and the addition is never refused: below the cap the new bubble is
    appended, at the cap the oldest one (the head) is dropped and the new one
    appended, the others keeping their order. *)
Theorem bubbles_capped_oldest_evicted (ops : list bubble_op) (b : bubble) :
  let l := apply_ops ops [] in
  length l <= MAX_BUBBLES
  /\ length (add_updater b l) <= MAX_BUBBLES
  /\ add_updater b l
     = if decide (length l = MAX_BUBBLES) then drop 1 l ++ [b] else l ++ [b].
Proof.
  intros l.
  assert (Hl : length l <= MAX_BUBBLES).
  { apply apply_ops_length. cbn. unfold MAX_BUBBLES. lia. }
  split_and!; [done|by apply add_updater_length|by apply add_updater_cases].
Qed.

(** ** The queue *)

Lemma spaced_snoc l t' :
  spaced l ->
  (forall t, last l = Some t -> (t + STAGGER <= t')%N) ->
  spaced (l ++ [t']).
Proof.
  induction l as [|t1 [|t2 r] IH]; intros Hs Hlast; [done| |].
  - cbn. split; [|done]. by apply Hlast.
  - destruct Hs as [H12 Hs]. split; [done|]. apply IH; [done|].
    intros t Ht. by apply Hlast.
Qed.

Lemma no_next_not_elem (ts : list (N * action)) t :
  length (List.filter is_next ts) = 0 -> (t, ProcessNext) ∉ ts.
Proof.
  intros H Hin.
  assert (Hf : (t, ProcessNext) ∈ List.filter is_next ts).
  { by apply elem_of_filter_bool. }
  destruct (List.filter is_next ts); [by apply elem_of_nil in Hf|done].
Qed.

Lemma initial_inv t0 : inv (initial t0).
Proof.
  split; cbn; try done. unfold MAX_BUBBLES. lia.
Qed.

Lemma on_message_inv m r c : inv c -> inv (on_message m r c).
Proof.
  intros [H1 H2 H3 H4 H5 H6]. unfold on_message.
  match goal with |- context [match ?x with Some _ => _ | None => _ end] =>
    destruct x as [txt|] end; [|by split].
  set (entry := match m with MsgObject _ _ _ _ => _ | _ => _ end).
  assert (He : q_message entry = txt) by (subst entry; by destruct m).
  clearbody entry. split; cbn.
  - rewrite map_app, app_assoc, H1. cbn. by rewrite He.
  - rewrite List.filter_app, length_app. cbn. lia.
  - intros _. right. eexists. apply elem_of_app. right. by left.
  - done.
  - intros t Ht. specialize (H5 t Ht). destruct (processing c); [|done].
    intros t' [Hin|Hin]%elem_of_app; [by apply H5|].
    by apply list_elem_of_singleton in Hin.
  - done.
Qed.

Lemma wait_inv t c : (now c <= t)%N -> inv c -> inv (with_now t c).
Proof.
  intros Ht [H1 H2 H3 H4 H5 H6]. split; cbn; try done.
  intros u Hu. specialize (H5 u Hu). destruct (processing c); [done|lia].
Qed.

(** Presenting the head of the queue, from a state whose processing flag is
    up and in which no [processNext] is pending. *)
Lemma present_inv r q rest c :
  messageQueue c = q :: rest ->
  processing c = true ->
  length (List.filter is_next (timers c)) = 0 ->
  map snd (presented c) ++ map q_message (messageQueue c) = accepted c ->
  spaced (map fst (presented c)) ->
  (forall t, last (map fst (presented c)) = Some t -> (t + STAGGER <= now c)%N) ->
  length (bubbles c) <= MAX_BUBBLES ->
  inv (processNext r c).
Proof.
  intros Hq Hp Hn H1 H4 H5 H6. unfold processNext. rewrite Hq.
  split; cbn -[last spaced List.filter].
  - rewrite map_app, <- app_assoc. cbn. by rewrite <- H1, Hq.
  - rewrite Hp, !List.filter_app, !length_app, Hn. by cbn.
  - rewrite Hp. auto.
  - rewrite map_app. cbn. by apply spaced_snoc.
  - rewrite Hp, map_app. cbn [map fst]. rewrite last_snoc.
    intros t [= <-] t' Hin.
    rewrite <- app_assoc in Hin. apply elem_of_app in Hin as [Hin|Hin].
    + by apply no_next_not_elem in Hin.
    + apply elem_of_cons in Hin as [[=]|Hin].
      apply list_elem_of_singleton in Hin as [= <-]. done.
  - by apply add_updater_length.
Qed.


Lemma fire_inv before t a after r c :
  timers c = before ++ (t, a) :: after ->
  (t <= now c)%N ->
  inv c ->
  inv (run a r (with_timers (before ++ after) c)).
Proof.
  intros Ht Hdue [H1 H2 H3 H4 H5 H6].
  rewrite Ht, filter_without in H2.
  set (c1 := with_timers (before ++ after) c).
  assert (Hin : (t, a) ∈ timers c).
  { rewrite Ht. apply elem_of_app. right. by left. }
  destruct a as [| |i]; cbn [run].
  - (* processMessageQueue *)
    cbn in H2. rewrite Nat.add_0_r in H2.
    unfold processMessageQueue.
    change (processing c1) with (processing c).
    change (messageQueue c1) with (messageQueue c).
    destruct (processing c) eqn:Hp.
    + split; cbn; rewrite ?Hp; try done; [by left|].
      intros u Hu. specialize (H5 u Hu). 
      intros t' Ht'. apply H5. rewrite Ht. by apply elem_of_without.
    + destruct (messageQueue c) as [|q rest] eqn:Hq.
      * split; cbn; rewrite ?Hq, ?Hp; try done.
      * apply (present_inv r q rest); cbn; rewrite ?Hq; try done.
        all: intros u Hu; by specialize (H5 u Hu).
  - (* processNext *)
    cbn in H2. destruct (processing c) eqn:Hp; [|lia].
    assert (H0 : length (List.filter is_next (before ++ after)) = 0) by lia.
    assert (Hlast : forall u, last (map fst (presented c)) = Some u ->
                      (u + STAGGER <= now c)%N).
    { intros u Hu. specialize (H5 u Hu t Hin). lia. }
    destruct (messageQueue c) as [|q rest] eqn:Hq.
    + unfold processNext. change (messageQueue c1) with (messageQueue c).
      rewrite Hq.
      split; cbn; rewrite ?Hq; try done.
    + apply (present_inv r q rest); cbn; rewrite ?Hq; try done.
  - (* a bubble's lifetime ends *)
    cbn in H2. rewrite Nat.add_0_r in H2.
    split; cbn; try done.
    + intros Hne. destruct (H3 Hne) as [?|[t' Ht']]; [by left|right].
      exists t'. rewrite Ht in Ht'. by apply (elem_of_with _ _ _ _ Ht').
    + intros u Hu. specialize (H5 u Hu). destruct (processing c); [|done].
      intros t' Ht'. apply H5. rewrite Ht. by apply elem_of_without.
    + eapply Nat.le_trans; [apply filter_length_le|exact H6].
Qed.

Lemma step_inv c c' : step c c' -> inv c -> inv c'.
Proof.
  destruct 1 as [m r c|t c Ht|before t a after r c Ht Hdue]; intros Hc.
  - by apply on_message_inv.
  - by apply wait_inv.
  - by apply (fire_inv before t a after).
Qed.

Lemma reachable_inv c : reachable c -> inv c.
Proof.
  induction 1 as [t0|c c' _ IH Hs]; [apply initial_inv|by eapply step_inv].
Qed.

Lemma quiescent_drained c :
  inv c -> quiescent c -> messageQueue c = [] /\ processing c = false.
Proof.
  intros [H1 H2 H3 H4 H5 H6] Hq. unfold quiescent in Hq.
  assert (Hno : forall ta, ta ∈ timers c -> is_drain ta = false).
  { intros ta Hin. destruct (is_drain ta) eqn:E; [|done].
    assert (ta ∈ List.filter is_drain (timers c)) by (by apply elem_of_filter_bool).
    rewrite Hq in *. by apply elem_of_nil in H. }
  assert (Hp : processing c = false).
  { destruct (processing c); [|done].
    destruct (List.filter is_next (timers c)) as [|ta ?] eqn:E; [done|].
    assert (Hta : ta ∈ List.filter is_next (timers c)) by (rewrite E; by left).
    apply elem_of_filter_bool in Hta as [Hta Hn].
    specialize (Hno ta Hta). destruct ta as [u []]; done. }
  split; [|done].
  destruct (messageQueue c) as [|q rest]; [done|].
  destruct H3 as [?|[t Ht]]; [done|congruence|].
  by specialize (Hno _ Ht).
Qed.


(** ** The drain loop comes to rest *)

Lemma fire_backlog before t a after r c :
  timers c = before ++ (t, a) :: after ->
  is_drain (t, a) = true ->
  let c' := run a r (with_timers (before ++ after) c) in
  backlog c' < backlog c /\ accepted c' = accepted c.
Proof.
  intros Ht Ha. unfold backlog. rewrite Ht, filter_without, Ha.
  destruct a as [| |i]; [| |done]; cbn [run].
  - unfold processMessageQueue. cbn [processing with_timers].
    destruct (processing c); [split; [cbn; lia|done]|].
    cbn [messageQueue with_timers].
    destruct (messageQueue c) as [|q rest] eqn:Hq.
    { split; [cbn; rewrite Hq; cbn; lia|done]. }
    unfold processNext. cbn. rewrite Hq. cbn.
    rewrite !List.filter_app, !length_app. split; [cbn; lia|done].
  - unfold processNext. cbn [messageQueue with_timers].
    destruct (messageQueue c) as [|q rest] eqn:Hq.
    { split; [cbn; rewrite Hq; cbn; lia|done]. }
    cbn. rewrite !List.filter_app, !length_app. split; [cbn; lia|done].
Qed.

Lemma drains_within n : forall c,
  backlog c <= n ->
  exists c', rtc drain_step c c' /\ quiescent c' /\ accepted c' = accepted c.
Proof.
  induction n as [|n IH]; intros c Hn.
  - exists c. split_and!; [done| |done]. unfold quiescent, backlog in *.
    destruct (List.filter is_drain (timers c)); [done|cbn in Hn; lia].
  - destruct (List.filter is_drain (timers c)) as [|[t a] l] eqn:E.
    { by exists c. }
    assert (Hin : (t, a) ∈ List.filter is_drain (timers c)) by (rewrite E; by left).
    apply elem_of_filter_bool in Hin as [Hin Ha].
    apply list_elem_of_split in Hin as (before & after & Ht).
    set (cw := with_now (N.max (now c) t) c).
    destruct (fire_backlog before t a after no_draws cw Ht Ha) as [Hlt Hacc].
    destruct (IH (run a no_draws (with_timers (before ++ after) cw)))
      as (c' & Hsteps & Hq & Hacc').
    { unfold backlog in *. cbn in *. lia. }
    exists c'. split_and!; [|done|by rewrite Hacc'].
    eapply rtc_l; [apply (drain_wait (N.max (now c) t)); lia|].
    eapply rtc_l; [|exact Hsteps].
    apply (drain_fire before t a after no_draws cw Ht); [cbn; lia|done].
Qed.

Lemma reachable_steps c c' : reachable c -> rtc step c c' -> reachable c'.
Proof.
  intros Hc Hs. induction Hs as [|c c1 c2 H1 _ IH]; [done|].
  apply IH. by eapply reachable_step.
Qed.

Lemma drain_step_step c c' : drain_step c c' -> step c c'.
Proof.
  destruct 1 as [t c Ht|before t a after r c Ht Hdue _].
  - by apply step_wait.
  - by apply (step_fire before t a after).
Qed.

Lemma drain_run_run c c' : rtc drain_step c c' -> rtc step c c'.
Proof.
  induction 1 as [|c c1 c2 H _ IH]; [done|].
  eapply rtc_l; [by apply drain_step_step|done].
Qed.

(** ** What the drain loop puts on the screen *)

Lemma newest_all {A} n (l : list A) : length l <= n -> newest n l = l.
Proof. intros H. unfold newest. by replace (length l - n) with 0 by lia. Qed.

Lemma newest_app {A} n (l k : list A) :
  newest n (newest n l ++ k) = newest n (l ++ k).
Proof.
  destruct (decide (length l <= n)) as [H|H].
  { by rewrite (newest_all n l). }
  unfold newest. rewrite !length_app, length_drop.
  rewrite <- (drop_app_le l k) by lia. rewrite drop_drop. f_equal. lia.
Qed.

Lemma newest_snoc_last {A} n (l : list A) x :
  0 < n -> last (newest n (l ++ [x])) = Some x.
Proof.
  intros Hn. unfold newest. rewrite length_app. cbn [length].
  rewrite drop_app_le by lia. apply last_snoc.
Qed.

Lemma map_newest {A B} (f : A -> B) n l :
  map f (newest n l) = newest n (map f l).
Proof. unfold newest. by rewrite length_map, <- fmap_drop. Qed.

Lemma add_updater_newest b l : add_updater b l = newest MAX_BUBBLES (l ++ [b]).
Proof.
  unfold add_updater. case_bool_decide as H; [done|].
  by rewrite newest_all by lia.
Qed.

(** Presenting the head of the queue puts its bubble last on the screen. *)
Lemma processNext_shows r q rest c :
  messageQueue c = q :: rest ->
  exists b,
    bubbles (processNext r c) = newest MAX_BUBBLES (bubbles c ++ [b])
    /\ message b = q_message q /\ eventType b = q_eventType q.
Proof.
  intros Hq. unfold processNext. rewrite Hq. cbn.
  eexists. split; [apply add_updater_newest|]. done.
Qed.

Lemma shows_none c c' :
  length (bubbles c) <= MAX_BUBBLES ->
  messageQueue c' = messageQueue c -> bubbles c' = bubbles c -> shows c c' 0.
Proof.
  intros Hl Hq Hb. split; [by rewrite drop_0|].
  rewrite take_0, app_nil_r, Hb, newest_all; [done|]. by rewrite length_map.
Qed.

Lemma shows_head r q rest c c0 :
  messageQueue c0 = q :: rest ->
  messageQueue c = messageQueue c0 -> bubbles c = bubbles c0 ->
  shows c0 (processNext r c) 1.
Proof.
  intros Hq Hq' Hb. split.
  - unfold processNext. rewrite Hq', Hq. done.
  - destruct (processNext_shows r q rest c) as (b & -> & Hm & _);
      [by rewrite Hq'|].
    rewrite map_newest, map_app, Hb, Hq. cbn. by rewrite Hm, take_0.
Qed.

Lemma drain_step_shows c c' :
  drain_step c c' -> length (bubbles c) <= MAX_BUBBLES ->
  exists k, shows c c' k.
Proof.
  destruct 1 as [t c Ht|before t a after r c Ht Hdue Ha]; intros Hl.
  { exists 0. by apply shows_none. }
  destruct a as [| |i]; [| |done]; cbn [run].
  - unfold processMessageQueue. cbn [processing with_timers messageQueue].
    destruct (processing c); [exists 0; by apply shows_none|].
    destruct (messageQueue c) as [|q rest] eqn:Hq.
    { exists 0. by apply shows_none. }
    exists 1. by apply (shows_head r q rest).
  - destruct (messageQueue c) as [|q rest] eqn:Hq.
    { exists 0. apply shows_none; [done| |].
      all: unfold processNext; cbn; by rewrite Hq. }
    exists 1. by apply (shows_head r q rest).
Qed.

Lemma shows_trans c c1 c2 k1 k2 :
  shows c c1 k1 -> shows c1 c2 k2 -> shows c c2 (k1 + k2).
Proof.
  intros [Hq1 Hb1] [Hq2 Hb2]. split.
  - by rewrite Hq2, Hq1, drop_drop.
  - rewrite Hb2, Hb1, Hq1, newest_app, <- app_assoc, <- map_app.
    by rewrite take_take_drop.
Qed.

Lemma drain_run_shows c c' :
  rtc drain_step c c' -> reachable c -> exists k, shows c c' k.
Proof.
  induction 1 as [c|c c1 c2 H1 _ IH]; intros Hc.
  - exists 0. apply shows_none; [|done..]. apply reachable_inv in Hc. apply Hc.
  - destruct (drain_step_shows c c1 H1) as [k1 Hk1].
    { apply reachable_inv in Hc. apply Hc. }
    destruct IH as [k2 Hk2].
    { eapply reachable_step; [done|]. by apply drain_step_step. }
    exists (k1 + k2). by eapply shows_trans.
Qed.

(** At rest the whole queue is on the screen. *)
Lemma drain_run_shows_all c c' :
  rtc drain_step c c' -> reachable c -> quiescent c' ->
  messageQueue c' = []
  /\ map message (bubbles c')
     = newest MAX_BUBBLES
         (map message (bubbles c) ++ map q_message (messageQueue c)).
Proof.
  intros Hrun Hc Hq.
  assert (Hi : inv c').
  { apply reachable_inv, (reachable_steps c); [done|by apply drain_run_run]. }
  destruct (quiescent_drained c' Hi Hq) as [Hm _]. split; [done|].
  destruct (drain_run_shows c c' Hrun Hc) as (k & Hk & ->).
  rewrite Hm in Hk. symmetry in Hk. apply drop_nil_inv in Hk.
  by rewrite take_ge.
Qed.

(** C6.  In every state the component can reach, under any timing of its
    timers: the messages presented so far, followed by those still queued,
    are the accepted messages in arrival order, and successive
    presentations are at least one stagger (100 ms) apart.  One turn of
    [processNext] takes exactly the head of the queue, creates its bubble as
    the last one on the screen (the oldest leaves when there were 12) and
    arms the next turn one stagger later.  While the drain loop runs, with
    no further message and no bubble expiring meanwhile, the screen shows
    the bubbles it showed followed by those of a prefix of the queue, in the
    order of the queue, and the rest is still queued; once no drain timer is
    pending that prefix is the whole queue.  The loop can always run to
    rest. *)
Theorem queue_drains_in_arrival_order (c : comp) :
  reachable c ->
  map snd (presented c) ++ map q_message (messageQueue c) = accepted c
  /\ spaced (map fst (presented c))
  /\ (quiescent c ->
        messageQueue c = [] /\ map snd (presented c) = accepted c)
  /\ (forall r q rest, messageQueue c = q :: rest ->
        let c' := processNext r c in
        messageQueue c' = rest
        /\ presented c' = presented c ++ [(now c, q_message q)]
        /\ (exists b, bubbles c' = newest MAX_BUBBLES (bubbles c ++ [b])
              /\ last (bubbles c') = Some b
              /\ message b = q_message q /\ eventType b = q_eventType q)
        /\ List.filter is_drain (timers c')
           = List.filter is_drain (timers c)
             ++ [((now c + STAGGER)%N, ProcessNext)])
  /\ (forall c', rtc drain_step c c' ->
        (exists k, shows c c' k)
        /\ (quiescent c' ->
              messageQueue c' = []
              /\ map message (bubbles c')
                 = newest MAX_BUBBLES
                     (map message (bubbles c)
                      ++ map q_message (messageQueue c))))
  /\ exists c', rtc drain_step c c' /\ quiescent c'
        /\ map snd (presented c') = accepted c
        /\ map message (bubbles c')
           = newest MAX_BUBBLES
               (map message (bubbles c) ++ map q_message (messageQueue c)).
Proof.
  intros Hc. pose proof (reachable_inv c Hc) as Hi.
  split_and!.
  - apply Hi.
  - apply Hi.
  - intros Hq. destruct (quiescent_drained c Hi Hq) as [Hm _].
    split; [done|]. destruct Hi as [H1 _ _ _ _ _].
    by rewrite Hm, app_nil_r in H1.
  - intros r q rest Hq.
    destruct (processNext_shows r q rest c Hq) as (b & Hb & Hm & He).
    cbv zeta. split_and!.
    + unfold processNext. by rewrite Hq.
    + unfold processNext. by rewrite Hq.
    + exists b. split_and!; [done| |done..].
      rewrite Hb. apply newest_snoc_last. unfold MAX_BUBBLES. lia.
    + unfold processNext. rewrite Hq. cbn. rewrite !List.filter_app. cbn.
      by rewrite app_nil_r.
  - intros c' Hrun. split; [by apply drain_run_shows|].
    by apply drain_run_shows_all.
  - destruct (drains_within (backlog c) c) as (c' & Hs & Hq & Hacc); [done|].
    exists c'. split_and!; [done..| |].
    + pose proof (reachable_inv c'
                    (reachable_steps c c' Hc (drain_run_run c c' Hs))) as Hi'.
      destruct (quiescent_drained c' Hi' Hq) as [Hm _].
      destruct Hi' as [H1 _ _ _ _ _]. by rewrite Hm, app_nil_r, Hacc in H1.
    + by apply drain_run_shows_all.
Qed.

Lemma one_bubble_up_reachable : reachable one_bubble_up.
Proof.
  eapply reachable_step.
  - eapply reachable_step.
    + eapply reachable_step; [apply (reachable_initial 0)|].
      apply (step_message (MsgString (of_string "Ada checked in")) 0).
    + apply (step_wait 50). cbn. lia.
  - apply (step_fire [] 50%N ProcessQueue [] no_draws
             (with_now 50 one_message_in)); [reflexivity|cbn; lia].
Qed.

(** Two messages in a row on an empty screen: the loop can run to rest, and
    whenever it has, the screen shows the two bubbles in arrival order. *)
Lemma queue_witness :
  (exists c', rtc drain_step two_messages_in c' /\ quiescent c')
  /\ forall c', rtc drain_step two_messages_in c' -> quiescent c' ->
       map message (bubbles c')
       = [of_string "Ada checked in"; of_string "Bo checked in"].
Proof.
  assert (Hr : reachable two_messages_in).
  { eapply reachable_step; [|apply step_message].
    eapply reachable_step; [apply (reachable_initial 0)|apply step_message]. }
  destruct (queue_drains_in_arrival_order two_messages_in Hr)
    as (_ & _ & _ & _ & Hall & c' & Hrun & Hq & _).
  split; [by exists c'|].
  intros c1 Hrun1 Hq1. destruct (Hall c1 Hrun1) as [_ H].
  destruct (H Hq1) as [_ ->]. reflexivity.
Defined.

(** Three messages inside 200 ms, then the clock runs on: three bubbles, in
    arrival order, 100 ms apart. *)
Example three_messages_staggered :
  let a := of_string "a" in
  let b := of_string "b" in
  let c := of_string "c" in
  let arrive m t s :=
    on_message (MsgString m) 0 (run_until 20 t (fun _ => no_draws) s) in
  let s := arrive c 160%N (arrive b 80%N (arrive a 0%N (initial 0))) in
  presented (run_until 20 1000 (fun _ => no_draws) s)
  = [(50%N, a); (150%N, b); (250%N, c)]
  /\ map message (bubbles (run_until 20 1000 (fun _ => no_draws) s))
     = [a; b; c].
Proof. vm_compute. by split. Qed.

End BubbleFacts.

(* ===================================================================== *)
(** * More about the tune parser *)
(* ===================================================================== *)

Section TuneFacts.
Import JsNum Text Abc Samples.

(** ** Durations away from zero denominators *)

Lemma of_N_nonzero (n : N) : n <> 0%N -> ~ (inject_Z (Z.of_N n) == 0)%Q.
Proof.
  intros Hn E. change 0%Q with (inject_Z 0) in E.
  rewrite inject_Z_injective in E. lia.
Qed.

Lemma Qdiv_nonzero (a b : Q) : ~ (a == 0)%Q -> ~ (b == 0)%Q -> ~ (a / b == 0)%Q.
Proof.
  intros Ha Hb E. apply Qmult_integral in E as [E|E]; [done|].
  apply Hb. rewrite <- (Qinv_involutive b), E. reflexivity.
Qed.

Lemma div_Fin x y : ~ (y == 0)%Q -> div (Fin x) (Fin y) = Fin (x / y).
Proof.
  intros Hy. unfold div. destruct (y ?= 0)%Q eqn:E; try done.
  by apply Qeq_alt in E.
Qed.

Lemma clamp_Fin lo hi x :
  exists y, max (Fin lo) (min (Fin hi) (Fin x)) = Fin y.
Proof. cbn. destruct (Qle_bool hi x); cbn; destruct (Qle_bool lo _); eauto. Qed.

Lemma tempo_Fin b :
  exists c, div (Fin 60)
              (max (Fin 30) (min (Fin 300) (Fin (inject_Z (Z.of_N b))))) = Fin c.
Proof.
  cbn [min max].
  destruct (Qle_bool 300 _) eqn:E1; cbn [max].
  - cbn. eauto.
  - destruct (Qle_bool 30 _) eqn:E2.
    + rewrite div_Fin; [eauto|]. apply Qle_bool_iff in E2. intros E. rewrite E in E2.
      by apply E2.
    + cbn. eauto.
Qed.

(** X1.  Take header numbers and a duration suffix whose integers are all
    at most 2^53 - 1, so that the doubles of the code hold them exactly and
    nothing overflows.  When then the default length has a non-zero
    denominator, the tempo note has a non-zero numerator and denominator,
    and the duration suffix is not a fraction over zero, [durationFromToken]
    returns a finite duration that is strictly positive and at most 1.5 s:
    among such numbers NaN arises only from a zero in one of these
    places. *)
Theorem sane_numbers_give_bounded_durations (h : headers) (tok : jsstring) :
  safe_headers h = true ->
  safe_token tok = true ->
  den (defaultLen h) <> 0%N ->
  num (qNote h) <> 0%N ->
  den (qNote h) <> 0%N ->
  (forall n, int_or_fraction tok <> Some (n, Some 0%N)) ->
  bounded_positive (3 # 2) (durationFromToken h tok).
Proof.
  intros _ _ HL HQn HQd Htok.
  destruct (durationFromToken_renderable h tok) as [E|H]; [|done].
  exfalso. revert E. unfold durationFromToken.
  destruct tok as [|c tok]; [done|]. case_bool_decide; [done|].
  destruct (forallb is_slash (c :: tok)).
  { unfold of_nat. rewrite div_Fin; [done|].
    intros E. change 0%Q with (inject_Z 0) in E. rewrite inject_Z_injective in E.
    cbn [length] in E. lia. }
  destruct (int_or_fraction (c :: tok)) as [[n d]|] eqn:Ei; [|done].
  assert (Hf : exists f, div (of_N n) (from_option of_N (Fin 1) d) = Fin f).
  { destruct d as [k|]; cbn [from_option]; unfold of_N.
    - rewrite div_Fin; [eauto|]. apply of_N_nonzero. intros ->. by eapply Htok.
    - rewrite div_Fin; [eauto|]. by intros ?. }
  destruct Hf as [f ->].
  unfold of_N.
  rewrite (div_Fin (inject_Z (Z.of_N (num (defaultLen h))))) by by apply of_N_nonzero.
  rewrite (div_Fin (inject_Z (Z.of_N (num (qNote h))))) by by apply of_N_nonzero.
  destruct (tempo_Fin (qBpm h)) as [c' ->].
  rewrite div_Fin by (apply Qdiv_nonzero; by apply of_N_nonzero).
  cbn [mul].
  match goal with |- max _ (min _ (Fin ?z)) = NaN -> _ =>
    destruct (clamp_Fin (8 # 100) (3 # 2) z) as [y ->] end.
  done.
Qed.

Lemma sane_numbers_witness :
  bounded_positive (3 # 2) (durationFromToken default_headers (of_string "3/2")).
Proof.
  apply sane_numbers_give_bounded_durations; try done.
Defined.

(** Beyond the safe integers the code and the exact arithmetic part ways: a
    tempo note 1 over 10^309 is a division by [Infinity] in the code, and
    the model keeps the quotient. *)
Example huge_numbers_are_outside_the_model :
  safe_headers {| defaultLen := {| num := 1; den := 8 |};
                  qNote := {| num := 1; den := 10 ^ 309 |};
                  qBpm := 30 |} = false.
Proof. reflexivity. Qed.

(** ** Lines and tokens *)

(** X2.  A text in which every line, once trimmed, starts with a capital
    letter and a colon yields no note: the letters of a title or a composer
    line are never played. *)
Theorem field_lines_are_never_played (abcText : jsstring) :
  Forall (fun l => is_field_line (trim l) = true) (split_lines abcText) ->
  parseAbcSimple abcText = [].
Proof.
  intros H. unfold parseAbcSimple, content_of.
  assert (E : List.filter (fun l => negb (is_field_line (trim l)))
                (split_lines abcText) = []).
  { induction H as [|l ls Hl _ IH]; [done|]. cbn. by rewrite Hl. }
  by rewrite E.
Qed.

Lemma field_lines_witness :
  parseAbcSimple (of_string "T:Abba
 C:Bach
K:C") = [].
Proof.
  apply field_lines_are_never_played. vm_compute. repeat constructor.
Defined.

(** pitch letters *)
Lemma is_pitch_baseMidi l :
  is_pitch l = true ->
  exists b, baseMidi (to_upper l) = Some b /\ (60 <= b <= 71)%Z.
Proof.
  unfold is_pitch, in_range. intros H.
  assert (Hl : (65 <= l <= 71)%N \/ (97 <= l <= 103)%N).
  { apply orb_true_iff in H. rewrite !andb_true_iff, !N.leb_le in H. lia. }
  assert (Hc : l ∈ [65;66;67;68;69;70;71;97;98;99;100;101;102;103]%N).
  { rewrite !elem_of_cons. lia. }
  rewrite !elem_of_cons, elem_of_nil in Hc.
  repeat (destruct Hc as [->|Hc]; [eexists; split; [reflexivity|lia]|]).
  done.
Qed.

Lemma pitch_at_letter s acc l r :
  pitch_at s = Some (acc, l, r) ->
  is_pitch l = true
  /\ (acc = [] \/ (exists a, acc = [a] /\ is_accidental a = true)
      \/ exists a b, acc = [a; b] /\ is_accidental a = true /\ is_accidental b = true).
Proof.
  unfold pitch_at. destruct s as [|a [|b [|c s]]]; [done|..].
  - destruct (is_pitch a) eqn:E; [|done]. intros [= <- <- <-]. auto.
  - destruct (is_accidental a) eqn:Ea, (is_pitch b) eqn:Eb, (is_pitch a) eqn:Ep;
      cbn; intros [= <- <- <-]; eauto 10.
  - destruct (is_accidental a) eqn:Ea, (is_accidental b) eqn:Eb,
      (is_pitch c) eqn:Ec, (is_pitch b) eqn:Epb, (is_pitch a) eqn:Ep;
      cbn; intros [= <- <- <-]; eauto 10.
Qed.

Lemma octaves_range oct : forall m,
  (m - 12 * Z.of_nat (length oct)
   <= fold_left (fun m c => if (c =? ch "'")%N then (m + 12)%Z
                            else if (c =? ch ",")%N then (m - 12)%Z
                            else m) oct m
   <= m + 12 * Z.of_nat (length oct))%Z.
Proof.
  induction oct as [|c oct IH]; intros m; cbn [fold_left length]; [lia|].
  destruct (c =? ch "'")%N; [|destruct (c =? ch ",")%N].
  - specialize (IH (m + 12)%Z). lia.
  - specialize (IH (m - 12)%Z). lia.
  - specialize (IH m). lia.
Qed.

(** X3.  Every match of the token expression becomes a note, so the
    [continue] of the loop is never taken; its pitch lies between MIDI 58
    and 85, moved by at most one octave for each octave mark. *)
Theorem matched_token_sounds_in_range (h : headers) (s : jsstring) (t : token) :
  token_at s = Some t ->
  exists n, note_of_token h t = Some n
    /\ (58 - 12 * Z.of_nat (length (octMods t)) <= midi n
        <= 85 + 12 * Z.of_nat (length (octMods t)))%Z.
Proof.
  unfold token_at. destruct (pitch_at s) as [[[acc l] r]|] eqn:E; [|done].
  intros [= <-]. apply pitch_at_letter in E as [Hl Hacc].
  destruct (is_pitch_baseMidi l Hl) as (b & Hb & Hr).
  unfold note_of_token. cbn [letter octMods accidental durTok]. rewrite Hb.
  eexists. split; [reflexivity|]. cbn [midi].
  match goal with |- context [fold_left ?f ?o ?m] =>
    pose proof (octaves_range o m) as Ho; set (m1 := fold_left f o m) in * end.
  clearbody m1.
  assert (Hm : (-2 <= (if bool_decide (acc = of_string "^") then m1 + 1
                else if bool_decide (acc = of_string "^^") then m1 + 2
                else if bool_decide (acc = of_string "_") then m1 - 1
                else if bool_decide (acc = of_string "__") then m1 - 2
                else m1) - m1 <= 2)%Z).
  { repeat case_bool_decide; lia. }
  destruct (l =? to_lower l)%N; lia.
Qed.

Lemma matched_token_witness :
  exists n,
    note_of_token default_headers
      {| accidental := of_string "^"; letter := ch "c";
         octMods := of_string "'"; durTok := of_string "2" |} = Some n
    /\ (46 <= midi n <= 97)%Z.
Proof.
  destruct (matched_token_sounds_in_range default_headers (of_string "^c'2")
              {| accidental := of_string "^"; letter := ch "c";
                 octMods := of_string "'"; durTok := of_string "2" |})
    as (n & Hn & Hr); [reflexivity|].
  exists n. split; [exact Hn|exact Hr].
Defined.

(** ** Notes without a length *)

Lemma pitch_at_rest (P : N -> Prop) s acc l r :
  pitch_at s = Some (acc, l, r) -> Forall P s -> Forall P r.
Proof.
  unfold pitch_at. destruct s as [|a [|b [|c s]]]; [done|..].
  - destruct (is_pitch a); [|done]. by intros [= <- <- <-].
  - intros E H. apply Forall_cons in H as [Ha H].
    destruct (is_accidental a && is_pitch b); [by injection E as <- <- <-|].
    destruct (is_pitch a); [|done]. by injection E as <- <- <-.
  - intros E H. apply Forall_cons in H as [Ha H].
    pose proof H as H'. apply Forall_cons in H' as [Hb H'].
    pose proof H' as H''. apply Forall_cons in H'' as [Hc H''].
    destruct (is_accidental a && is_accidental b && is_pitch c);
      [by injection E as <- <- <-|].
    destruct (is_accidental a && is_pitch b); [by injection E as <- <- <-|].
    destruct (is_pitch a); [|done]. by injection E as <- <- <-.
Qed.

Lemma drop_while_Forall (P : N -> Prop) p s :
  Forall P s -> Forall P (drop_while p s).
Proof.
  induction 1 as [|c s Hc Hs IH]; cbn; [done|].
  destruct (p c); [done|by constructor].
Qed.

Lemma duration_at_plain s :
  Forall (fun c => is_digit c = false /\ is_slash c = false) s ->
  duration_at s = [].
Proof.
  intros H. unfold duration_at, digits.
  destruct H as [|c s [Hd Hs] H]; [done|]. cbn. by rewrite Hd, Hs.
Qed.

Lemma scan_plain h s : forall skip,
  Forall (fun c => is_digit c = false /\ is_slash c = false) s ->
  Forall (fun n => seconds n = Fin (3 # 10)) (scan h skip s).
Proof.
  induction s as [|c s IH]; intros skip H; cbn [scan]; [constructor|].
  pose proof H as H0. apply Forall_cons in H0 as [_ Hs].
  destruct skip; [|by apply IH].
  destruct (token_at (c :: s)) as [t|] eqn:Et; [|by apply IH].
  destruct (note_of_token h t) as [n|] eqn:En; [|by apply IH].
  constructor; [|by apply IH].
  unfold token_at in Et. destruct (pitch_at (c :: s)) as [[[acc l] r]|] eqn:Ep; [|done].
  injection Et as <-. unfold note_of_token in En. cbn in En.
  destruct (baseMidi _); [|done]. injection En as <-. cbn [seconds].
  rewrite duration_at_plain; [done|].
  apply drop_while_Forall. by eapply pitch_at_rest.
Qed.

(** X4.  When the tune body holds no digit and no slash, every note lasts
    0.3 s whatever the [L:] and [Q:] lines say: the headers only scale notes
    that carry a numeric length. *)
Theorem notes_without_length_ignore_headers (abcText : jsstring) :
  Forall (fun c => is_digit c = false /\ is_slash c = false)
         (content_of (split_lines abcText)) ->
  Forall (fun n => seconds n = Fin (3 # 10)) (parseAbcSimple abcText).
Proof. apply scan_plain. Qed.

Lemma notes_without_length_witness :
  Forall (fun n => seconds n = Fin (3 # 10))
    (parseAbcSimple (of_string "L:1/2
Q:1/4=40
C D E|")).
Proof.
  apply notes_without_length_ignore_headers. vm_compute.
  repeat constructor.
Defined.

End TuneFacts.

(* ===================================================================== *)
(** * More about the player: lengths, the shared context, the effect chain *)
(* ===================================================================== *)

Section SoundFacts.
Import JsNum Text Abc Symphony Samples Playback.

(** ** How long a sound lasts *)

Lemma clamp_between lo hi x :
  (lo <= hi)%Q -> x <> NaN ->
  between lo hi (max (Fin lo) (min (Fin hi) x)).
Proof.
  intros Hlh Hx. destruct x as [q| | |]; [| | |done]; cbn.
  - destruct (Qle_bool hi q) eqn:E1; cbn.
    + destruct (Qle_bool lo hi) eqn:E2; cbn.
      * split; [done|apply Qle_refl].
      * apply Qle_bool_iff in Hlh. congruence.
    + assert (Hq : (q <= hi)%Q).
      { destruct (Qlt_le_dec q hi) as [H|H]; [by apply Qlt_le_weak|].
        apply Qle_bool_iff in H. congruence. }
      destruct (Qle_bool lo q) eqn:E2; cbn.
      * apply Qle_bool_iff in E2. done.
      * split; [apply Qle_refl|done].
  - destruct (Qle_bool lo hi) eqn:E2; cbn.
    + split; [done|apply Qle_refl].
    + apply Qle_bool_iff in Hlh. congruence.
  - split; [apply Qle_refl|done].
Qed.

Lemma or_else_number a q : or_else a (Fin q) <> NaN.
Proof. unfold or_else. destruct a; cbn; try done. by destruct (negb _). Qed.

Lemma tone_length_between (durationSec : number) :
  between (1 # 10) 1 (tone_length durationSec).
Proof.
  unfold tone_length. apply clamp_between; [by intros ?|apply or_else_number].
Qed.

Lemma piano_dur_renderable seconds :
  renderable seconds -> between (1 # 10) (3 # 2) (piano_dur seconds).
Proof.
  unfold piano_dur, or_else. intros [->|H].
  { cbn. split; by intros ?. }
  destruct seconds as [q| | |]; try done. destruct H as [H0 H1].
  cbn [truthy]. destruct (Qeq_bool q 0) eqn:E.
  { apply Qeq_bool_iff in E. rewrite E in H0. by apply Qlt_irrefl in H0. }
  cbn. destruct (Qle_bool (1 # 10) q) eqn:E1; cbn.
  - apply Qle_bool_iff in E1. done.
  - split; by intros ?.
Qed.

Lemma between_weaken lo hi hi' a :
  (hi <= hi')%Q -> between lo hi a -> between lo hi' a.
Proof.
  intros H. destruct a; try done. intros [? ?]. split; [done|].
  by eapply Qle_trans.
Qed.

Lemma sounds_for_well_timed n new :
  renderable (seconds n) -> sounds_for n new -> Forall well_timed new.
Proof.
  intros Hn [->|[->| ->]]; repeat constructor.
  - by apply piano_dur_renderable.
  - unfold well_timed. cbn. eapply between_weaken; [|apply tone_length_between].
    by intros ?.
Qed.

(** X5.  For a pitch below MIDI 1500 [playTone] returns normally in any
    state.  From 1500 on the frequency is beyond what the oscillator can
    hold: with a context in the player the call raises, and a call that
    raises has started no sound.  A tone that is started lasts between
    0.1 s and 1 s whatever duration is given, NaN, zero, a negative number
    and the infinities included. *)
Theorem every_tone_lasts_a_tenth_to_one_second
    (e : env) (m : Z) (durationSec : number) (w : world) :
  ((m < 1500)%Z -> (playTone e m durationSec w).1 = Ok ())
  /\ ((1500 <= m)%Z -> is_Some (audioContext (player w)) ->
      (playTone e m durationSec w).1 = Throw)
  /\ ((playTone e m durationSec w).1 = Throw ->
      (1500 <= m)%Z /\ out (playTone e m durationSec w).2 = out w)
  /\ exists new,
       out (playTone e m durationSec w).2 = out w ++ new
       /\ Forall (fun s => exists len, s = SineTone m len /\ between (1 # 10) 1 len)
                 new.
Proof.
  destruct (playTone_run e m durationSec w)
    as (r & p & b & new & E & _ & _ & _ & _ & Hnew & _ & Hok & Hthrow & Hraise).
  pose proof (frequency_fits_spec m) as Hfit.
  rewrite E. cbn. split_and!.
  - intros Hm. by apply Hok, Hfit.
  - intros Hm Hctx. apply Hraise; [done|].
    destruct (frequency_fits m); [|done]. destruct Hfit as [Hfit _].
    specialize (Hfit eq_refl). lia.
  - intros Hr. destruct (Hthrow Hr) as [Hf ->]. rewrite app_nil_r.
    split; [|done]. destruct (Z_lt_le_dec m 1500) as [Hm|]; [|done].
    apply Hfit in Hm. congruence.
  - exists new. split; [done|].
    destruct Hnew as [->| ->]; repeat constructor.
    eexists. split; [done|]. apply tone_length_between.
Qed.

(** ** Every sound the page starts *)

Lemma page_step_timed w w' : page_step w w' -> timed w -> timed w'.
Proof.
  unfold timed. destruct 1 as [e f w|e w|v w|e on w|b w]; intros [Hn Ho].
  - destruct (init_run e f w) as (r & w1 & E & _ & _ & Hout & _ & H & _).
    rewrite E. cbn. rewrite Hout. split; [|done].
    destruct H as [[-> _]|(t & _ & -> & _)]; [constructor|].
    apply parse_durations_renderable.
  - destruct (notes (player w)) as [|n0 ns] eqn:En.
    { rewrite playNextNote_silent by done. cbn. by rewrite En. }
    destruct (lookup_lt_is_Some_2 (notes (player w))
                (cursor (player w) mod length (notes (player w)))) as [n Hn'].
    { apply Nat.mod_upper_bound. by rewrite En. }
    destruct (playNextNote_run e w n Hn')
      as (r & w1 & new & E & Hnotes & _ & _ & Hout & Hnew & _).
    rewrite E. cbn. rewrite Hnotes, Hout, En. split; [done|].
    apply Forall_app. split; [done|].
    apply (sounds_for_well_timed n); [|done].
    rewrite <- En in Hn. rewrite Forall_lookup in Hn. by eapply Hn.
  - done.
  - destruct (playPopSound_run e on w) as (w1 & new & E & Hp & Hout & Hnew).
    rewrite E. cbn. rewrite Hp, Hout. split; [done|].
    apply Forall_app. split; [done|].
    destruct Hnew as [->|[->| ->]]; by repeat constructor.
  - done.
Qed.

(** X6.  In every state the page can reach, each note and each tone
    started so far was started with a finite length between 0.1 s and
    1.5 s: the NaN the parser can produce never reaches a sound. *)
Theorem every_sound_is_well_timed (w : world) :
  reachable w -> Forall well_timed (out w).
Proof.
  intros H. cut (timed w); [by intros []|].
  induction H as [b|w w' _ IH Hstep]; [by split; constructor|].
  by eapply page_step_timed.
Qed.

Lemma every_sound_witness :
  Forall well_timed
    (out (playNextNote (serving four_notes) four_loaded).2).
Proof.
  apply every_sound_is_well_timed.
  apply (reachable_next four_loaded); [|apply do_next].
  apply (reachable_next (initial_world one_context)); [|apply do_init].
  apply reachable_start.
Defined.

(** ** The shared audio context *)

Lemma getOrCreate_shared c w :
  shared_open c w -> getOrCreateAudioContext w = (Ok (Some c), w).
Proof.
  intros (Hw & Hc & Ho).
  unfold getOrCreateAudioContext, mbind, M_bind, get_win, mret, M_ret.
  rewrite Hw, Hc. cbn. by rewrite bool_decide_eq_true_2.
Qed.

Lemma resume_shared e c' c w :
  shared_open c w ->
  exists b, resume_if_suspended e c' w = (Ok (), set_win b w)
    /\ shared_open c (set_win b w)
    /\ length (contexts b) = length (contexts (win w))
    /\ ctor_queue b = ctor_queue (win w).
Proof.
  intros (Hw & Hc & Ho).
  unfold resume_if_suspended, resume, mbind, M_bind, get_win, modify_win,
    mret, M_ret.
  assert (Hid : set_win (win w) w = w) by by destruct w.
  case_bool_decide as Hs; [destruct (resume_ok e)|].
  - eexists. split; [reflexivity|]. cbn. split_and!; try done.
    + unfold shared_open, state_of in *. cbn. split_and!; try done.
      destruct (decide (c' = c)) as [->|Hne].
      * destruct (contexts (win w) !! c) eqn:El; [|done].
        rewrite list_lookup_insert_eq; [done|]. by eapply lookup_lt_Some.
      * by rewrite list_lookup_insert_ne.
    + by rewrite length_insert.
  - exists (win w). by rewrite Hid.
  - exists (win w). by rewrite Hid.
Qed.

Lemma init_shared c e f w :
  shared_open c w ->
  exists r p, init e f w = (Ok r, set_player p w) /\ audioContext p = Some c.
Proof.
  intros Hs. pose proof (getOrCreate_shared c w Hs) as E1.
  unfold init, try_catch.
  rewrite (bind_run _ _ _ _ _ E1).
  set (w1 := set_player (set_audioContext (Some c) (player w)) w).
  rewrite (bind_run _ _ w () w1) by done.
  destruct (ensureFx_run (Some c) w1) as (r & p & E3 & Hp & Hr & Hok).
  rewrite (Hr (or_introl (mk_is_Some _ _ eq_refl))) in E3.
  rewrite (bind_run _ _ _ _ _ E3).
  destruct (applyFx_run e (set_player p w1)) as (p' & E4 & Hp').
  rewrite (bind_run _ _ _ _ _ E4).
  destruct (fx_step_trans _ _ _ Hp Hp') as [Ha _ _ _ _]. cbn in Ha.
  set (w3 := set_player p' (set_player p w1)).
  rewrite (bind_run _ _ w3 (player w3) w3) by done.
  unfold mbind, M_bind, modify_player, mret, M_ret, throw. cbn.
  destruct (piano p'), (song_text e); cbn; eexists _, _; (split; [reflexivity|done]).
Qed.

Lemma playPopSound_shared c e w :
  shared_open c w -> audioContextRef (pop w) = None ->
  exists b,
    playPopSound e true w
    = (Ok (), {| player := player w;
                 pop := {| audioContextRef := Some c;
                           soundRef := soundRef (pop w) |};
                 win := b; out := out w ++ [PopSweep] |})
    /\ shared_open c (set_win b w)
    /\ length (contexts b) = length (contexts (win w))
    /\ ctor_queue b = ctor_queue (win w).
Proof.
  intros Hs Hr. pose proof (getOrCreate_shared c w Hs) as E1.
  unfold playPopSound. cbn [negb]. unfold try_catch at 1.
  rewrite (bind_run _ _ w (pop w) w) by done. rewrite Hr.
  rewrite (bind_run _ _ _ _ _ E1).
  set (w1 := {| player := player w;
                pop := {| audioContextRef := Some c; soundRef := soundRef (pop w) |};
                win := win w; out := out w |}).
  rewrite (bind_run _ _ w () w1) by done.
  destruct (resume_shared e c c w1 Hs) as (b & E2 & H1 & H2 & H3).
  rewrite (bind_run _ _ _ _ _ E2). exists b. done.
Qed.

(** X7.  While [window.__heartbeatAudioContext] is an open context,
    [getOrCreateAudioContext] returns it and changes nothing, [init] stores
    it as the player's context and leaves the window alone, and the first
    pop of a bubble component stores it in its ref: no second context is
    constructed and the shared one stays in place. *)
Theorem open_shared_context_is_adopted
    (c : nat) (e : env) (f : jsstring) (w : world) :
  shared_open c w ->
  getOrCreateAudioContext w = (Ok (Some c), w)
  /\ audioContext (player (init e f w).2) = Some c
  /\ win (init e f w).2 = win w
  /\ (audioContextRef (pop w) = None ->
      let w' := (playPopSound e true w).2 in
      audioContextRef (pop w') = Some c
      /\ shared_open c w'
      /\ length (contexts (win w')) = length (contexts (win w))
      /\ ctor_queue (win w') = ctor_queue (win w)).
Proof.
  intros Hs. split; [by apply getOrCreate_shared|].
  destruct (init_shared c e f w Hs) as (r & p & -> & Hp).
  split_and!; [done..|].
  intros Hr. destruct (playPopSound_shared c e w Hs Hr) as (b & -> & H1 & H2 & H3).
  done.
Qed.

Lemma open_shared_context_witness :
  let w := (playPopSound (serving four_notes) true (initial_world one_context)).2 in
  audioContext (player (init (serving four_notes) (of_string "four.abc") w).2)
  = Some 0
  /\ audioContextRef (pop w) = Some 0.
Proof.
  intros w.
  destruct (open_shared_context_is_adopted 0 (serving four_notes)
              (of_string "four.abc") w) as (_ & H & _).
  - by vm_compute.
  - split; [exact H|reflexivity].
Defined.

(** ** The effect chain *)

(** X8.  Once [ensureFxChain] has returned, a further call changes nothing
    and cannot raise, even without a context; the chain is complete, and no
    gain node that existed before was replaced. *)
Theorem ensureFxChain_builds_once (ctx ctx' : option nat) (w w' : world) :
  ensureFxChain ctx w = (Ok (), w') ->
  ensureFxChain ctx' w' = (Ok (), w')
  /\ fx_ready (player w')
  /\ (forall g, masterGain (player w) = Some g -> masterGain (player w') = Some g)
  /\ (forall g, dryGain (player w) = Some g -> dryGain (player w') = Some g)
  /\ (forall g, wetGain (player w) = Some g -> wetGain (player w') = Some g).
Proof.
  unfold ensureFxChain, fx_ready, on_ctx, mbind, M_bind, get_player,
    modify_player, throw, mret, M_ret.
  destruct w as [s po b o]. cbn.
  destruct s as [ac v ns cu so pi mg dg wg cv].
  destruct ctx as [c|], mg as [?|], dg as [?|], wg as [?|], cv; cbn;
    intros [= <-]; cbn; split_and!; eauto; done.
Qed.

Lemma ensureFxChain_witness :
  let w := (ensureFxChain (Some 0) (initial_world one_context)).2 in
  ensureFxChain None w = (Ok (), w) /\ fx_ready (player w).
Proof.
  intros w.
  destruct (ensureFxChain_builds_once (Some 0) None (initial_world one_context) w)
    as (H1 & H2 & _); [reflexivity|].
  split; [exact H1|exact H2].
Defined.

(** ** What [init] reports *)

(** X9.  [init] never raises.  It returns [true] exactly when it leaves a
    non-empty note list; it returns [false] when the song cannot be fetched,
    and also when no audio context can be had and the effect chain was never
    built, whether or not the song is there. *)
Theorem init_reports_whether_notes_were_loaded
    (e : env) (f : jsstring) (w : world) :
  exists r w',
    init e f w = (Ok r, w')
    /\ (r = true <-> notes (player w') <> [])
    /\ (song_text e = None -> r = false)
    /\ ((getOrCreateAudioContext w).1 = Ok None -> ~ fx_ready (player w) ->
        r = false).
Proof.
  destruct (init_run e f w) as (r & w' & E & _ & _ & _ & _ & H & _).
  exists r, w'. split; [done|]. split_and!.
  - destruct H as [[-> ->]|(t & _ & -> & ->)]; [done|].
    rewrite bool_decide_eq_true. destruct (parseAbcSimple t); cbn; [|split; [done|lia]].
    split; [lia|done].
  - intros He. destruct H as [[_ ->]|(t & ? & _)]; [done|congruence].
  - intros Hc Hfx. revert E. unfold init, try_catch.
    destruct (getOrCreate_run w) as (ctx & b & E1). rewrite E1 in Hc.
    injection Hc as ->. rewrite (bind_run _ _ _ _ _ E1).
    set (w1 := set_player (set_audioContext None (player (set_win b w))) (set_win b w)).
    rewrite (bind_run _ _ _ () w1) by done.
    pose proof (ensureFx_without_context w1 Hfx) as E3.
    destruct (ensureFxChain None w1) as [[[]|] w2] eqn:E3'; [done|].
    rewrite (bind_throw _ _ _ _ E3'). by intros [= <- _].
Qed.

Lemma playTone_wetGain e m d w :
  wetGain (player (playTone e m d w).2) = wetGain (player w).
Proof.
  unfold playTone. rewrite (bind_run _ _ w (player w) w) by done.
  destruct (acquire_run (audioContext (player w)) w) as (c & b & E & _).
  rewrite (bind_run _ _ _ _ _ E). destruct c as [c|]; [|done].
  set (w1 := set_player (set_audioContext (Some c) (player (set_win b w)))
               (set_win b w)).
  rewrite (bind_run _ _ _ () w1) by done.
  destruct (resume_run e c w1) as (b' & E'). rewrite (bind_run _ _ _ _ _ E').
  unfold set_frequency, mbind, M_bind. by destruct (frequency_fits m).
Qed.

(** X10.  In every reachable state with a loaded song, after one call of
    [playNextNote] the wet gain is the stored reverb amount when reverb is
    enabled and 0 when it is not: a changed setting takes effect with the
    next note. *)
Theorem reverb_setting_reaches_the_wet_gain (e : env) (w : world) :
  reachable w -> notes (player w) <> [] ->
  wetGain (player (playNextNote e w).2)
  = Some (if reverbEnabled e then reverbWet e else 0%Q).
Proof.
  intros Hw Hne. pose proof (reachable_chain_ready w Hw Hne) as Hfx.
  set (s := player w) in *.
  assert (Hlen : length (notes s) <> 0) by (by destruct (notes s)).
  destruct (lookup_lt_is_Some_2 (notes s) (cursor s mod length (notes s)))
    as [n Hn]; [by apply Nat.mod_upper_bound|].
  unfold playNextNote.
  rewrite (bind_run _ _ w (player w) w) by done. fold s.
  rewrite bool_decide_eq_false_2 by done. cbv zeta. rewrite Hn.
  set (w1 := set_player
    (set_cursor ((cursor s mod length (notes s) + 1) mod length (notes s)) s) w).
  rewrite (bind_run _ _ w () w1) by done.
  destruct (acquire_run (audioContext s) w1) as (ctx & b & E & _).
  rewrite (bind_run _ _ _ _ _ E).
  set (w2 := set_player (set_audioContext ctx (player (set_win b w1))) (set_win b w1)).
  rewrite (bind_run _ _ _ () w2) by done.
  destruct (resume_opt_run e ctx w2) as (b' & E2). rewrite (bind_run _ _ _ _ _ E2).
  destruct (ensureFx_run ctx (set_win b' w2)) as (r & p & E3 & Hp & Hr & Hok).
  pose proof (Hr (or_intror Hfx)) as ->. rewrite (bind_run _ _ _ _ _ E3).
  destruct (Hok eq_refl) as (_ & _ & [g Hg] & _).
  set (v := if reverbEnabled e then reverbWet e else 0%Q).
  set (w4 := set_player (set_wetGain (Some v) p) (set_player p (set_win b' w2))).
  assert (E4 : applyFxSettingsFromStorage e (set_player p (set_win b' w2))
               = (Ok (), w4)).
  { unfold applyFxSettingsFromStorage, modify_player. cbn. by rewrite Hg. }
  rewrite (bind_run _ _ _ _ _ E4).
  rewrite (bind_run _ _ w4 (player w4) w4) by done.
  assert (Hfb : forall d, wetGain (player (playTone e (midi n) d w4).2) = Some v).
  { intros d. by rewrite playTone_wetGain. }
  destruct (piano (player w4) && bool_decide (is_Some ctx)); [|apply Hfb].
  unfold try_catch. destruct (piano_plays e); [done|apply Hfb].
Qed.

Lemma reverb_setting_witness :
  wetGain (player (playNextNote (serving four_notes) four_loaded).2) = Some 0%Q.
Proof.
  apply (reverb_setting_reaches_the_wet_gain (serving four_notes) four_loaded).
  - apply (reachable_next (initial_world one_context)); [|apply do_init].
    apply reachable_start.
  - by vm_compute.
Defined.

End SoundFacts.

(* ===================================================================== *)
(** * The stored settings and the note envelope *)
(* ===================================================================== *)

Section EnvelopeFacts.
Import JsNum Text Abc Symphony Samples Playback Envelope.

(** X12.  With a fallback inside the range, [getSettingNumber] returns a
    finite number inside the range for every stored value and whatever
    [parseFloat] makes of it (NaN and the infinities included). *)
Theorem setting_number_stays_in_range
    (parseFloat : jsstring -> number) (stored : option jsstring)
    (fallback lo hi : Q) :
  (lo <= fallback)%Q -> (fallback <= hi)%Q ->
  exists q, getSettingNumber parseFloat stored (Fin fallback) (Fin lo) (Fin hi) = Fin q
    /\ (lo <= q)%Q /\ (q <= hi)%Q.
Proof.
  intros H1 H2. assert (Hlh : (lo <= hi)%Q) by lra.
  unfold getSettingNumber.
  destruct stored as [v|]; [|by exists fallback].
  destruct (parseFloat v) as [x| | |]; cbn; [| | |by exists fallback].
  - destruct (Qle_bool hi x) eqn:E1; cbn.
    + destruct (Qle_bool lo hi) eqn:E2; eexists; (split; [reflexivity|]); [lra|].
      apply Qle_bool_iff in Hlh. congruence.
    + assert (x <= hi)%Q.
      { destruct (Qlt_le_dec x hi) as [H|H]; [lra|].
        apply Qle_bool_iff in H. congruence. }
      destruct (Qle_bool lo x) eqn:E2; eexists; (split; [reflexivity|]); [|lra].
      apply Qle_bool_iff in E2. lra.
  - destruct (Qle_bool lo hi) eqn:E2; eexists; (split; [reflexivity|]); [lra|].
    apply Qle_bool_iff in Hlh. congruence.
  - eexists. split; [reflexivity|]. lra.
Qed.

Lemma setting_number_witness :
  exists q,
    getSettingNumber (fun _ => PInf) (Some (of_string "Infinity"))
      (Fin (15 # 100)) (Fin 0) (Fin 1) = Fin q
    /\ (0 <= q)%Q /\ (q <= 1)%Q.
Proof.
  apply setting_number_stays_in_range; by intros ?.
Defined.

Lemma positive_Fin x : (0 < x)%Q -> is_positive (Fin x) = true.
Proof.
  intros H. cbn. destruct (Qle_bool x 0) eqn:E; [|done].
  apply Qle_bool_iff in E. lra.
Qed.

Lemma peak_positive v : is_positive (max (Fin (1 # 1000)) (Fin v)) = true.
Proof.
  cbn [max]. destruct (Qle_bool (1 # 1000) v) eqn:E; apply positive_Fin; [|lra].
  apply Qle_bool_iff in E. lra.
Qed.

Lemma max_Fin_r lo x : (lo <= x)%Q -> max (Fin lo) (Fin x) = Fin x.
Proof.
  intros H. cbn. apply Qle_bool_iff in H. by rewrite H.
Qed.

Lemma release_bounds d :
  exists r,
    min (Fin (4 # 10)) (max (Fin (8 # 100)) (mul (Fin d) (Fin (6 # 10)))) = Fin r
    /\ (8 # 100 <= r)%Q /\ (r <= 8 # 100 \/ r <= d * (6 # 10))%Q.
Proof.
  cbn [mul max]. destruct (Qle_bool (8 # 100) (d * (6 # 10))) eqn:E1; cbn [min].
  - apply Qle_bool_iff in E1.
    destruct (Qle_bool (4 # 10) (d * (6 # 10))) eqn:E2; eexists;
      (split; [reflexivity|]); [|split; [lra|right; lra]].
    apply Qle_bool_iff in E2. split; [lra|right; lra].
  - destruct (Qle_bool (4 # 10) (8 # 100)) eqn:E2; [done|].
    eexists. split; [reflexivity|]. split; [lra|left; lra].
Qed.

(** X11.  For every duration the parser can produce, the envelope that
    [createPerNoteEnvelope] schedules for the length [playNextNote] passes
    is well formed: every scheduled value is strictly positive, as an
    exponential ramp requires, and the scheduled times are finite, start at
    the current time and never go back, so the release starts after the
    attack has ended. *)
Theorem note_envelope_is_well_formed
    (stored : option jsstring) (volume currentTime : Q) (seconds : number) :
  renderable seconds ->
  let calls :=
    createPerNoteEnvelope stored volume currentTime (piano_dur seconds) in
  Forall (fun a => is_positive (value_of a) = true) calls
  /\ ascending currentTime (map time_of calls).
Proof.
  intros Hs calls. subst calls.
  pose proof (piano_dur_renderable seconds Hs) as Hd.
  destruct (piano_dur seconds) as [d| | |]; try done. destruct Hd as [Hd1 Hd2].
  unfold createPerNoteEnvelope.
  destruct (getSettingBool stored true); cbv zeta.
  - destruct (release_bounds d) as (r & -> & Hr1 & Hr2).
    rewrite (positive_Fin (1 # 100)) by lra.
    rewrite (positive_Fin r) by lra.
    rewrite (max_Fin_r (5 # 100) d) by lra. cbn [add sub app map time_of value_of].
    split.
    + repeat constructor; cbn [value_of]; apply peak_positive || by apply positive_Fin.
    + cbn. split_and!; try lra.
  - cbn [is_positive Qle_bool Z.leb Z.compare negb andb Qnum Qden Z.mul app map
         time_of ascending].
    split; [|split; [lra|done]]. repeat constructor. apply peak_positive.
Qed.

Lemma note_envelope_witness :
  ascending 2
    (map time_of
       (createPerNoteEnvelope None (25 # 100) 2 (piano_dur (Fin (15 # 100))))).
Proof.
  apply (note_envelope_is_well_formed None (25 # 100) 2 (Fin (15 # 100))).
  right. cbn. lra.
Defined.

End EnvelopeFacts.

(* ===================================================================== *)
(** * The dashboard: what a run of events adds up to *)
(* ===================================================================== *)

Section TallyFacts.
Import Text StatsDisplay Dashboard Samples Tally.

Lemma untouched_refl d : untouched d d.
Proof. by split. Qed.

Lemma untouched_trans d1 d2 d3 :
  untouched d1 d2 -> untouched d2 d3 -> untouched d1 d3.
Proof. intros [] []; split; congruence. Qed.

Lemma notes_requested_perform e d :
  notes_requested (perform e d)
  = notes_requested d + (if is_note e then 1 else 0).
Proof.
  unfold notes_requested, perform. cbn. rewrite List.filter_app, length_app.
  cbn. by destruct (is_note e).
Qed.

Lemma fire_untouched tm d : untouched d (fire tm d).
Proof.
  unfold fire. destruct (act tm); split; try done; unfold notes_requested; cbn;
    rewrite ?List.filter_app, ?length_app; cbn; lia.
Qed.

Lemma fire_due_untouched k t : forall d, untouched d (fire_due k t d).
Proof.
  induction k as [|k IH]; intros d; cbn; [apply untouched_refl|].
  destruct (earliest (timers d)) as [tm|]; [|apply untouched_refl].
  destruct (due tm <=? t)%N; [|apply untouched_refl].
  eapply untouched_trans; [apply fire_untouched|apply IH].
Qed.

Lemma advance_untouched t d : untouched d (advance t d).
Proof.
  unfold advance. destruct (fire_due_untouched (length (timers d)) t d).
  by split.
Qed.

Lemma schedule_refresh_untouched window d :
  untouched d (schedule_refresh window d).
Proof. unfold schedule_refresh. destruct (pendingStatsRefresh d); by split. Qed.

Lemma count_checkin_cases c d :
  let d' := count_checkin c d in
  cfg d' = cfg d
  /\ messageCounter d' = messageCounter d
  /\ currentBubbleMessage (ui d') = currentBubbleMessage (ui d)
  /\ effects d' = effects d
  /\ eventIncrement (ui d')
     = (eventIncrement (ui d)
        + if bool_decide (checkin_type c = Some (of_string "event")) then 1 else 0)%Z
  /\ sessionIncrement (ui d')
     = (sessionIncrement (ui d)
        + if bool_decide (checkin_type c = Some (of_string "session")) then 1 else 0)%Z.
Proof.
  unfold count_checkin. case_bool_decide as He.
  - rewrite (bool_decide_eq_false_2 (checkin_type c = Some (of_string "session")))
      by (by rewrite He).
    cbn. split_and!; try done; lia.
  - case_bool_decide as Hs; [destruct (truthy (session_id c))|]; cbn;
      split_and!; try done; lia.
Qed.

(** One event. *)
Lemma on_checkin_event_tally data d :
  let d' := on_checkin_event data d in
  cfg d' = cfg d
  /\ eventIncrement (ui d')
     = (eventIncrement (ui d) + if counts_as "event" data then 1 else 0)%Z
  /\ sessionIncrement (ui d')
     = (sessionIncrement (ui d) + if counts_as "session" data then 1 else 0)%Z
  /\ messageCounter d'
     = (messageCounter d + if truthy (message data) then 1 else 0)%Z
  /\ notes_requested d'
     = notes_requested d + (if symphony_on d then 1 else 0)
  /\ (truthy (message data) = true ->
      exists m, currentBubbleMessage (ui d') = Some m
        /\ id m = messageCounter d' /\ text m = default [] (message data))
  /\ (truthy (message data) = false ->
      currentBubbleMessage (ui d') = currentBubbleMessage (ui d)).
Proof.
  intros d'. subst d'. unfold on_checkin_event.
  set (d1 := if truthy (message data) then show_message data d else d).
  set (d2 := if bool_decide _ then count_checkin data d1 else d1).
  set (d3 := if symphony_on d2 then perform PlayNextNote d2 else d2).
  destruct (schedule_refresh_untouched CHECKIN_DEBOUNCE d3) as [-> -> -> -> -> ->].
  assert (H1 : cfg d1 = cfg d /\ effects d1 = effects d
               /\ eventIncrement (ui d1) = eventIncrement (ui d)
               /\ sessionIncrement (ui d1) = sessionIncrement (ui d)
               /\ messageCounter d1
                  = (messageCounter d + if truthy (message data) then 1 else 0)%Z).
  { subst d1. destruct (truthy (message data)); cbn; split_and!; try done; lia. }
  destruct H1 as (Hc1 & He1 & Hev1 & Hse1 & Hm1).
  assert (H2 : cfg d2 = cfg d1 /\ effects d2 = effects d1
               /\ messageCounter d2 = messageCounter d1
               /\ currentBubbleMessage (ui d2) = currentBubbleMessage (ui d1)
               /\ eventIncrement (ui d2)
                  = (eventIncrement (ui d1) + if counts_as "event" data then 1 else 0)%Z
               /\ sessionIncrement (ui d2)
                  = (sessionIncrement (ui d1) + if counts_as "session" data then 1 else 0)%Z).
  { subst d2. unfold counts_as. case_bool_decide as Ht; cbn [andb].
    - destruct (count_checkin_cases data d1) as (?&?&?&?&?&?). done.
    - split_and!; try done; lia. }
  destruct H2 as (Hc2 & He2 & Hm2 & Hb2 & Hev2 & Hse2).
  assert (Hsym : symphony_on d2 = symphony_on d).
  { unfold symphony_on. by rewrite Hc2, Hc1. }
  assert (H3 : cfg d3 = cfg d2 /\ ui d3 = ui d2
               /\ messageCounter d3 = messageCounter d2
               /\ notes_requested d3
                  = notes_requested d2 + if symphony_on d then 1 else 0).
  { subst d3. rewrite Hsym. destruct (symphony_on d).
    - rewrite notes_requested_perform. done.
    - split_and!; try done; lia. }
  destruct H3 as (Hc3 & Hu3 & Hm3 & Hn3).
  rewrite Hu3, Hc3, Hm3, Hn3.
  assert (Hn : notes_requested d2 = notes_requested d).
  { unfold notes_requested. by rewrite He2, He1. }
  split_and!; try congruence.
  - rewrite Hb2, Hm2. subst d1. intros ->. eexists. by split.
  - rewrite Hb2. subst d1. by intros ->.
Qed.

Lemma receive_tally d ev :
  let d' := receive d ev in
  cfg d' = cfg d
  /\ eventIncrement (ui d')
     = (eventIncrement (ui d) + if counts_as "event" ev.2 then 1 else 0)%Z
  /\ sessionIncrement (ui d')
     = (sessionIncrement (ui d) + if counts_as "session" ev.2 then 1 else 0)%Z
  /\ messageCounter d'
     = (messageCounter d + if truthy (message ev.2) then 1 else 0)%Z
  /\ notes_requested d'
     = notes_requested d + (if symphony_on d then 1 else 0)
  /\ (truthy (message ev.2) = true ->
      exists m, currentBubbleMessage (ui d') = Some m
        /\ id m = messageCounter d' /\ text m = default [] (message ev.2))
  /\ (truthy (message ev.2) = false ->
      currentBubbleMessage (ui d') = currentBubbleMessage (ui d)).
Proof.
  intros d'. subst d'. unfold receive.
  destruct (advance_untouched ev.1 d) as [Hc He Hs Hm Hb Hn].
  destruct (on_checkin_event_tally ev.2 (advance ev.1 d))
    as (H1 & H2 & H3 & H4 & H5 & H6 & H7).
  unfold symphony_on in *. rewrite Hc in *.
  split_and!; try congruence; [done|].
  intros Ht. rewrite (H7 Ht). done.
Qed.

Lemma symphony_on_cfg d d' : cfg d' = cfg d -> symphony_on d' = symphony_on d.
Proof. unfold symphony_on. by intros ->. Qed.

Lemma receive_all_cons ev evs d :
  receive_all (ev :: evs) d = receive_all evs (receive d ev).
Proof. done. Qed.

(** X13.  Over any run of [checkin_event]s, with the timers that fall due
    in between, the event increment grows by the number of payloads with
    [event_type] 'checkin' and [checkin_type] 'event', and the session
    increment by those with [checkin_type] 'session': each check-in is
    counted once and nothing else is counted. *)
Theorem every_checkin_is_counted_once (evs : list (N * checkin)) (d : dash) :
  let d' := receive_all evs d in
  eventIncrement (ui d')
  = (eventIncrement (ui d)
     + Z.of_nat (length (List.filter (counts_as "event") (map snd evs))))%Z
  /\ sessionIncrement (ui d')
     = (sessionIncrement (ui d)
        + Z.of_nat (length (List.filter (counts_as "session") (map snd evs))))%Z.
Proof.
  revert d. induction evs as [|ev evs IH]; intros d; [cbn; lia|].
  rewrite receive_all_cons. cbn [map List.filter].
  destruct (IH (receive d ev)) as [-> ->].
  destruct (receive_tally d ev) as (_ & -> & -> & _).
  destruct (counts_as "event" ev.2), (counts_as "session" ev.2); cbn [length]; lia.
Qed.

(** X14.  In Symphony mode with sound enabled each [checkin_event]
    requests exactly one note, and otherwise none; the configuration never
    changes; and the sound flag handed to the bubble component is off in
    Symphony mode, so a pop never sounds together with a note. *)
Theorem one_note_per_event_and_never_a_pop_with_it
    (evs : list (N * checkin)) (d : dash) :
  notes_requested (receive_all evs d)
  = notes_requested d + (if symphony_on d then length evs else 0)
  /\ cfg (receive_all evs d) = cfg d
  /\ (symphony_on d = true -> popEnabled (cfg d) = false)
  /\ (popEnabled (cfg d) = false ->
      forall e w, Symphony.playPopSound e (popEnabled (cfg d)) w
                  = (Symphony.Ok (), w)).
Proof.
  split_and!.
  - revert d. induction evs as [|ev evs IH]; intros d.
    { cbn. destruct (symphony_on d); lia. }
    rewrite receive_all_cons, IH. destruct (receive_tally d ev) as (Hc & _ & _ & _ & -> & _).
    rewrite (symphony_on_cfg _ _ Hc). destruct (symphony_on d); cbn [length]; lia.
  - revert d. induction evs as [|ev evs IH]; intros d; [done|].
    rewrite receive_all_cons, IH. by destruct (receive_tally d ev) as (-> & _).
  - unfold symphony_on, popEnabled. intros [_ H]%andb_prop. rewrite H.
    by destruct (soundEnabled (cfg d)).
  - by intros -> e w.
Qed.

(** X15.  Over any run of [checkin_event]s the message counter grows by
    the number of payloads that carry a message; the message on display is
    unchanged when there was none, and otherwise carries the counter's
    current value as its id. *)
Theorem bubble_ids_number_the_messages (evs : list (N * checkin)) (d : dash) :
  let d' := receive_all evs d in
  let k := length (List.filter (fun ev => truthy (message ev.2)) evs) in
  messageCounter d' = (messageCounter d + Z.of_nat k)%Z
  /\ (k = 0 -> currentBubbleMessage (ui d') = currentBubbleMessage (ui d))
  /\ (0 < k ->
      exists m, currentBubbleMessage (ui d') = Some m /\ id m = messageCounter d').
Proof.
  revert d. induction evs as [|ev evs IH]; intros d.
  { cbn. split_and!; [lia|done|lia]. }
  rewrite receive_all_cons. cbn [List.filter].
  destruct (IH (receive d ev)) as (Hm & H0 & Hpos).
  destruct (receive_tally d ev) as (_ & _ & _ & Hm1 & _ & Hyes & Hno).
  rewrite Hm, Hm1.
  destruct (truthy (message ev.2)); cbn [length].
  - split_and!; [lia|lia|]. intros _.
    destruct (List.filter _ evs) as [|x l] eqn:Ef.
    + rewrite H0 by done. destruct (Hyes eq_refl) as (m & Hcur & Hid & _).
      exists m. split; [done|]. rewrite Hid, Hm1. cbn [length]. lia.
    + destruct Hpos as (m & Hcur & Hid); [cbn; lia|].
      exists m. split; [done|]. rewrite Hid, Hm, Hm1. cbn [length]. lia.
  - split_and!; [lia| |].
    + intros Hk. rewrite H0 by done. by apply Hno.
    + intros Hk. destruct (Hpos Hk) as (m & Hcur & Hid).
      exists m. split; [done|]. rewrite Hid, Hm, Hm1. lia.
Qed.

End TallyFacts.

(* ===================================================================== *)
(** * The dashboard: pokes, lookups and failed fetches *)
(* ===================================================================== *)

Section RefreshFacts.
Import Text StatsDisplay Dashboard Samples Tally.

(** The debounce for any window. *)
Lemma schedule_refresh_window window d :
  tidy d ->
  let d' := schedule_refresh window d in
  tidy d'
  /\ exists j, pendingStatsRefresh d' = Some j
       /\ List.filter is_refresh (timers d')
          = [{| tid := j; due := (now d + window)%N; act := Refresh |}].
Proof.
  intros [Hnd Hall].
  set (d1 := match pendingStatsRefresh d with
             | Some i => clearTimeout i d
             | None => d
             end).
  assert (H1 : NoDup (map tid (timers d1))
               /\ Forall (fun tm => tid tm < next_timer d /\ act tm = ClearRecent)
                         (timers d1)
               /\ next_timer d1 = next_timer d /\ now d1 = now d).
  { subst d1. destruct (pendingStatsRefresh d) as [i|] eqn:Ep; cbn.
    - split_and!; try done; [by apply filter_tid_NoDup|].
      rewrite Forall_forall in *. intros tm [Hin Hne]%elem_of_filter_bool.
      destruct (Hall tm Hin) as [? [?|[_ [= ->]]]]; [done|].
      by rewrite Nat.eqb_refl in Hne.
    - split_and!; try done. eapply Forall_impl; [exact Hall|].
      cbn. by intros tm [? [?|[_ ?]]]. }
  destruct H1 as (Hnd1 & Hall1 & Hnx & Hnow).
  unfold schedule_refresh. fold d1. cbn. unfold tidy. cbn.
  rewrite Hnx, Hnow. split_and!.
  - rewrite map_app. cbn. apply NoDup_app. split_and!; [done| |apply NoDup_singleton].
    intros i Hi Hj%list_elem_of_singleton.
    apply list_elem_of_fmap in Hi as (tm & Htm & Hin).
    rewrite Forall_forall in Hall1. destruct (Hall1 tm Hin). lia.
  - apply Forall_app. split.
    + eapply Forall_impl; [exact Hall1|]. cbn. intros tm [? ?]. split; [lia|by left].
    + constructor; [|done]. cbn. split; [lia|by right].
  - eexists. split; [done|]. rewrite List.filter_app. cbn.
    replace (List.filter is_refresh (timers d1)) with (@nil timer); [done|].
    symmetry. clear -Hall1. induction Hall1 as [|tm r [_ Ha] _ IH]; [done|].
    cbn. unfold is_refresh at 1. rewrite Ha. by cbn.
Qed.

(** X16.  A poke for the subscribed event, in a tidy state: whatever
    refresh was pending is replaced by exactly one, due 3 s from now; only
    the first resource id is looked up; the counters, the message and the
    stats stay as they were. *)
Theorem matching_poke_rearms_three_seconds_ahead (p : poke) (d : dash) :
  tidy d ->
  String_ (event_id p) = String_ (currentEventId (cfg d)) ->
  let d' := on_checkin_poke (Some p) d in
  tidy d'
  /\ (exists j, pendingStatsRefresh d' = Some j
        /\ List.filter is_refresh (timers d')
           = [{| tid := j; due := (now d + 3000)%N; act := Refresh |}])
  /\ effects d'
     = effects d ++ match default [] (resource_ids p) with
                    | r :: _ => [FetchCheckinMessage r]
                    | [] => []
                    end
  /\ ui d' = ui d
  /\ messageCounter d' = messageCounter d.
Proof.
  intros Hd Hp d'. subst d'. unfold on_checkin_poke.
  rewrite bool_decide_eq_false_2 by (by intros ?).
  set (d1 := match default [] (resource_ids p) with
             | r :: _ => perform (FetchCheckinMessage r) d
             | [] => d
             end).
  assert (H1 : tidy d1 /\ now d1 = now d /\ ui d1 = ui d
               /\ messageCounter d1 = messageCounter d
               /\ effects d1
                  = effects d ++ match default [] (resource_ids p) with
                                 | r :: _ => [FetchCheckinMessage r]
                                 | [] => []
                                 end).
  { subst d1. destruct (default [] (resource_ids p)); cbn.
    - by rewrite app_nil_r.
    - done. }
  destruct H1 as (T1 & N1 & U1 & M1 & E1).
  destruct (schedule_refresh_window POKE_DEBOUNCE d1 T1) as (T2 & j & Hj & Hf).
  split_and!; [done| | | |].
  - exists j. by rewrite <- N1.
  - rewrite <- E1. unfold schedule_refresh.
    by destruct (pendingStatsRefresh d1).
  - rewrite <- U1. unfold schedule_refresh. by destruct (pendingStatsRefresh d1).
  - rewrite <- M1. unfold schedule_refresh. by destruct (pendingStatsRefresh d1).
Qed.

Lemma matching_poke_witness :
  let d := on_checkin_event session_checkin (initial evt42 0) in
  let d' := on_checkin_poke
              (Some {| event_id := VNum 42;
                       resource_ids := Some [VNum 7; VNum 8] |}) d in
  List.filter is_refresh (timers d')
  = [{| tid := 3; due := 3000; act := Refresh |}]
  /\ effects d' = effects d ++ [FetchCheckinMessage (VNum 7)].
Proof.
  intros d d'.
  destruct (matching_poke_rearms_three_seconds_ahead
              {| event_id := VNum 42; resource_ids := Some [VNum 7; VNum 8] |} d)
    as (_ & (j & Hj & Hf) & He & _).
  - apply on_checkin_event_arms. split; [constructor|constructor].
  - reflexivity.
  - split; [|exact He]. reflexivity.
Defined.

(** X17.  For a payload with a message and [event_type] 'checkin', the
    [checkin_event] handler and the reply handler of the poke lookup agree:
    the event handler does what the reply handler does and then schedules
    the refresh. *)
Theorem lookup_reply_acts_like_the_event (c : checkin) (d : dash) :
  truthy (message c) = true ->
  event_type c = Some (of_string "checkin") ->
  on_checkin_event c d
  = schedule_refresh CHECKIN_DEBOUNCE (on_checkin_message (Some c) d).
Proof.
  intros Hm Ht. unfold on_checkin_event, on_checkin_message.
  rewrite Hm. by rewrite bool_decide_eq_true_2.
Qed.

Lemma lookup_reply_witness :
  on_checkin_event session_checkin (initial evt42 0)
  = schedule_refresh CHECKIN_DEBOUNCE
      (on_checkin_message (Some session_checkin) (initial evt42 0)).
Proof. by apply lookup_reply_acts_like_the_event. Defined.

(** X18.  A failed stats fetch leaves the displayed numbers as they were,
    shows the error, and, with no other timer pending, is retried exactly
    once 5 s later; an aborted fetch changes nothing; applying the same
    snapshot twice is the same as applying it once. *)
Theorem stats_fetch_outcomes (msg : jsstring) (data : stats) (d : dash) :
  let failed := fetchStats_done (Failed msg) d in
  shown failed = shown d
  /\ error (ui failed) = of_string "Error loading stats: " ++ msg
  /\ (timers d = [] ->
      stats_fetches (advance (now d + 5000) failed)
      = stats_fetches d ++ [(now d + 5000)%N])
  /\ fetchStats_done Aborted d = d
  /\ fetchStats_done (Fetched data) (fetchStats_done (Fetched data) d)
     = fetchStats_done (Fetched data) d.
Proof.
  cbv zeta. split_and!; try done.
  intros Ht. unfold advance, fetchStats_done, setTimeout. cbn. rewrite Ht. cbn.
  rewrite N.leb_refl. cbn. rewrite omap_app. cbn. unfold stats_fetches.
  do 2 f_equal. lia.
Qed.

End RefreshFacts.

(* ===================================================================== *)
(** * The dashboard: the connection banners *)
(* ===================================================================== *)

Section ConnectionFacts.
Import Text Connection.

Lemma conn_initial_inv e k t0 : inv (initial e k t0).
Proof. split; cbn; try done; constructor. Qed.

(** A change that leaves the timers and the timeout ref alone. *)
Lemma inv_same_timers c c' :
  inv c ->
  timers c' = timers c -> next_timer c' = next_timer c ->
  reconnectTimeout c' = reconnectTimeout c ->
  (error c' = LOST -> 3 < consecutiveFailures c') ->
  (error c' = ISSUES -> 5 < consecutiveFailures c') ->
  inv c'.
Proof.
  intros [_ _ Hn Hf Hb] Ht Hx Hr H1 H2.
  split; rewrite ?Ht, ?Hx, ?Hr; done.
Qed.

Lemma conn_filter_tid_NoDup f (ts : list timer) :
  NoDup (map tid ts) -> NoDup (map tid (List.filter f ts)).
Proof.
  induction ts as [|t ts IH]; [constructor|].
  cbn. intros [Ht Hn]%NoDup_cons. destruct (f t); [|auto].
  cbn. apply NoDup_cons. split; [|auto].
  intros (u & Hu & [Hin _]%elem_of_filter_bool)%list_elem_of_fmap.
  apply Ht, list_elem_of_fmap. eauto.
Qed.

Lemma conn_clearTimeout_inv i c : inv c -> inv (clearTimeout i c).
Proof.
  intros [H1 H2 Hn Hf Hb]. split; cbn; try done.
  - by apply conn_filter_tid_NoDup.
  - by apply filter_Forall.
  - by apply filter_Forall.
Qed.

Lemma clearTimeout_named i c :
  inv c -> reconnectTimeout c = Some i ->
  List.filter is_banner (timers (clearTimeout i c)) = [].
Proof.
  intros [_ _ _ _ Hb] Hr. cbn. induction Hb as [|t ts Ht _ IH]; [done|].
  cbn. destruct (tid t =? i) eqn:E; cbn; [done|].
  unfold is_banner at 1. case_bool_decide as Ha; [|done].
  specialize (Ht Ha). rewrite Hr in Ht. injection Ht as ->.
  by rewrite Nat.eqb_refl in E.
Qed.

Lemma no_banner_without_ref c :
  inv c -> reconnectTimeout c = None -> List.filter is_banner (timers c) = [].
Proof.
  intros [_ _ _ _ Hb] Hr. induction Hb as [|t ts Ht _ IH]; [done|].
  cbn. unfold is_banner at 1. case_bool_decide as Ha; [|done].
  specialize (Ht Ha). congruence.
Qed.

Lemma setTimeout_again_inv delay c :
  inv c -> inv (setTimeout ConnectAgain delay c).2.
Proof.
  intros [H1 H2 Hn Hf Hb]. split; cbn; try done.
  - rewrite map_app. cbn. apply NoDup_app. split_and!; [done| |apply NoDup_singleton].
    intros i (t & -> & Hin)%list_elem_of_fmap Hj%list_elem_of_singleton.
    rewrite Forall_forall in Hf. specialize (Hf t Hin). lia.
  - apply Forall_app. split; [|constructor; [cbn; lia|done]].
    eapply Forall_impl; [exact Hf|]. cbn. intros; lia.
  - apply Forall_app. split; [done|]. by constructor.
Qed.

Lemma arm_banner_inv c :
  inv c -> reconnectTimeout c = None ->
  inv (with_reconnectTimeout (Some (next_timer c))
         (setTimeout ShowReconnecting 2000 c).2).
Proof.
  intros Hc Hr. pose proof (no_banner_without_ref c Hc Hr) as Hnone.
  destruct Hc as [H1 H2 Hn Hf Hb]. split; cbn; try done.
  - rewrite map_app. cbn. apply NoDup_app. split_and!; [done| |apply NoDup_singleton].
    intros i (t & -> & Hin)%list_elem_of_fmap Hj%list_elem_of_singleton.
    rewrite Forall_forall in Hf. specialize (Hf t Hin). lia.
  - apply Forall_app. split; [|constructor; [cbn; lia|done]].
    eapply Forall_impl; [exact Hf|]. cbn. intros; lia.
  - apply Forall_app. split; [|by constructor].
    rewrite Forall_forall in *. intros t Hin Ha.
    specialize (Hb t Hin Ha). congruence.
Qed.

Lemma without_timer_inv before tm after c :
  timers c = before ++ tm :: after ->
  inv c -> inv (with_timers (before ++ after) c).
Proof.
  intros Ht [H1 H2 Hn Hf Hb]. rewrite Ht in *. split; cbn; try done.
  - rewrite map_app in *. cbn in Hn. apply NoDup_app in Hn as (Ha & Hd & Hc).
    apply NoDup_cons in Hc as [_ Hc]. apply NoDup_app. split_and!; [done| |done].
    intros i Hi Hj. apply (Hd i Hi). by right.
  - apply Forall_app in Hf as [Ha [_ Hc]%Forall_cons]. by apply Forall_app.
  - apply Forall_app in Hb as [Ha [_ Hc]%Forall_cons]. by apply Forall_app.
Qed.

Lemma disconnect_proceed_inv c :
  inv c ->
  let c3 := match reconnectTimeout c with
            | Some i => clearTimeout i c
            | None => c
            end in
  inv (if bool_decide (3 < consecutiveFailures c3) then setError LOST c3 else c3).
Proof.
  intros Hc c3.
  assert (H3 : inv c3).
  { subst c3. destruct (reconnectTimeout c); [by apply conn_clearTimeout_inv|done]. }
  case_bool_decide as Hf; [|done].
  apply (inv_same_timers c3); try done.
Qed.

Lemma conn_step_inv c c' : step c c' -> inv c -> inv c'.
Proof.
  destruct 1 as [c|reason c|c|c|n c|c|c|b c|t c Ht|before tm after c Ht Hdue];
    intros Hc.
  - apply (inv_same_timers c); done.
  - unfold on_disconnect. case_bool_decide.
    + apply (disconnect_proceed_inv (setTimeout ConnectAgain 1000 (setConnected false c)).2).
      apply setTimeout_again_inv. by apply (inv_same_timers c); destruct Hc.
    + case_bool_decide.
      * by apply (inv_same_timers c); destruct Hc.
      * apply (disconnect_proceed_inv (setConnected false c)).
        by apply (inv_same_timers c); destruct Hc.
  - unfold on_connect_error. case_bool_decide as H5.
    + by apply (inv_same_timers c).
    + pose proof Hc as [Hl Hi _ _ _].
      apply (inv_same_timers c); try done; cbn; intros H;
        [specialize (Hl H)|specialize (Hi H)]; lia.
  - unfold on_reconnect.
    set (c1 := setConnected true (setError [] (with_failures 0 c))).
    assert (H1 : inv c1) by (by apply (inv_same_timers c)).
    set (c2 := match reconnectTimeout c1 with
               | Some i => with_reconnectTimeout None (clearTimeout i c1)
               | None => c1
               end).
    assert (H2 : inv c2).
    { subst c2. destruct (reconnectTimeout c1) as [i|] eqn:Er; [|done].
      pose proof (clearTimeout_named i c1 H1 Er) as Hnone.
      destruct (conn_clearTimeout_inv i c1 H1) as [Ha Hb Hn Hf _].
      split; try done. cbn in *.
      clear -Hnone. induction (List.filter _ (timers c)) as [|t ts IH]; [done|].
      cbn in Hnone. unfold is_banner at 1 in Hnone.
      case_bool_decide; [done|]. constructor; [done|auto]. }
    destruct (currentEventId c2), (currentApiKey c2); try done;
      by apply (inv_same_timers c2); destruct H2.
  - unfold on_reconnect_attempt.
    destruct (bool_decide (5 < n) && bool_decide (reconnectTimeout c = None)) eqn:E;
      [|done].
    apply andb_prop in E as [_ Hr%bool_decide_eq_true_1].
    by apply arm_banner_inv.
  - apply (inv_same_timers c); done.
  - pose proof Hc as [Hl Hi _ _ _].
    apply (inv_same_timers c); try done; cbn; intros H;
      [specialize (Hl H)|specialize (Hi H)]; lia.
  - by apply (inv_same_timers c); destruct Hc.
  - by apply (inv_same_timers c); destruct Hc.
  - pose proof (without_timer_inv _ _ _ _ Ht Hc) as H1.
    destruct (act tm); cbn.
    + apply (inv_same_timers (with_timers (before ++ after) c)); done.
    + destruct (socket_connected c); [done|].
      by apply (inv_same_timers (with_timers (before ++ after) c)); destruct H1.
Qed.

Lemma conn_reachable_inv c : reachable c -> inv c.
Proof.
  induction 1 as [e k t0|c c' _ IH Hs]; [apply conn_initial_inv|].
  by eapply conn_step_inv.
Qed.

(** X19.  In every state the connection handlers can reach, the banner
    'Connection lost. Reconnecting...' is only on display with more than
    three consecutive failures on record, and 'Connection issues...' only
    with more than five; a manual disconnect clears the connected flag and
    nothing else. *)
Theorem still_trying_banners_need_failures (c : conn) :
  reachable c ->
  (error c = LOST -> 3 < consecutiveFailures c)
  /\ (error c = ISSUES -> 5 < consecutiveFailures c)
  /\ on_disconnect (of_string "io client disconnect") c = setConnected false c.
Proof. intros [H1 H2 _ _ _]%conn_reachable_inv. done. Qed.

Lemma one_banner_at_most i (ts : list timer) :
  NoDup (map tid ts) ->
  Forall (fun t => act t = ShowReconnecting -> Some i = Some (tid t)) ts ->
  length (List.filter is_banner ts) <= 1.
Proof.
  induction ts as [|t ts IH]; cbn; [lia|].
  intros [Ht Hn]%NoDup_cons [Hi Hb]%Forall_cons. specialize (IH Hn Hb).
  unfold is_banner at 1. case_bool_decide as Ha; [|done].
  cbn. injection (Hi Ha) as ->.
  assert (E : List.filter is_banner ts = []); [|by rewrite E].
  clear -Ht Hb. induction Hb as [|u ts Hu _ IH]; [done|].
  cbn in *. apply not_elem_of_cons in Ht as [Hne Ht].
  unfold is_banner at 1. case_bool_decide as Ha; [|auto].
  injection (Hu Ha) as E. done.
Qed.

(** X20.  In every reachable state at most one 'Reconnecting...' timer is
    pending, and the [reconnect] handler leaves none: afterwards the error is
    empty, the failure count is 0, the timeout ref is null and the banner
    can no longer appear from an old timer. *)
Theorem reconnect_leaves_no_banner_pending (c : conn) :
  reachable c ->
  length (List.filter is_banner (timers c)) <= 1
  /\ let c' := on_reconnect c in
     error c' = [] /\ connected c' = true /\ consecutiveFailures c' = 0
     /\ reconnectTimeout c' = None
     /\ List.filter is_banner (timers c') = [].
Proof.
  intros Hc%conn_reachable_inv. split.
  - destruct (reconnectTimeout c) as [i|] eqn:Er.
    + destruct Hc as [_ _ Hn _ Hb]. rewrite Er in Hb.
      by apply (one_banner_at_most i).
    + rewrite no_banner_without_ref by done. cbn. lia.
  - cbv zeta. unfold on_reconnect.
    set (c1 := setConnected true (setError [] (with_failures 0 c))).
    assert (H1 : inv c1) by (by apply (inv_same_timers c)).
    destruct (reconnectTimeout c1) as [i|] eqn:Er.
    + pose proof (clearTimeout_named i c1 H1 Er) as Hnone.
      by repeat case_match.
    + pose proof (no_banner_without_ref c1 H1 Er) as Hnone.
      by repeat case_match.
Qed.

Lemma reconnect_witness :
  let c := on_reconnect_attempt 6
             (on_connect_error (initial (of_string "42") (of_string "key") 0)) in
  List.filter is_banner (timers c) <> []
  /\ List.filter is_banner (timers (on_reconnect c)) = [].
Proof.
  intros c. split; [by vm_compute|].
  apply (reconnect_leaves_no_banner_pending c).
  apply (reachable_step (on_connect_error (initial (of_string "42") (of_string "key") 0)));
    [|apply step_reconnect_attempt].
  apply (reachable_step (initial (of_string "42") (of_string "key") 0));
    [|apply step_connect_error].
  apply reachable_initial.
Defined.

Lemma still_trying_witness :
  let failing := Nat.iter 4 on_connect_error
                   (initial (of_string "42") (of_string "key") 0) in
  let c := on_disconnect (of_string "transport close") failing in
  error c = LOST /\ 3 < consecutiveFailures c.
Proof.
  intros failing c. split; [reflexivity|].
  apply (still_trying_banners_need_failures c); [|reflexivity].
  apply (reachable_step failing); [|apply step_disconnect].
  do 4 (eapply reachable_step; [|apply step_connect_error]).
  apply reachable_initial.
Defined.

End ConnectionFacts.

(* ===================================================================== *)
(** * The bubbles: every bubble is removed once *)
(* ===================================================================== *)

Section LifetimeFacts.
Import Text Bubbles Samples Lifetimes.

Lemma add_updater_elem b l x : x ∈ add_updater b l -> x ∈ l \/ x = b.
Proof.
  unfold add_updater. intros H.
  assert (Hx : x ∈ l ++ [b]).
  { case_bool_decide; [|done]. eapply elem_of_sublist; [exact H|apply sublist_drop]. }
  apply elem_of_app in Hx as [?|?%list_elem_of_singleton]; auto.
Qed.

Lemma initial_accounted t0 : accounted (initial t0).
Proof. split; [by intros b ?%elem_of_nil|done]. Qed.

(** The queue and the processing flag play no part. *)
Lemma accounted_same c c' :
  bubbles c' = bubbles c -> timers c' = timers c -> now c' = now c ->
  completed c' = completed c -> presented c' = presented c ->
  accounted c -> accounted c'.
Proof. intros Hb Ht Hn Hc Hp [H1 H2]. split; rewrite ?Hb, ?Ht, ?Hn, ?Hc, ?Hp; done. Qed.

Lemma addBubble_accounted msg eventType r c :
  accounted c ->
  accounted (setTimeout ProcessNext STAGGER (addBubble msg eventType r c)).
Proof.
  intros [H1 H2]. split; cbn.
  - intros b [Hb| ->]%add_updater_elem.
    + destruct (H1 b Hb) as (t & Ht & Hle). exists t. split; [|done].
      rewrite !elem_of_app. auto.
    + eexists. split; [|reflexivity]. rewrite !elem_of_app. left. right.
      by apply list_elem_of_singleton.
  - rewrite !List.filter_app, !length_app. cbn. lia.
Qed.

Lemma on_message_accounted m r c : accounted c -> accounted (on_message m r c).
Proof.
  intros [H1 H2]. unfold on_message. case_match; [|done].
  split; cbn.
  - intros b Hb. destruct (H1 b Hb) as (t & Ht & Hle). exists t.
    split; [|done]. apply elem_of_app. by left.
  - rewrite List.filter_app, length_app. cbn. lia.
Qed.

Lemma wait_accounted t c :
  (now c <= t)%N -> accounted c -> accounted (with_now t c).
Proof.
  intros Ht [H1 H2]. split; cbn; [|done].
  intros b Hb. destruct (H1 b Hb) as (u & Hu & Hle). exists u. split; [done|lia].
Qed.

Lemma fire_accounted before t a after r c :
  timers c = before ++ (t, a) :: after ->
  accounted c ->
  accounted (run a r (with_timers (before ++ after) c)).
Proof.
  intros Ht [H1 H2]. rewrite Ht, filter_without in H2.
  set (c1 := with_timers (before ++ after) c).
  destruct a as [| |i]; cbn [run].
  - assert (Hc1 : accounted c1).
    { split; cbn; [|cbn in H2; lia]. intros b Hb.
      destruct (H1 b Hb) as (u & Hu & Hle). exists u. split; [|done].
      rewrite Ht in Hu. by apply (elem_of_with _ _ _ _ Hu). }
    unfold processMessageQueue. destruct (processing c1); [done|].
    destruct (messageQueue c1) as [|q rest] eqn:Hq; [done|].
    unfold processNext. cbn [messageQueue with_processing]. rewrite Hq.
    apply addBubble_accounted. by apply (accounted_same c1).
  - assert (Hc1 : accounted c1).
    { split; cbn; [|cbn in H2; lia]. intros b Hb.
      destruct (H1 b Hb) as (u & Hu & Hle). exists u. split; [|done].
      rewrite Ht in Hu. by apply (elem_of_with _ _ _ _ Hu). }
    unfold processNext. destruct (messageQueue c1) as [|q rest] eqn:Hq.
    + by apply (accounted_same c1).
    + apply addBubble_accounted. by apply (accounted_same c1).
  - split; cbn.
    + intros b [Hb Hne]%elem_of_filter_bool.
      destruct (H1 b Hb) as (u & Hu & Hle). exists u. split; [|done].
      rewrite Ht in Hu. apply (elem_of_with _ _ _ _ Hu).
      intros [= _ E]. rewrite E in Hne.
      by rewrite (proj2 (Qeq_bool_iff i i) (Qeq_refl i)) in Hne.
    + rewrite length_app. cbn in *. lia.
Qed.

Lemma step_accounted c c' : step c c' -> accounted c -> accounted c'.
Proof.
  destruct 1 as [m r c|t c Ht|before t a after r c Ht Hdue]; intros Hc.
  - by apply on_message_accounted.
  - by apply wait_accounted.
  - by apply (fire_accounted before t a after).
Qed.

Lemma reachable_accounted c : reachable c -> accounted c.
Proof.
  induction 1 as [t0|c c' _ IH Hs]; [apply initial_accounted|].
  by eapply step_accounted.
Qed.

(** X21.  In every state the bubble component can reach, each bubble on
    screen has its removal timer pending, due at most one lifetime (30 s)
    from now: no bubble stays for good. *)
Theorem every_bubble_has_its_removal_pending (c : comp) (b : bubble) :
  reachable c -> b ∈ bubbles c ->
  exists t, (t, Lifetime (id b)) ∈ timers c
    /\ (t <= now c + BUBBLE_LIFETIME)%N.
Proof. intros [H _]%reachable_accounted. apply H. Qed.

(** X22.  In every reachable state the number of completion callbacks made
    plus the number of removal timers pending equals the number of bubbles
    shown so far: each [addBubble] leads to exactly one [onBubbleComplete]. *)
Theorem shown_bubbles_are_all_accounted_for (c : comp) :
  reachable c ->
  length (completed c) + length (List.filter is_lifetime (timers c))
  = length (presented c).
Proof. by intros [_ H]%reachable_accounted. Qed.

Lemma removal_pending_witness :
  Forall (fun b => exists t, (t, Lifetime (id b)) ∈ timers one_bubble_up
                     /\ (t <= now one_bubble_up + BUBBLE_LIFETIME)%N)
         (bubbles one_bubble_up).
Proof.
  apply Forall_forall. intros b Hb.
  apply (every_bubble_has_its_removal_pending one_bubble_up b);
    [apply one_bubble_up_reachable|exact Hb].
Defined.

Lemma accounted_for_witness :
  length (completed one_bubble_up)
  + length (List.filter is_lifetime (timers one_bubble_up))
  = length (presented one_bubble_up).
Proof.
  apply (shown_bubbles_are_all_accounted_for one_bubble_up).
  apply one_bubble_up_reachable.
Defined.

End LifetimeFacts.

(* ===================================================================== *)
(** * From the dashboard to the bubbles *)
(* ===================================================================== *)

Section WiringFacts.
Import Text Dashboard Wiring.

(** ** The message on display after a run of events *)

Lemma receive_all_quiet evs : forall d,
  List.filter has_message evs = [] ->
  currentBubbleMessage (ui (receive_all evs d)) = currentBubbleMessage (ui d)
  /\ messageCounter (receive_all evs d) = messageCounter d.
Proof.
  induction evs as [|ev evs IH]; intros d; [done|].
  rewrite receive_all_cons. cbn [List.filter]. unfold has_message at 1.
  destruct (truthy (message ev.2)) eqn:E; [done|]. intros Hf.
  destruct (IH (receive d ev) Hf) as [-> ->].
  destruct (receive_tally d ev) as (_ & _ & _ & Hm & _ & _ & Hno).
  rewrite E in Hm. split; [by apply Hno|lia].
Qed.

Lemma receive_all_counter evs : forall d,
  messageCounter (receive_all evs d)
  = (messageCounter d + Z.of_nat (length (List.filter has_message evs)))%Z.
Proof.
  induction evs as [|ev evs IH]; intros d; [cbn; lia|].
  rewrite receive_all_cons, IH. cbn [List.filter]. unfold has_message at 2.
  destruct (receive_tally d ev) as (_ & _ & _ & -> & _).
  destruct (truthy (message ev.2)); cbn [length]; lia.
Qed.

Lemma receive_all_shown evs : forall d ev,
  last (List.filter has_message evs) = Some ev ->
  exists m, currentBubbleMessage (ui (receive_all evs d)) = Some m
    /\ id m = messageCounter (receive_all evs d)
    /\ text m = default [] (message ev.2).
Proof.
  induction evs as [|ev0 evs IH]; intros d ev; [done|].
  rewrite receive_all_cons. cbn [List.filter]. unfold has_message at 1.
  destruct (List.filter has_message evs) as [|x l] eqn:Ef.
  - destruct (truthy (message ev0.2)) eqn:E; [|done]. intros [= <-].
    destruct (receive_all_quiet evs (receive d ev0) Ef) as [-> ->].
    destruct (receive_tally d ev0) as (_ & _ & _ & _ & _ & Hyes & _).
    by apply Hyes.
  - intros Hl. apply IH.
    destruct (truthy (message ev0.2)); [|done]. by rewrite last_cons_cons in Hl.
Qed.
(** X23.  Between two renders the dashboard may handle any number of
    [checkin_event]s, and the effect of the bubble component runs once for a
    render, on the message stored last.  Of a run of events of which [k],
    at least one, carry a message it queues exactly one entry: the text of
    the last payload with a message, under the dashboard's counter, which
    has grown by [k]; the earlier messages of the run are not queued.  It
    arms one drain timer 50 ms ahead.  The [null] that
    [handleBubbleComplete] stores queues nothing. *)
Theorem shown_message_is_queued_under_its_id
    (evs : list (N * Dashboard.checkin)) (latest : N * Dashboard.checkin)
    (d : Dashboard.dash) (r : Q) (c : Bubbles.comp) :
  last (List.filter has_message evs) = Some latest ->
  (0 <= Dashboard.messageCounter d)%Z ->
  let d' := Dashboard.receive_all evs d in
  let c' := render_effect d' r c in
  exists entry,
    Bubbles.messageQueue c' = Bubbles.messageQueue c ++ [entry]
    /\ Some (Bubbles.q_message entry) = Dashboard.message latest.2
    /\ Bubbles.q_id entry = inject_Z (Dashboard.messageCounter d')
    /\ Dashboard.messageCounter d'
       = (Dashboard.messageCounter d
          + Z.of_nat (length (List.filter has_message evs)))%Z
    /\ Bubbles.accepted c' = Bubbles.accepted c ++ [Bubbles.q_message entry]
    /\ Bubbles.timers c'
       = Bubbles.timers c ++ [((Bubbles.now c + 50)%N, Bubbles.ProcessQueue)]
    /\ render_effect (handleBubbleComplete d') r c' = c'.
Proof.
  intros Hl Hc d' c'.
  destruct (receive_all_shown evs d latest Hl) as (m & Hcur & Hid & Htxt).
  pose proof (receive_all_counter evs d) as Hn. fold d' in Hcur, Hid, Hn.
  assert (Hk : 0 < length (List.filter has_message evs)).
  { destruct (List.filter has_message evs); [done|cbn; lia]. }
  assert (Ht : has_message latest = true).
  { assert (Hin : latest ∈ List.filter has_message evs).
    { destruct (List.filter has_message evs) as [|x l] using rev_ind; [done|].
      rewrite last_snoc in Hl. injection Hl as ->. apply elem_of_app. right. by left. }
    by apply elem_of_filter_bool in Hin as [_ ?]. }
  unfold has_message in Ht.
  destruct (Dashboard.message latest.2) as [[|ch txt]|] eqn:Em; try done.
  cbn in Htxt.
  assert (Hc' : c' = Bubbles.on_message
                       (Bubbles.MsgObject (Some (ch :: txt))
                          (Some (Dashboard.messageCounter d'))
                          (Some (Dashboard.timestamp m))
                          (Some (Dashboard.bm_event_type m))) r c).
  { subst c'. unfold render_effect. rewrite Hcur. cbn [message_prop_of].
    by rewrite Htxt, Hid. }
  assert (Hnull : forall c0, render_effect (handleBubbleComplete d') r c0 = c0)
    by done.
  rewrite Hnull, Hc'. unfold Bubbles.on_message. cbn [Bubbles.nonempty].
  rewrite (proj2 (Z.eqb_neq _ 0)) by lia.
  eexists. split_and!; try reflexivity. exact Hn.
Qed.

(** Two check-ins with a message handled before one render: the second is
    queued, under id 2, and the first is not. *)
Lemma shown_message_witness :
  let bo :=
    {| message := Some (of_string "Bo joined Keynote");
       event_type := Some (of_string "checkin");
       checkin_type := Some (of_string "session");
       session_id := Some (of_string "s1") |} in
  exists entry,
    Bubbles.messageQueue
      (render_effect
         (receive_all [(0%N, Samples.session_checkin); (10%N, bo)]
            (Dashboard.initial Samples.evt42 0))
         0 (Bubbles.initial 0))
    = [entry]
    /\ Bubbles.q_message entry = of_string "Bo joined Keynote"
    /\ Bubbles.q_id entry = 2%Q.
Proof.
  intros bo.
  destruct (shown_message_is_queued_under_its_id
              [(0%N, Samples.session_checkin); (10%N, bo)] (10%N, bo)
              (Dashboard.initial Samples.evt42 0) 0 (Bubbles.initial 0))
    as (entry & H1 & H2 & H3 & _); [reflexivity|done|].
  exists entry. split_and!; [exact H1| |exact H3].
  cbn in H2. by injection H2.
Defined.

End WiringFacts.

(* ===================================================================== *)
(** * The key, the storage and the screens *)
(* ===================================================================== *)

Ltac key_ne := let E := fresh in intros E; vm_compute in E; discriminate E.

Section OnboardingFacts.
Import Text Onboarding.

(** ** [trim] *)

Lemma drop_while_idem p s : drop_while p (drop_while p s) = drop_while p s.
Proof.
  induction s as [|c s IH]; [done|]. cbn. destruct (p c) eqn:E; [done|].
  cbn. by rewrite E.
Qed.

Lemma drop_while_head p s c r : drop_while p s = c :: r -> p c = false.
Proof.
  induction s as [|d s IH]; [done|]. cbn. destruct (p d) eqn:E; [done|].
  by intros [= <- <-].
Qed.

Lemma drop_while_keep p s c r : s = c :: r -> p c = false -> drop_while p s = s.
Proof. intros -> E. cbn. by rewrite E. Qed.

Lemma drop_while_suffix p s : exists pre, s = pre ++ drop_while p s.
Proof.
  induction s as [|c s [pre IH]]; [by exists []|]. cbn.
  destruct (p c); [|by exists []]. exists (c :: pre). cbn. by f_equal.
Qed.

Lemma trim_idem s : trim (trim s) = trim s.
Proof.
  unfold trim. set (t := drop_while is_space s).
  set (u := drop_while is_space (rev t)).
  assert (Ht : drop_while is_space (rev u) = rev u).
  { destruct (rev u) as [|c r] eqn:Er; [done|].
    apply (drop_while_keep _ _ c r eq_refl).
    (* the head of [rev u] is the last of [u], which is the head of [t] *)
    destruct (drop_while_suffix is_space (rev t)) as [pre Hpre]. fold u in Hpre.
    assert (Hrev : t = rev u ++ rev pre).
    { rewrite <- rev_app_distr, <- Hpre. by rewrite rev_involutive. }
    rewrite Er in Hrev. cbn in Hrev.
    by apply (drop_while_head is_space s c (r ++ rev pre)). }
  rewrite Ht, rev_involutive. subst u. by rewrite drop_while_idem.
Qed.

(** ** From the start page to the event selection *)

Lemma or_else_truthy c s b : or_else (Some (c :: s)) b = c :: s.
Proof. done. Qed.

(** X24.  With working storage: a blank key is refused, nothing is stored
    and [onContinue] is not called; any other key is trimmed, stored in the
    area the checkbox selects and removed from the other, so that [App]
    opens the event selection with exactly that key and [Setup] validates
    it, whatever either area held before. *)
Theorem submitted_key_reaches_setup
    (apiKey : jsstring) (remember : bool) (a : app) (st : storage) :
  working st ->
  let s := handleSubmit apiKey remember st in
  let next := onContinue (trim apiKey) remember a (stored s) in
  (trim apiKey = [] ->
     s = {| shown_error := ENTER_KEY; stored := st; continued := None |})
  /\ (trim apiKey <> [] ->
      shown_error s = []
      /\ continued s = Some (trim apiKey, remember)
      /\ items (if remember then localStorage next.2 else sessionStorage next.2)
           !! KEY = Some (trim apiKey)
      /\ items (if remember then sessionStorage next.2 else localStorage next.2)
           !! KEY = None
      /\ (isSetup a = false ->
          render next.1 next.2 = Some (ShowSetup (trim apiKey)))
      /\ setup_key (trim apiKey) next.2 = trim apiKey).
Proof.
  intros (Hlb & Hlf & Hsb & Hsf) s next. subst s next. unfold handleSubmit.
  pose proof (trim_idem apiKey) as Hidem.
  destruct (trim apiKey) as [|c k] eqn:Et; (split; [done|]); [done|]. intros _.
  unfold setup_key. rewrite Hidem.
  unfold onContinue, render, store_key. cbn [stored fst snd].
  destruct remember; cbn; rewrite ?Hlb, ?Hlf, ?Hsb, ?Hsf; cbn;
    rewrite ?Hlb, ?Hlf, ?Hsb, ?Hsf; cbn;
    rewrite ?lookup_insert_eq, ?lookup_delete_eq, ?lookup_insert_eq; cbn.
  all: split_and!; try done; intros ->; by rewrite Hsb, Hlb.
Qed.

Lemma submitted_key_witness :
  let st := {| localStorage :=
                 {| items := {[ KEY := of_string "old-key" ]};
                    blocked := false; full := false |};
               sessionStorage :=
                 {| items := ∅; blocked := false; full := false |} |} in
  let s := handleSubmit (of_string "  new-key ") false st in
  let next := onContinue (of_string "new-key") false initial_app (stored s) in
  render next.1 next.2 = Some (ShowSetup (of_string "new-key")).
Proof.
  intros st s next.
  destruct (submitted_key_reaches_setup (of_string "  new-key ") false
              initial_app st) as [_ H]; [by repeat split|].
  destruct H as (_ & _ & _ & _ & H & _); [done|]. by apply H.
Defined.

(** ** A finished setup and a reload *)

Lemma reset_lookups (m : gmap jsstring jsstring) k :
  k ∈ [API_KEY; EVENT_ID; EVENT_NAME; WEBHOOK_URL] ->
  delete KEY (delete WEBHOOK_URL (delete EVENT_NAME
    (delete EVENT_ID (delete API_KEY m)))) !! k = None.
Proof.
  rewrite !elem_of_cons, elem_of_nil. intros [->|[->|[->|[->|[]]]]].
  all: repeat first [ rewrite lookup_delete_eq
                    | rewrite lookup_delete_ne by key_ne ]; done.
Qed.

(** X25.  With [localStorage] readable and writable and a non-empty key
    and event id, what [handleSetupComplete] saves is what the mount effect
    reads back: the app opens the dashboard with the same key, event id and
    name; the webhook URL is the new one, or the one stored before when the
    new one is empty.  After [handleReset] the mount effect finds
    nothing. *)
Theorem finished_setup_survives_reload
    (data : setup_data) (a a0 : app) (st : storage) :
  blocked (localStorage st) = false ->
  full (localStorage st) = false ->
  d_apiKey data <> [] ->
  d_eventId data <> [] ->
  let saved := (handleSetupComplete data a st).2 in
  mount a0 saved
  = Some {| isSetup := true; apiKey := d_apiKey data;
            eventId := d_eventId data;
            eventName := Some (or_else (d_eventName data) []);
            webhookBaseUrl :=
              match d_webhookBaseUrl data with
              | [] => or_else (items (localStorage st) !! WEBHOOK_URL) []
              | url => url
              end;
            webhookWarning := webhookWarning a0;
            startAtEventSelection := startAtEventSelection a0 |}
  /\ mount a0 (handleReset a saved).2 = Some a0.
Proof.
  intros Hb Hf Hk He saved. subst saved.
  unfold handleSetupComplete. cbn [snd]. rewrite Hb, Hf. cbn [orb].
  split.
  - unfold mount. cbn [localStorage with_items items blocked]. rewrite Hb.
    cbv zeta.
    destruct (d_webhookBaseUrl data) as [|c3 k3];
      repeat first [ rewrite lookup_insert_eq
                   | rewrite lookup_insert_ne by key_ne ];
      destruct (d_apiKey data) as [|c1 k1]; try done;
      destruct (d_eventId data) as [|c2 k2]; try done;
      cbn [truthy andb or_else]; by destruct (d_eventName data) as [[|? ?]|].
  - unfold handleReset, mount. cbn [localStorage with_items items blocked snd].
    rewrite Hb. cbn [localStorage with_items items blocked snd]. rewrite Hb.
    rewrite reset_lookups; [done|]. rewrite !elem_of_cons. auto.
Qed.

Lemma finished_setup_witness :
  let data := {| d_apiKey := of_string "key"; d_eventId := of_string "42";
                 d_eventName := None; d_webhookBaseUrl := [];
                 d_webhookWarning := [] |} in
  let st := {| localStorage :=
                 {| items := {[ WEBHOOK_URL := of_string "https://old.example" ]};
                    blocked := false; full := false |};
               sessionStorage :=
                 {| items := ∅; blocked := false; full := false |} |} in
  mount initial_app (handleSetupComplete data initial_app st).2
  = Some {| isSetup := true; apiKey := of_string "key";
            eventId := of_string "42"; eventName := Some [];
            webhookBaseUrl := of_string "https://old.example";
            webhookWarning := []; startAtEventSelection := false |}.
Proof.
  intros data st.
  destruct (finished_setup_survives_reload data initial_app initial_app st)
    as [H _]; try done.
Defined.

End OnboardingFacts.

(* ===================================================================== *)
(** * The saved preferences *)
(* ===================================================================== *)

Section PreferenceFacts.
Import Text Envelope Onboarding Preferences.

Lemma read_flag_toString b : read_flag (Some (toString b)) = b.
Proof. by destruct b. Qed.

(** X26.  After a successful Save, what the dashboard would load from
    storage on a reload is what [handleSettingsUpdate] sets right away, for
    every preference but one: an empty song selection is not written, so a
    reload brings back the song stored before. *)
Theorem saved_preferences_reload_the_same
    (f : form) (currentEventName : jsstring) (st : storage) :
  blocked (localStorage st) = false ->
  full (localStorage st) = false ->
  f_apiKey f <> [] ->
  f_selectedEventId f <> [] ->
  let s := handleSave f currentEventName st in
  exists u,
    result s = Saved /\ update s = Some u
    /\ load (items (localStorage (storage_after s)))
       = {| soundEnabled := soundEnabled (handleSettingsUpdate u);
            soundMode := soundMode (handleSettingsUpdate u);
            symphonySong :=
              match f_selectedSong f with
              | [] => or_else (items (localStorage st) !! SYMPHONY_SONG) []
              | song => song
              end;
            bubblesEnabled := bubblesEnabled (handleSettingsUpdate u);
            statsEnabled := statsEnabled (handleSettingsUpdate u);
            sessionCountsEnabled := sessionCountsEnabled (handleSettingsUpdate u) |}
    /\ (f_selectedSong f <> [] ->
        load (items (localStorage (storage_after s))) = handleSettingsUpdate u).
Proof.
  intros Hb Hf Hk He s. subst s. unfold handleSave.
  destruct (f_apiKey f) as [|c1 k1] eqn:E1; [done|].
  destruct (f_selectedEventId f) as [|c2 k2] eqn:E2; [done|].
  rewrite Hb, Hf. cbn [orb result update storage_after localStorage items with_items].
  eexists. split; [done|]. split; [done|].
  assert (Hload : load (save_items f (items (localStorage st)))
    = {| soundEnabled := f_soundEnabled f;
         soundMode := or_str (f_soundMode f) HEARTBEAT;
         symphonySong :=
           match f_selectedSong f with
           | [] => or_else (items (localStorage st) !! SYMPHONY_SONG) []
           | song => song
           end;
         bubblesEnabled := f_bubblesEnabled f;
         statsEnabled := f_statsEnabled f;
         sessionCountsEnabled := f_sessionCountsEnabled f |}).
  { unfold load, save_items. cbv zeta.
    destruct (f_selectedSong f) as [|c4 k4], (f_webhookBaseUrl f) as [|c3 k3];
      repeat first [ rewrite lookup_insert_eq
                   | rewrite lookup_insert_ne by key_ne ];
      rewrite !read_flag_toString; by destruct (f_soundMode f). }
  split; [exact Hload|].
  intros Hsong. rewrite Hload. unfold handleSettingsUpdate.
  cbn [s_soundEnabled s_soundMode s_symphonySong s_bubblesEnabled
       s_statsEnabled s_sessionCountsEnabled].
  by destruct (f_selectedSong f).
Qed.

Lemma saved_preferences_witness :
  let f := {| f_apiKey := of_string "key"; f_selectedEventId := of_string "42";
              f_eventName := None; f_webhookBaseUrl := [];
              f_soundEnabled := false; f_soundMode := of_string "Symphony";
              f_selectedSong := []; f_bubblesEnabled := true;
              f_statsEnabled := false; f_sessionCountsEnabled := true;
              f_colors := of_string "{}" |} in
  let st := {| localStorage :=
                 {| items := {[ SYMPHONY_SONG := of_string "ode.abc" ]};
                    blocked := false; full := false |};
               sessionStorage :=
                 {| items := ∅; blocked := false; full := false |} |} in
  load (items (localStorage (storage_after (handleSave f [] st))))
  = {| soundEnabled := false; soundMode := of_string "Symphony";
       symphonySong := of_string "ode.abc"; bubblesEnabled := true;
       statsEnabled := false; sessionCountsEnabled := true |}.
Proof.
  intros f st.
  destruct (saved_preferences_reload_the_same f [] st)
    as (u & _ & Hu & H & _); [done..|].
  rewrite H. injection Hu as <-. reflexivity.
Defined.

(** X27.  What a sound toggle of the panel writes is what the player reads:
    [getSettingBool] on the text of a boolean gives that boolean back,
    whatever the fallback.  The reverb checkbox shows what the player uses
    for every stored value; the envelope checkbox does so for the values the
    panel can have written (none, 'true', 'false'). *)
Theorem sound_toggles_read_back :
  (forall b fallback, getSettingBool (Some (toString b)) fallback = b)
  /\ (forall stored, reverb_checked stored = getSettingBool stored false)
  /\ (forall stored,
        stored = None \/ (exists b, stored = Some (toString b)) ->
        envelope_checked stored = getSettingBool stored true).
Proof.
  split_and!.
  - by intros [] ?.
  - intros [v|]; [|done]. unfold reverb_checked, getSettingBool.
    repeat case_bool_decide; congruence.
  - intros stored [->|[[] ->]]; done.
Qed.

End PreferenceFacts.
